(** * Streams controller of the music server: a shallow embedding

    The definitions below follow
    [music_assistant/server/controllers/streams.py]: the flow stream
    generator ([get_flow_stream]), the output format negotiation
    ([parse_pcm_info], [_get_output_format]), the ICY metadata writer of
    [serve_queue_flow_stream], the [MultiClientStreamJob] class, the job
    registry of [create_multi_client_stream_job], the two
    [resolve_stream_url] and the checks of [serve_multi_subscriber_stream].

    Conventions.  Python [bytes] are lists of bytes; Python [int] is [Z];
    the true division [a / b] of two ints is kept as the exact rational
    (Python rounds that quotient to the nearest double); a generator is the
    list of things it does, in order, together with the way it ends; a
    coroutine is cut at its suspension points, and a run of the job or of
    the controller is a list of the pieces that ran, in the order the event
    loop ran them.  Code of the repository outside this file (the audio
    helpers, the enums, the provider and queue controllers) enters as
    parameters of the sections below.

    The definitions come first, then sample inputs, then the facts. *)

From Stdlib Require Import ZArith QArith List Bool Ascii String Strings.Byte Lia.
From stdpp Require Import base option list gmap strings pretty.
Import ListNotations.

Local Open Scope Z_scope.

(** ** Python bytes and slices *)

Abbreviation bytes := (list byte).

Definition len (b : bytes) : Z := Z.of_nat (length b).

(** Truthiness of a bytes object: non-empty. *)
Definition truthy (b : bytes) : bool :=
  match b with [] => false | _ :: _ => true end.

(** A slice bound [i] on a sequence of length [n]: negative bounds count
    from the end, and every bound is clamped to [0..n]. *)
Definition slice_bound (n i : Z) : nat :=
  Z.to_nat (if i <? 0 then Z.max 0 (n + i) else Z.min i n).

(** [b[:i]] *)
Definition slice_to (b : bytes) (i : Z) : bytes :=
  take (slice_bound (len b) i) b.

(** [b[i:]] *)
Definition slice_from (b : bytes) (i : Z) : bytes :=
  drop (slice_bound (len b) i) b.

(** Total number of bytes in a list of chunks. *)
Fixpoint total_len (chunks : list bytes) : Z :=
  match chunks with
  | [] => 0
  | chunk :: more => len chunk + total_len more
  end.

(** Python [int(x)] on the exact quotient [a / b]: truncation. *)
Definition int_div (a b : Z) : Z := Z.quot a b.

(** ** Exceptions the modelled code raises or meets *)

Inductive exn :=
| MediaNotFoundError
| QueueEmpty
| ZeroDivisionError
| ValueError
| UnicodeEncodeError
| AssertionError
| OtherError (what : string).

(** A call that returns a value or raises. *)
Definition bind {A B : Type} (m : exn + A) (k : A -> exn + B) : exn + B :=
  match m with
  | inl e => inl e
  | inr a => k a
  end.

Notation "'let*' x ':=' m 'in' k" := (bind m (fun x => k))
  (at level 10, x pattern, m at level 100, k at level 200).

(** ** Audio formats *)

(** Modelled from the spec: the [ContentType] enum of
    [music_assistant/common/models/enums.py] is not part of the sources at
    hand; the variants are those the data model and the code name. *)
Inductive ContentType :=
| PCM_S16LE | PCM_S24LE | PCM_S32LE | PCM
| FLAC | MP3 | AAC | WAV
| OtherType (value : string).

Definition ContentType_eqb (a b : ContentType) : bool :=
  match a, b with
  | PCM_S16LE, PCM_S16LE | PCM_S24LE, PCM_S24LE | PCM_S32LE, PCM_S32LE
  | PCM, PCM | FLAC, FLAC | MP3, MP3 | AAC, AAC | WAV, WAV => true
  | OtherType x, OtherType y => String.eqb x y
  | _, _ => false
  end.

Record AudioFormat := {
  content_type : ContentType;
  sample_rate : Z;
  bit_depth : Z;
  channels : Z;
  output_format_str : string;
}.

(** [int(sample_rate * (bit_depth / 8) * 2)], as [get_flow_stream]
    computes it. *)
Definition flow_pcm_sample_size (pcm_format : AudioFormat) : Z :=
  int_div (sample_rate pcm_format * bit_depth pcm_format * 2) 8.

(** Python [a / b] on ints. *)
Definition true_div (a b : Z) : exn + Q :=
  if b =? 0 then inl ZeroDivisionError
  else inr (Qdiv (inject_Z a) (inject_Z b)).

(** ** Queue items and stream details *)

Record StreamDetails := {
  uri : string;
  stream_title : option string;
}.

Record QueueItem := {
  queue_item_id : string;
  name : string;
  streamdetails : option StreamDetails;
}.

(** ** The flow stream generator, [StreamsController.get_flow_stream] *)

Module Flow.

(** What the generator does, in order.  Info and debug log lines are left
    out; the two warnings and the two writes to the current item's
    [streamdetails] are kept. *)
Inductive event :=
| Yield (chunk : bytes)
| LogWarning (msg : string) (arg : string)
| SetSecondsSkipped (item : string) (seconds : Z)
| SetSecondsStreamed (item : string) (seconds : Q).

(** The chunks a trace yields, and their total size. *)
Definition yielded (evs : list event) : list bytes :=
  omap (fun ev => match ev with Yield c => Some c | _ => None end) evs.

Definition bytes_yielded (evs : list event) : Z := total_len (yielded evs).

(** The values a trace stores in [streamdetails.seconds_streamed], with the
    item each one is stored for. *)
Definition seconds_streamed_writes (evs : list event) : list (string * Q) :=
  omap (fun ev =>
          match ev with
          | SetSecondsStreamed item seconds => Some (item, seconds)
          | _ => None
          end) evs.

(** Whether a trace reports a track as a stream error. *)
Definition is_stream_error (ev : event) : bool :=
  match ev with
  | LogWarning msg _ => String.eqb msg "Stream error on %s"
  | _ => false
  end.

Definition has_stream_error (evs : list event) : bool :=
  existsb is_stream_error evs.

(** The local variables a track's chunk loop updates. *)
Record track_state := {
  last_fadeout_part : bytes;
  buffer : bytes;
  bytes_written : Z;
}.

(** How the handling of one track ends: the [while] loop goes on with the
    next item, or an exception leaves the generator. *)
Inductive track_end :=
| Next (fadeout : bytes) (written : Z)
| Raise (e : exn).

Section Generator.

(** The collaborators of the generator: the crossfade helper and the
    provider contract of [music_assistant/server/helpers/audio.py], and
    [ContentType.is_pcm]. *)
Variable crossfade_pcm_parts : bytes -> bytes -> Z -> Z -> bytes.
Variable get_stream_details : QueueItem -> exn + StreamDetails.
Variable get_media_stream :
  StreamDetails -> AudioFormat -> Z -> bool -> bool -> list bytes.
Variable is_pcm : ContentType -> bool.

(** Arguments and configuration that stay fixed during one run. *)
Variable pcm_format : AudioFormat.
(** [get_raw_player_config_value(queue_id, CONF_CROSSFADE_DURATION, 8)]:
    the stored value, if any. *)
Variable crossfade_duration_conf : option Z.

Definition pcm_sample_size : Z := flow_pcm_sample_size pcm_format.
Definition crossfade_duration : Z := default 8 crossfade_duration_conf.
Definition crossfade_size : Z := pcm_sample_size * crossfade_duration.
Definition buffer_size (use_crossfade : bool) : Z :=
  if use_crossfade then crossfade_size else pcm_sample_size * 2.

(** The body of [async for chunk in get_media_stream(...)]: the chunks
    yielded while handling [chunk], and the updated locals. *)
Definition on_chunk (use_crossfade : bool) (st : track_state) (chunk : bytes)
  : list bytes * track_state :=
  if truthy (last_fadeout_part st)
     && (buffer_size use_crossfade <=? len (buffer st)) then
    (* buffer full for crossfade *)
    let first_part := buffer st ++ chunk in
    let fadein_part := slice_to first_part crossfade_size in
    let remaining_bytes := slice_from first_part crossfade_size in
    let crossfade_part :=
      crossfade_pcm_parts fadein_part (last_fadeout_part st)
        (bit_depth pcm_format) (sample_rate pcm_format) in
    if truthy remaining_bytes then
      ([crossfade_part; remaining_bytes],
       {| last_fadeout_part := [];
          buffer := [];
          bytes_written :=
            bytes_written st + len crossfade_part + len remaining_bytes |})
    else
      ([crossfade_part],
       {| last_fadeout_part := [];
          buffer := [];
          bytes_written := bytes_written st + len crossfade_part |})
  else if buffer_size use_crossfade * 2 <=? len (buffer st) then
    (* enough data in buffer, feed to output *)
    ([slice_to (buffer st) (buffer_size use_crossfade)],
     {| last_fadeout_part := last_fadeout_part st;
        buffer := slice_from (buffer st) (buffer_size use_crossfade) ++ chunk;
        bytes_written := bytes_written st + buffer_size use_crossfade |})
  else
    (* all other: fill buffer *)
    ([],
     {| last_fadeout_part := last_fadeout_part st;
        buffer := buffer st ++ chunk;
        bytes_written := bytes_written st |}).

Fixpoint media_loop (use_crossfade : bool) (st : track_state)
    (chunks : list bytes) : list bytes * track_state :=
  match chunks with
  | [] => ([], st)
  | chunk :: more =>
      let '(out, st1) := on_chunk use_crossfade st chunk in
      let '(outs, st2) := media_loop use_crossfade st1 more in
      (out ++ outs, st2)
  end.

(** The code after the chunk loop, "HANDLE END OF TRACK". *)
Definition end_of_track (item : QueueItem) (sd : StreamDetails)
    (use_crossfade : bool) (st : track_state) : list event * track_end :=
  if bytes_written st =? 0 then
    (* stream error: got empty first chunk ?! *)
    ([LogWarning "Stream error on %s" (uri sd);
      SetSecondsStreamed (queue_item_id item) (inject_Z 0)],
     Next (last_fadeout_part st) 0)
  else
    let '(out, fadeout, written) :=
      if truthy (buffer st) && use_crossfade then
        let remaining_bytes := slice_to (buffer st) (- crossfade_size) in
        ([Yield remaining_bytes],
         slice_from (buffer st) (- crossfade_size),
         bytes_written st + len remaining_bytes)
      else if truthy (buffer st) then
        ([Yield (buffer st)], last_fadeout_part st,
         bytes_written st + len (buffer st))
      else ([], last_fadeout_part st, bytes_written st) in
    match true_div written pcm_sample_size with
    | inl e => (out, Raise e)
    | inr seconds =>
        (out ++ [SetSecondsStreamed (queue_item_id item) seconds],
         Next fadeout written)
    end.

(** One pass through the body of [while True], from "get streamdetails"
    on, for an item whose stream details were found. *)
Definition stream_track (item : QueueItem) (sd : StreamDetails)
    (use_crossfade : bool) (seek_position : Z) (fade_in : bool)
    (fadeout : bytes) : list event * track_end :=
  let chunks :=
    get_media_stream sd pcm_format seek_position fade_in (truthy fadeout) in
  let '(out, st) :=
    media_loop use_crossfade
      {| last_fadeout_part := fadeout; buffer := []; bytes_written := 0 |}
      chunks in
  let '(evs, fin) := end_of_track item sd use_crossfade st in
  (SetSecondsSkipped (queue_item_id item) seek_position
     :: map Yield out ++ evs, fin).

(** The [while True] loop.  [items] is the item to stream now followed by
    the successive answers of [preload_next_url], each with its
    [use_crossfade]; when the list is used up [preload_next_url] raises
    [QueueEmpty] and the loop is left.  The result is the trace, the
    exception that left the generator if there is one, and the final
    values of [last_fadeout_part] and [total_bytes_written]. *)
Fixpoint flow_loop (items : list (QueueItem * bool)) (seek_position : Z)
    (fade_in : bool) (fadeout : bytes) (total_bytes_written : Z)
  : list event * option exn * (bytes * Z) :=
  match items with
  | [] => ([], None, (fadeout, total_bytes_written))
  | (queue_track, use_crossfade) :: more =>
      match get_stream_details queue_track with
      | inl MediaNotFoundError =>
          (* skip to next track instead of bailing out *)
          let '(evs, res, fin) :=
            flow_loop more 0 false fadeout total_bytes_written in
          (LogWarning "Skip track %s due to missing streamdetails"
             (name queue_track) :: evs, res, fin)
      | inl e => ([], Some e, (fadeout, total_bytes_written))
      | inr sd =>
          match stream_track queue_track sd use_crossfade seek_position
                  fade_in fadeout with
          | (evs, Raise e) => (evs, Some e, (fadeout, total_bytes_written))
          | (evs, Next fadeout' written) =>
              let '(evs', res, fin) :=
                flow_loop more 0 false fadeout'
                  (total_bytes_written + written) in
              (evs ++ evs', res, fin)
          end
      end
  end.

(** [get_flow_stream(queue, start_queue_item, pcm_format, seek_position,
    fade_in)]; [crossfade_enabled] is [queue.crossfade_enabled] and
    [upcoming] the answers [preload_next_url] will give. *)
Definition get_flow_stream (crossfade_enabled : bool)
    (start_queue_item : QueueItem) (upcoming : list (QueueItem * bool))
    (seek_position : Z) (fade_in : bool)
  : list event * option exn * (bytes * Z) :=
  if is_pcm (content_type pcm_format) then
    flow_loop ((start_queue_item, crossfade_enabled) :: upcoming)
      seek_position fade_in [] 0
  else ([], Some AssertionError, ([], 0)).

End Generator.

End Flow.

(** ** Output format negotiation: [parse_pcm_info] and
    [StreamsController._get_output_format] *)

Module Format.

(** *** The Python string operations [parse_pcm_info] uses *)

(** [sub in s] for a one-character [sub]. *)
Fixpoint contains_char (c : ascii) (s : string) : bool :=
  match s with
  | EmptyString => false
  | String d rest => Ascii.eqb d c || contains_char c rest
  end.

(** [s.replace(old, new)] for one-character [old] and [new]. *)
Fixpoint replace_char (old new : ascii) (s : string) : string :=
  match s with
  | EmptyString => EmptyString
  | String d rest =>
      String (if Ascii.eqb d old then new else d) (replace_char old new rest)
  end.

(** [s.split(sep)] for a one-character [sep]. *)
Fixpoint split_on (sep : ascii) (s : string) : list string :=
  match s with
  | EmptyString => [EmptyString]
  | String d rest =>
      if Ascii.eqb d sep then EmptyString :: split_on sep rest
      else
        match split_on sep rest with
        | [] => [String d EmptyString]
        | word :: words => String d word :: words
        end
  end.

(** [s.split(sep, 1)] when it has two parts; [None] when [sep] does not
    occur in [s]. *)
Fixpoint split_first (sep : ascii) (s : string) : option (string * string) :=
  match s with
  | EmptyString => None
  | String d rest =>
      if Ascii.eqb d sep then Some (EmptyString, rest)
      else
        match split_first sep rest with
        | Some (before, after) => Some (String d before, after)
        | None => None
        end
  end.

Definition is_empty (s : string) : bool :=
  match s with EmptyString => true | _ => false end.

(** *** [int(str)]

    A Python [str] is held here as its UTF-8 bytes.  CPython reads an
    ASCII [str] as it stands ([PyLong_FromString]): optional white space
    around an optional sign and decimal digits, single underscores allowed
    between digits, at most 4300 digits; anything else raises
    [ValueError].  A [str] that is not ASCII is first rewritten
    ([_PyUnicode_TransformDecimalAndSpaceToASCII]: Unicode white space
    becomes a space, a Unicode decimal digit its ASCII digit, and the text
    ends in a question mark at the first other character from U+007F on);
    that rewriting depends on the interpreter's Unicode tables and is the
    parameter [to_ascii] of [py_int]. *)

(** [Py_ISSPACE]: tab, line feed, vertical tab, form feed, carriage return
    and space. *)
Definition is_space (c : ascii) : bool :=
  let n := nat_of_ascii c in
  ((9 <=? n) && (n <=? 13) || (n =? 32))%nat.

(** [PyUnicode_IS_ASCII]: every character is below U+0080. *)
Definition is_ascii (s : string) : bool :=
  forallb (fun c => (nat_of_ascii c <? 128)%nat) (list_ascii_of_string s).

Fixpoint lstrip (cs : list ascii) : list ascii :=
  match cs with
  | c :: rest => if is_space c then lstrip rest else cs
  | [] => []
  end.

Definition strip (cs : list ascii) : list ascii :=
  rev (lstrip (rev (lstrip cs))).

Definition digit_of (c : ascii) : option Z :=
  let n := Z.of_nat (nat_of_ascii c) in
  if (48 <=? n) && (n <=? 57) then Some (n - 48) else None.

(** The digits after the sign; [after_digit] tells whether the character
    before was a digit, [count] how many digits were read. *)
Fixpoint parse_digits (acc : Z) (count : nat) (after_digit : bool)
    (cs : list ascii) : option Z :=
  match cs with
  | [] => if after_digit && (count <=? 4300)%nat then Some acc else None
  | c :: rest =>
      match digit_of c with
      | Some d => parse_digits (acc * 10 + d) (S count) true rest
      | None =>
          if Ascii.eqb c "_" && after_digit
          then parse_digits acc count false rest
          else None
      end
  end.

Definition py_int (to_ascii : string -> string) (s : string) : exn + Z :=
  let text := if is_ascii s then s else to_ascii s in
  let parsed :=
    match strip (list_ascii_of_string text) with
    | "-"%char :: digits => Z.opp <$> parse_digits 0 0 false digits
    | "+"%char :: digits => parse_digits 0 0 false digits
    | digits => parse_digits 0 0 false digits
    end in
  match parsed with
  | Some n => inr n
  | None => inl ValueError
  end.

(** *** Players *)

Record Player := {
  player_id : string;
  max_sample_rate : Z;
  supports_24bit : bool;
}.

(** Modelled from the spec: the configuration key of the per-player
    [output_channels] value, [CONF_OUTPUT_CHANNELS] of
    [music_assistant/constants.py]. *)
Definition CONF_OUTPUT_CHANNELS : string := "output_channels".

Section Negotiation.

(** The rewriting [int] applies to a [str] that is not ASCII. *)
Variable to_ascii : string -> string.

(** [urllib.parse.unquote], the percent-decoding applied to names and
    values by [parse_qsl]. *)
Variable unquote : string -> string.

(** [ContentType.try_parse], [ContentType.is_pcm] and
    [ContentType.from_bit_depth] of [music_assistant/common/models/enums.py],
    and [mass.config.get_player_config_value(player_id, key)]. *)
Variable try_parse : string -> ContentType.
Variable is_pcm : ContentType -> bool.
Variable from_bit_depth : Z -> ContentType.
Variable get_player_config_value : string -> string -> string.

(** [urllib.parse.parse_qsl(qs)] with its default arguments: the fields
    are separated by [&]; a field that is empty, has no [=] or has an empty
    value is dropped; [+] stands for a space. *)
Definition parse_qsl (qs : string) : list (string * string) :=
  omap (fun name_value =>
          if is_empty name_value then None
          else
            match split_first "=" name_value with
            | None => None
            | Some (name, value) =>
                if is_empty value then None
                else Some (unquote (replace_char "+" " " name),
                           unquote (replace_char "+" " " value))
            end)
       (split_on "&" qs).

(** [dict(pairs)]: a later pair replaces an earlier one with the same
    key. *)
Definition py_dict (pairs : list (string * string)) : gmap string string :=
  fold_left (fun d kv => <[kv.1 := kv.2]> d) pairs ∅.

(** The [params] of [parse_pcm_info]. *)
Definition pcm_params (content_type : string) : gmap string string :=
  if contains_char ";" content_type
  then py_dict (parse_qsl (replace_char ";" "&" content_type))
  else ∅.

(** [int(params.get(key, default))] *)
Definition int_param (params : gmap string string) (key : string)
    (default : Z) : exn + Z :=
  match params !! key with
  | Some value => py_int to_ascii value
  | None => inr default
  end.

Definition parse_pcm_info (content_type : string) : exn + (Z * Z * Z) :=
  let params := pcm_params content_type in
  let* sample_rate := int_param params "rate" 44100 in
  let* sample_size := int_param params "bitrate" 16 in
  let* channels := int_param params "channels" 2 in
  inr (sample_rate, sample_size, channels).

Definition _get_output_format (output_format_str : string)
    (queue_player : Player) (default_sample_rate default_bit_depth : Z)
  : exn + AudioFormat :=
  let content_type := try_parse output_format_str in
  if is_pcm content_type || ContentType_eqb content_type WAV then
    (* parse pcm details from format string *)
    let* (output_sample_rate, output_bit_depth, output_channels) :=
      parse_pcm_info output_format_str in
    let content_type :=
      if ContentType_eqb content_type PCM
      then from_bit_depth output_bit_depth (* resolve generic pcm type *)
      else content_type in
    inr {| content_type := content_type;
           sample_rate := output_sample_rate;
           bit_depth := output_bit_depth;
           channels := output_channels;
           output_format_str := output_format_str |}
  else
    let output_sample_rate :=
      Z.min default_sample_rate (max_sample_rate queue_player) in
    let player_max_bit_depth :=
      if supports_24bit queue_player then 32 else 16 in
    let output_bit_depth := Z.min default_bit_depth player_max_bit_depth in
    let output_channels_str :=
      get_player_config_value (player_id queue_player) CONF_OUTPUT_CHANNELS in
    let output_channels :=
      if String.eqb output_channels_str "stereo" then 2 else 1 in
    inr {| content_type := content_type;
           sample_rate := output_sample_rate;
           bit_depth := output_bit_depth;
           channels := output_channels;
           output_format_str := output_format_str |}.

End Negotiation.

End Format.

(** ** The flow endpoint's response: headers and ICY metadata,
    [StreamsController.serve_queue_flow_stream] *)

Module Icy.

Definition DEFAULT_STREAM_HEADERS : list (string * string) :=
  [("transferMode.dlna.org", "Streaming");
   ("contentFeatures.dlna.org",
    "DLNA.ORG_OP=00;DLNA.ORG_CI=0;DLNA.ORG_FLAGS=0d500000000000000000000000000000");
   ("Cache-Control", "no-cache");
   ("Connection", "close");
   ("icy-name", "Music Assistant");
   ("icy-pub", "0")].

(** [str.encode()]: a Python string is held here as its UTF-8 bytes. *)
Definition encode (s : string) : bytes := list_byte_of_string s.

Definition byte_of (n : Z) : byte :=
  match Byte.of_N (Z.to_N n) with
  | Some b => b
  | None => x00
  end.

(** [chr(n).encode()]: the UTF-8 encoding of the code point [n]. *)
Definition chr_encode (n : Z) : exn + bytes :=
  if (n <? 0) || (1114111 <? n) then inl ValueError
  else if n <? 128 then inr [byte_of n]
  else if n <? 2048 then
    inr [byte_of (192 + n / 64); byte_of (128 + n mod 64)]
  else if (55296 <=? n) && (n <=? 57343) then inl UnicodeEncodeError
  else if n <? 65536 then
    inr [byte_of (224 + n / 4096); byte_of (128 + (n / 64) mod 64);
         byte_of (128 + n mod 64)]
  else
    inr [byte_of (240 + n / 262144); byte_of (128 + (n / 4096) mod 64);
         byte_of (128 + (n / 64) mod 64); byte_of (128 + n mod 64)].

(** [while len(metadata) % 16 != 0: metadata += b"\x00"]; the loop ends
    within 15 rounds. *)
Fixpoint pad_loop (rounds : nat) (metadata : bytes) : bytes :=
  match rounds with
  | O => metadata
  | S rounds' =>
      if len metadata mod 16 =? 0 then metadata
      else pad_loop rounds' (metadata ++ [x00])
  end.

Definition pad16 (metadata : bytes) : bytes := pad_loop 15 metadata.

Definition nonempty (s : string) : option string :=
  match s with
  | EmptyString => None
  | _ => Some s
  end.

(** The title: the current item's [streamdetails.stream_title], else the
    item's name, else "Music Assistant"; a missing object and an empty
    string are both falsy. *)
Definition icy_title (current_item : option QueueItem) : string :=
  let stream_title_of :=
    item ← current_item; sd ← streamdetails item;
    title ← stream_title sd; nonempty title in
  let name_of := item ← current_item; nonempty (name item) in
  match stream_title_of, name_of with
  | Some title, _ => title
  | None, Some name => name
  | None, None => "Music Assistant"
  end.

(** [length_b + metadata], what is written after a chunk. *)
Definition icy_block (current_item : option QueueItem) : exn + bytes :=
  let title := icy_title current_item in
  let metadata := pad16 (encode ("StreamTitle='" +:+ title +:+ "';")) in
  let length := len metadata in
  let* length_b := chr_encode (int_div length 16) in
  inr (length_b ++ metadata).

(** One round of the relay loop: a chunk read from the transcoder, whether
    writing it to the response succeeds ([BrokenPipeError] and
    [ConnectionResetError] leave the loop), and the queue's current item at
    that time. *)
Record round := {
  chunk : bytes;
  write_ok : bool;
  current_item : option QueueItem;
}.

Section Endpoint.

(** [ContentType.is_lossless] of
    [music_assistant/common/models/enums.py]. *)
Variable is_lossless : ContentType -> bool.

(** [request.headers.get("Icy-MetaData", "") == "1"] *)
Definition enable_icy (icy_metadata_header : option string) : bool :=
  String.eqb (default "" icy_metadata_header) "1".

Definition icy_meta_interval (output_format : AudioFormat) : Z :=
  if is_lossless (content_type output_format) then 65536 else 8192.

Definition response_headers (output_format : AudioFormat)
    (icy_metadata_header : option string) : list (string * string) :=
  DEFAULT_STREAM_HEADERS
    ++ [("Content-Type", "audio/" +:+ output_format_str output_format)]
    ++ (if enable_icy icy_metadata_header
        then [("icy-metaint", pretty (icy_meta_interval output_format))]
        else []).

(** The relay loop: what is written to the response, and the exception
    that ends the handler if there is one.  With ICY enabled [rounds] are
    the chunks of [iter_chunked(icy_meta_interval)]. *)
Fixpoint relay (icy : bool) (rounds : list round) : list bytes * option exn :=
  match rounds with
  | [] => ([], None)
  | r :: more =>
      if negb (write_ok r) then ([], None)
      else if negb icy then
        let '(written, res) := relay icy more in (chunk r :: written, res)
      else
        match icy_block (current_item r) with
        | inl e => ([chunk r], Some e)
        | inr block =>
            let '(written, res) := relay icy more in
            (chunk r :: block :: written, res)
        end
  end.

End Endpoint.

End Icy.

(** ** [MultiClientStreamJob] *)

Module Job.

(** Modelled from the spec: [AudioFormat.pcm_sample_size], a property of
    [music_assistant/common/models/media_items.py]; "PCM sample size in
    bytes = sample_rate x (bit_depth/8) x channels". *)
Definition pcm_sample_size (fmt : AudioFormat) : Z :=
  int_div (sample_rate fmt * bit_depth fmt * channels fmt) 8.

(** Where the generator of one [subscribe(player_id)] call stands: in its
    [while True] loop, in its [finally] block after the [pop] (asleep for
    two seconds), or finished. *)
Inductive sub_phase := Reading | Leaving | Gone.

(** One call of [subscribe(player_id)]: the [asyncio.Queue(2)] it made
    (oldest chunk first) and the chunks its generator has yielded.
    [sub_joined] is bookkeeping of the model: how many calls of
    [_put_chunk] had started when the call registered its queue. *)
Record subscription := {
  sub_player : string;
  sub_queue : list bytes;
  sub_yielded : list bytes;
  sub_phase_of : sub_phase;
  sub_joined : nat;
}.

(** The producer task [_audio_task] running [_stream_job_runner]. *)
Inductive task :=
| Fetching (source : list bytes) (chunk_num : nat)
    (* at [async for chunk in get_flow_stream(...)]; [source] is what the
       flow stream still has to yield *)
| WaitingForClients (timeout : Z) (chunk : bytes) (source : list bytes)
    (* at [await self._all_clients_connected.wait()] under
       [asyncio.timeout(timeout)], holding chunk 0 *)
| Putting (chunk : bytes) (pending : list nat)
    (next : option (list bytes * nat))
    (* inside [_put_chunk(chunk)]: the queues whose [put] has not returned
       yet; [next] is the loop state to go back to, [None] for the put of
       the EOF chunk after the loop *)
| TaskDone
| TaskCancelled.

(** The job.  The queue objects live in [subscriptions], indexed in the
    order of the [subscribe] calls; [subscribed_players] maps a player id
    to the index of the queue registered for it.  [produced] is bookkeeping
    of the model: the chunks [_put_chunk] was called with, in order. *)
Record job := {
  queue_id : string;
  job_id : string;
  pcm_format : AudioFormat;
  expected_players : gset string;
  subscribed_players : gmap string nat;
  bytes_streamed : Z;
  client_seconds_skipped : gmap string Q;
  _all_clients_connected : bool;
  _audio_task : task;
  _finished : bool;
  subscriptions : list subscription;
  produced : list bytes;
}.

(** [MultiClientStreamJob.__init__]; [source] is the flow stream the
    producer task will read. *)
Definition new_job (queue_id job_id : string) (pcm_format : AudioFormat)
    (source : list bytes) : job :=
  {| queue_id := queue_id; job_id := job_id; pcm_format := pcm_format;
     expected_players := ∅; subscribed_players := ∅; bytes_streamed := 0;
     client_seconds_skipped := ∅; _all_clients_connected := false;
     _audio_task := Fetching source 0; _finished := false;
     subscriptions := []; produced := [] |}.

(** *** Field updates *)

Definition set_expected_players (v : gset string) (j : job) : job :=
  {| queue_id := queue_id j; job_id := job_id j; pcm_format := pcm_format j;
     expected_players := v; subscribed_players := subscribed_players j;
     bytes_streamed := bytes_streamed j;
     client_seconds_skipped := client_seconds_skipped j;
     _all_clients_connected := _all_clients_connected j;
     _audio_task := _audio_task j; _finished := _finished j;
     subscriptions := subscriptions j; produced := produced j |}.

Definition set_subscribed_players (v : gmap string nat) (j : job) : job :=
  {| queue_id := queue_id j; job_id := job_id j; pcm_format := pcm_format j;
     expected_players := expected_players j; subscribed_players := v;
     bytes_streamed := bytes_streamed j;
     client_seconds_skipped := client_seconds_skipped j;
     _all_clients_connected := _all_clients_connected j;
     _audio_task := _audio_task j; _finished := _finished j;
     subscriptions := subscriptions j; produced := produced j |}.

Definition set_bytes_streamed (v : Z) (j : job) : job :=
  {| queue_id := queue_id j; job_id := job_id j; pcm_format := pcm_format j;
     expected_players := expected_players j;
     subscribed_players := subscribed_players j; bytes_streamed := v;
     client_seconds_skipped := client_seconds_skipped j;
     _all_clients_connected := _all_clients_connected j;
     _audio_task := _audio_task j; _finished := _finished j;
     subscriptions := subscriptions j; produced := produced j |}.

Definition set_client_seconds_skipped (v : gmap string Q) (j : job) : job :=
  {| queue_id := queue_id j; job_id := job_id j; pcm_format := pcm_format j;
     expected_players := expected_players j;
     subscribed_players := subscribed_players j;
     bytes_streamed := bytes_streamed j; client_seconds_skipped := v;
     _all_clients_connected := _all_clients_connected j;
     _audio_task := _audio_task j; _finished := _finished j;
     subscriptions := subscriptions j; produced := produced j |}.

Definition set_all_clients_connected (v : bool) (j : job) : job :=
  {| queue_id := queue_id j; job_id := job_id j; pcm_format := pcm_format j;
     expected_players := expected_players j;
     subscribed_players := subscribed_players j;
     bytes_streamed := bytes_streamed j;
     client_seconds_skipped := client_seconds_skipped j;
     _all_clients_connected := v;
     _audio_task := _audio_task j; _finished := _finished j;
     subscriptions := subscriptions j; produced := produced j |}.

Definition set_audio_task (v : task) (j : job) : job :=
  {| queue_id := queue_id j; job_id := job_id j; pcm_format := pcm_format j;
     expected_players := expected_players j;
     subscribed_players := subscribed_players j;
     bytes_streamed := bytes_streamed j;
     client_seconds_skipped := client_seconds_skipped j;
     _all_clients_connected := _all_clients_connected j;
     _audio_task := v; _finished := _finished j;
     subscriptions := subscriptions j; produced := produced j |}.

Definition set_finished (v : bool) (j : job) : job :=
  {| queue_id := queue_id j; job_id := job_id j; pcm_format := pcm_format j;
     expected_players := expected_players j;
     subscribed_players := subscribed_players j;
     bytes_streamed := bytes_streamed j;
     client_seconds_skipped := client_seconds_skipped j;
     _all_clients_connected := _all_clients_connected j;
     _audio_task := _audio_task j; _finished := v;
     subscriptions := subscriptions j; produced := produced j |}.

Definition set_subscriptions (v : list subscription) (j : job) : job :=
  {| queue_id := queue_id j; job_id := job_id j; pcm_format := pcm_format j;
     expected_players := expected_players j;
     subscribed_players := subscribed_players j;
     bytes_streamed := bytes_streamed j;
     client_seconds_skipped := client_seconds_skipped j;
     _all_clients_connected := _all_clients_connected j;
     _audio_task := _audio_task j; _finished := _finished j;
     subscriptions := v; produced := produced j |}.

Definition set_produced (v : list bytes) (j : job) : job :=
  {| queue_id := queue_id j; job_id := job_id j; pcm_format := pcm_format j;
     expected_players := expected_players j;
     subscribed_players := subscribed_players j;
     bytes_streamed := bytes_streamed j;
     client_seconds_skipped := client_seconds_skipped j;
     _all_clients_connected := _all_clients_connected j;
     _audio_task := _audio_task j; _finished := _finished j;
     subscriptions := subscriptions j; produced := v |}.

Definition set_sub_queue (v : list bytes) (s : subscription) : subscription :=
  {| sub_player := sub_player s; sub_queue := v;
     sub_yielded := sub_yielded s; sub_phase_of := sub_phase_of s;
     sub_joined := sub_joined s |}.

Definition set_sub_yielded (v : list bytes) (s : subscription) : subscription :=
  {| sub_player := sub_player s; sub_queue := sub_queue s;
     sub_yielded := v; sub_phase_of := sub_phase_of s;
     sub_joined := sub_joined s |}.

Definition set_sub_phase (v : sub_phase) (s : subscription) : subscription :=
  {| sub_player := sub_player s; sub_queue := sub_queue s;
     sub_yielded := sub_yielded s; sub_phase_of := v;
     sub_joined := sub_joined s |}.

(** *** Properties and [stop] *)

(** [self._audio_task.done()] *)
Definition task_done (t : task) : bool :=
  match t with
  | TaskDone | TaskCancelled => true
  | _ => false
  end.

Definition finished (j : job) : bool :=
  _finished j || task_done (_audio_task j).

Definition pending (j : job) : bool :=
  negb (finished j) && negb (_all_clients_connected j).

Definition running (j : job) : bool :=
  negb (finished j) && negb (pending j).

(** [list(self.subscribed_players.values())] *)
Definition subscribed_queues (j : job) : list nat :=
  (map_to_list (subscribed_players j)).*2.

(** [with suppress(asyncio.QueueFull): sub_queue.put_nowait(chunk)] on a
    queue of capacity 2. *)
Definition put_nowait (chunk : bytes) (s : subscription) : subscription :=
  if (length (sub_queue s) <? 2)%nat
  then set_sub_queue (sub_queue s ++ [chunk]) s
  else s.

(** [self._audio_task.cancel()]; the cancellation is taken to be delivered
    at once. *)
Definition cancel_task (j : job) : job :=
  if task_done (_audio_task j) then j else set_audio_task TaskCancelled j.

Definition stop (j : job) : job :=
  let j := set_finished true j in
  if task_done (_audio_task j) then j
  else
    let j := cancel_task j in
    set_subscriptions
      (foldr (fun k subs => alter (put_nowait []) k subs)
         (subscriptions j) (subscribed_queues j))
      j.

(** [resolve_stream_url(child_player_id)], as far as the job's state
    goes. *)
Definition resolve_stream_url (child_player_id : string) (j : job) : job :=
  set_expected_players ({[child_player_id]} ∪ expected_players j) j.

(** *** [subscribe] *)

(** The [finally] block up to its [sleep]: the player's entry is popped,
    whichever queue it holds. *)
Definition leave (k : nat) (j : job) : job :=
  match subscriptions j !! k with
  | Some s =>
      set_subscribed_players (delete (sub_player s) (subscribed_players j))
        (set_subscriptions (alter (set_sub_phase Leaving) k (subscriptions j))
           j)
  | None => j
  end.

(** [subscribe(player_id)] up to its first [await sub_queue.get()]. *)
Definition subscribe (player_id : string) (j : job) : job :=
  let k := length (subscriptions j) in
  let sub :=
    {| sub_player := player_id; sub_queue := []; sub_yielded := [];
       sub_phase_of := Reading; sub_joined := length (produced j) |} in
  let j :=
    set_subscriptions (subscriptions j ++ [sub])
      (set_subscribed_players (<[player_id := k]> (subscribed_players j)) j) in
  let skipped :=
    if _all_clients_connected j then
      (* client subscribes while we're already started *)
      let* seconds :=
        true_div (bytes_streamed j) (pcm_sample_size (pcm_format j)) in
      inr (set_client_seconds_skipped
             (<[player_id := seconds]> (client_seconds_skipped j)) j)
    else inr j in
  match skipped with
  | inl _ => leave k j
  | inr j =>
      if bool_decide (size (subscribed_players j) = size (expected_players j))
      then set_all_clients_connected true j
      else j
  end.

(** [await sub_queue.get()] returns for subscription [k]: an empty chunk
    ends the loop, any other chunk is yielded. *)
Definition get (k : nat) (j : job) : option job :=
  s ← subscriptions j !! k;
  match sub_phase_of s, sub_queue s with
  | Reading, chunk :: rest =>
      let j :=
        set_subscriptions
          (<[k := set_sub_queue rest s]> (subscriptions j)) j in
      if truthy chunk then
        Some (set_subscriptions
                (alter (set_sub_yielded (sub_yielded s ++ [chunk])) k
                   (subscriptions j)) j)
      else Some (leave k j)
  | _, _ => None
  end.

(** The reader closes the generator of subscription [k]. *)
Definition close (k : nat) (j : job) : option job :=
  s ← subscriptions j !! k;
  match sub_phase_of s with
  | Reading => Some (leave k j)
  | _ => None
  end.

(** The end of the [finally] block of subscription [k], after
    [asyncio.sleep(2)]. *)
Definition grace (k : nat) (j : job) : option job :=
  s ← subscriptions j !! k;
  match sub_phase_of s with
  | Leaving =>
      let j :=
        set_subscriptions (alter (set_sub_phase Gone) k (subscriptions j)) j in
      if bool_decide (size (subscribed_players j) = 0%nat)
         && negb (finished j)
      then Some (cancel_task j)
      else Some j
  | _ => None
  end.

(** *** The producer: [_stream_job_runner] and [_put_chunk] *)

(** [_put_chunk(chunk)] starts: one [put] task per queue registered now. *)
Definition begin_put (chunk : bytes) (next : option (list bytes * nat))
    (j : job) : job :=
  set_produced (produced j ++ [chunk])
    (set_audio_task (Putting chunk (subscribed_queues j) next) j).

(** The runner asks the flow stream for the next chunk. *)
Definition fetch (j : job) : option job :=
  match _audio_task j with
  | Fetching [] _ =>
      (* mark EOF with empty chunk *)
      Some (begin_put [] None j)
  | Fetching (chunk :: source) O =>
      (* wait until all expected clients are connected *)
      Some (set_audio_task (WaitingForClients 10 chunk source) j)
  | Fetching (chunk :: source) (S n) =>
      Some (begin_put chunk (Some (source, S n)) j)
  | _ => None
  end.

(** [self._all_clients_connected.wait()] returns. *)
Definition all_connected (j : job) : option job :=
  match _audio_task j with
  | WaitingForClients _ chunk source =>
      if _all_clients_connected j
      then Some (begin_put chunk (Some (source, O)) j)
      else None
  | _ => None
  end.

(** The wait ends in [TimeoutError]. *)
Definition timeout (j : job) : option job :=
  match _audio_task j with
  | WaitingForClients _ chunk source =>
      if bool_decide (size (subscribed_players j) = 0%nat)
      then Some (begin_put [] None j) (* break, then the EOF chunk *)
      else
        (* move on with all clients that did connect *)
        Some (begin_put chunk (Some (source, O))
                (set_all_clients_connected true j))
  | _ => None
  end.

(** One [sub_queue.put(chunk)] returns: the queue had room. *)
Definition put_one (k : nat) (j : job) : option job :=
  match _audio_task j with
  | Putting chunk waiting next =>
      s ← subscriptions j !! k;
      if bool_decide (k ∈ waiting) && (length (sub_queue s) <? 2)%nat then
        Some (set_audio_task
                (Putting chunk (filter (fun i => i ≠ k) waiting) next)
                (set_subscriptions
                   (<[k := set_sub_queue (sub_queue s ++ [chunk]) s]>
                      (subscriptions j)) j))
      else None
  | _ => None
  end.

(** The task group is left: [self.bytes_streamed += len(chunk)]. *)
Definition put_done (j : job) : option job :=
  match _audio_task j with
  | Putting chunk [] next =>
      let j := set_bytes_streamed (bytes_streamed j + len chunk) j in
      match next with
      | Some (source, chunk_num) =>
          Some (set_audio_task (Fetching source (S chunk_num)) j)
      | None => Some (set_audio_task TaskDone j)
      end
  | _ => None
  end.

(** *** Runs of a job *)

(** What can happen to a job next: a call from outside, or one of its
    coroutines running up to its next suspension point. *)
Inductive label :=
| ResolveStreamUrl (child_player_id : string)
| Subscribe (player_id : string)
| Get (k : nat)
| Close (k : nat)
| Grace (k : nat)
| Fetch
| AllConnected
| Timeout
| PutOne (k : nat)
| PutDone
| Stop.

Definition step (l : label) (j : job) : option job :=
  match l with
  | ResolveStreamUrl p => Some (resolve_stream_url p j)
  | Subscribe p => Some (subscribe p j)
  | Get k => get k j
  | Close k => close k j
  | Grace k => grace k j
  | Fetch => fetch j
  | AllConnected => all_connected j
  | Timeout => timeout j
  | PutOne k => put_one k j
  | PutDone => put_done j
  | Stop => Some (stop j)
  end.

Fixpoint run (ls : list label) (j : job) : option job :=
  match ls with
  | [] => Some j
  | l :: more => j' ← step l j; run more j'
  end.

(** *** What holds of every job that was run from [new_job] *)

(** The queues the current [_put_chunk] has not reached yet. *)
Definition waiting_puts (t : task) : list nat :=
  match t with
  | Putting _ waiting _ => waiting
  | _ => []
  end.

(** Queue [k] is registered for some player. *)
Definition registered (m : gmap string nat) (k : nat) : Prop :=
  exists p, m !! p = Some k.

(** The chunks of [broadcast] a queue is concerned with so far: all of
    them, but for the last one while its [put] to that queue is still
    waiting. *)
Definition fed (broadcast : list bytes) (waiting : list nat) (k : nat)
  : list bytes :=
  if bool_decide (k ∈ waiting) then removelast broadcast else broadcast.

(** Subscription [k]: what it has yielded is a prefix of the chunks
    broadcast since it registered; while its loop runs, what it has yielded
    and what is in its queue are those chunks in order, up to some point,
    possibly followed by empty chunks of [stop]; and as long as the
    producer runs and the queue is registered or waited for, no chunk is
    missing. *)
Record sub_inv (broadcast : list bytes) (waiting : list nat) (active : bool)
    (reg : nat -> Prop) (k : nat) (s : subscription) : Prop := {
  inv_joined : (sub_joined s <= length (fed broadcast waiting k))%nat;
  inv_prefix : sub_yielded s `prefix_of` drop (sub_joined s) broadcast;
  inv_reading :
    sub_phase_of s = Reading ->
    exists got tail,
      sub_yielded s ++ sub_queue s = got ++ tail
      /\ got `prefix_of` drop (sub_joined s) (fed broadcast waiting k)
      /\ Forall (fun c => c = []) tail
      /\ Forall (fun c => c <> []) (sub_yielded s)
      /\ (active = true ->
          tail = []
          /\ (reg k \/ k ∈ waiting ->
              got = drop (sub_joined s) (fed broadcast waiting k)));
}.

Record job_inv (j : job) : Prop := {
  inv_own :
    forall p k, subscribed_players j !! p = Some k ->
      exists s, subscriptions j !! k = Some s /\ sub_player s = p;
  inv_waiting_nodup : NoDup (waiting_puts (_audio_task j));
  inv_waiting_bound :
    forall k, k ∈ waiting_puts (_audio_task j) ->
      (k < length (subscriptions j))%nat;
  inv_putting :
    forall chunk waiting next, _audio_task j = Putting chunk waiting next ->
      exists before, produced j = before ++ [chunk];
  inv_first :
    (forall source, _audio_task j = Fetching source 0 -> produced j = [])
    /\ (forall t chunk source,
          _audio_task j = WaitingForClients t chunk source ->
          t = 10 /\ produced j = []);
  inv_subs :
    forall k s, subscriptions j !! k = Some s ->
      sub_inv (produced j) (waiting_puts (_audio_task j))
        (negb (task_done (_audio_task j))) (registered (subscribed_players j))
        k s;
}.

(** *** What holds besides: the byte count and the end of the stream *)

(** [bytes_streamed] is the size of the chunks whose [_put_chunk] has
    returned: all that were broadcast, but for the one being put.  Of a
    cancelled task it is not known whether it was inside [_put_chunk]. *)
Definition streamed_inv (j : job) : Prop :=
  match _audio_task j with
  | Putting chunk _ _ =>
      exists before,
        produced j = before ++ [chunk] /\ bytes_streamed j = total_len before
  | TaskCancelled =>
      total_len (removelast (produced j)) <= bytes_streamed j
      /\ bytes_streamed j <= total_len (produced j)
  | _ => bytes_streamed j = total_len (produced j)
  end.

(** The last [_put_chunk] of the runner is the one of the empty chunk, and
    when the runner has returned every queue that is still registered and
    read has got all chunks broadcast since it was made. *)
Definition eof_inv (j : job) : Prop :=
  (forall chunk waiting,
      _audio_task j = Putting chunk waiting None -> chunk = [])
  /\ (_audio_task j = TaskDone ->
      (exists before, produced j = before ++ [[]])
      /\ forall k s,
          subscriptions j !! k = Some s ->
          sub_phase_of s = Reading ->
          registered (subscribed_players j) k ->
          sub_yielded s ++ sub_queue s = drop (sub_joined s) (produced j)).

End Job.

(** ** The job registry: [StreamsController.multi_client_jobs] and
    [create_multi_client_stream_job] *)

Module Registry.

(** The controller's jobs.  The job objects live in [jobs], in the order
    of their creation; [multi_client_jobs] maps a queue id to the index of
    the job registered for it. *)
Record controller := {
  jobs : list Job.job;
  multi_client_jobs : gmap string nat;
}.

(** [StreamsController.__init__] *)
Definition init : controller := {| jobs := []; multi_client_jobs := ∅ |}.

Section Controller.

(** [ContentType.from_bit_depth] of
    [music_assistant/common/models/enums.py]. *)
Variable from_bit_depth : Z -> ContentType.

(** hardcoded pcm quality of 48/24 for now *)
Definition job_pcm_format : AudioFormat :=
  {| content_type := from_bit_depth 24; sample_rate := 48000;
     bit_depth := 24; channels := 2; output_format_str := "" |}.

(** [create_multi_client_stream_job(queue_id, start_queue_item,
    seek_position, fade_in)].  [job_id] is the [shortuuid.uuid()] the new
    job draws, [queue_known] whether [player_queues.get(queue_id)] finds
    the queue (the job's [__init__] asserts it), [source] the flow stream
    the new job reads.  The result is the controller afterwards and the
    new job, or the exception raised. *)
Definition create_multi_client_stream_job (queue_id job_id : string)
    (queue_known : bool) (source : list bytes) (c : controller)
  : controller * (exn + nat) :=
  let c :=
    match multi_client_jobs c !! queue_id with
    | Some existing =>
        (* cleanup existing job first *)
        let popped := delete queue_id (multi_client_jobs c) in
        match jobs c !! existing with
        | Some existing_job =>
            if negb (Job.finished existing_job)
            then {| jobs := <[existing := Job.stop existing_job]> (jobs c);
                    multi_client_jobs := popped |}
            else {| jobs := jobs c; multi_client_jobs := popped |}
        | None => {| jobs := jobs c; multi_client_jobs := popped |}
        end
    | None => c
    end in
  if queue_known then
    let stream_job := length (jobs c) in
    ({| jobs := jobs c
                ++ [Job.new_job queue_id job_id job_pcm_format source];
        multi_client_jobs := <[queue_id := stream_job]> (multi_client_jobs c) |},
     inr stream_job)
  else (c, inl AssertionError).

(** What can happen to the controller's jobs: a job is created, or one of
    the jobs makes a step of its own (which includes being stopped). *)
Inductive label :=
| Create (queue_id job_id : string) (queue_known : bool) (source : list bytes)
| JobStep (job : nat) (l : Job.label).

Definition step (l : label) (c : controller) : option controller :=
  match l with
  | Create queue_id job_id queue_known source =>
      Some (create_multi_client_stream_job queue_id job_id queue_known
              source c).1
  | JobStep a l =>
      j ← jobs c !! a;
      j' ← Job.step l j;
      Some {| jobs := <[a := j']> (jobs c);
              multi_client_jobs := multi_client_jobs c |}
  end.

Fixpoint run (ls : list label) (c : controller) : option controller :=
  match ls with
  | [] => Some c
  | l :: more => c' ← step l c; run more c'
  end.

End Controller.

(** Every registered job exists and belongs to the queue it is registered
    for, and every job that is not finished is the one registered for its
    queue. *)
Record registry_inv (c : controller) : Prop := {
  inv_registered :
    forall queue_id a, multi_client_jobs c !! queue_id = Some a ->
      exists j, jobs c !! a = Some j /\ Job.queue_id j = queue_id;
  inv_unfinished :
    forall a j, jobs c !! a = Some j -> Job.finished j = false ->
      multi_client_jobs c !! Job.queue_id j = Some a;
}.

End Registry.

(** ** Stream URLs: [MultiClientStreamJob.resolve_stream_url] and
    [StreamsController.resolve_stream_url] *)

Module Resolve.
Import Format.

Definition FLOW_MAX_SAMPLE_RATE : Z := 96000.
Definition FLOW_MAX_BIT_DEPTH : Z := 24.

(** Modelled from the spec: the configuration key of the per-player
    [output_codec] value, [CONF_OUTPUT_CODEC] of
    [music_assistant/constants.py]. *)
Definition CONF_OUTPUT_CODEC : string := "output_codec".

Section Urls.

(** [ContentType(value)], [ContentType.value] and [ContentType.is_pcm] of
    [music_assistant/common/models/enums.py];
    [mass.config.get_player_config_value(player_id, key)];
    [mass.players.get(player_id)]; the web server's [base_url];
    [get_stream_details(mass, queue_item).audio_format]; and
    [urllib.parse.urlencode]. *)
Variable content_type_of : string -> exn + ContentType.
Variable value : ContentType -> string.
Variable is_pcm : ContentType -> bool.
Variable get_player_config_value : string -> string -> string.
Variable players_get : string -> option Player.
Variable base_url : string.
Variable stream_audio_format : QueueItem -> exn + AudioFormat.
Variable urlencode : list (string * string) -> string.

(** [MultiClientStreamJob.resolve_stream_url(child_player_id)]: the URL,
    and the job with the player added to [expected_players].
    [start_queue_item] is the job's attribute of that name.  An integer in
    an f-string is written in decimal ([pretty]); a player that is not
    known is [None], whose attribute access raises. *)
Definition MultiClientStreamJob_resolve_stream_url
    (start_queue_item : QueueItem) (child_player_id : string) (j : Job.job)
  : exn + (string * Job.job) :=
  let* output_codec :=
    content_type_of
      (get_player_config_value child_player_id CONF_OUTPUT_CODEC) in
  let fmt := value output_codec in
  let* fmt :=
    (* handle raw pcm *)
    if is_pcm output_codec then
      match players_get child_player_id with
      | None => inl (OtherError "AttributeError")
      | Some player =>
          let player_max_bit_depth : Z :=
            if supports_24bit player then 32 else 16 in
          let output_sample_rate :=
            Z.min (sample_rate (Job.pcm_format j)) (max_sample_rate player) in
          let output_bit_depth :=
            Z.min (bit_depth (Job.pcm_format j)) player_max_bit_depth in
          let output_channels :=
            get_player_config_value child_player_id CONF_OUTPUT_CHANNELS in
          let channels : Z :=
            if String.eqb output_channels "stereo" then 2 else 1 in
          inr (fmt +:+ ";codec=pcm;rate=" +:+ pretty output_sample_rate
                 +:+ ";bitrate=" +:+ pretty output_bit_depth
                 +:+ ";channels=" +:+ pretty channels)
      end
    else inr fmt in
  let url :=
    base_url +:+ "/" +:+ Job.queue_id j +:+ "/multi/" +:+ Job.job_id j
      +:+ "/" +:+ child_player_id +:+ "/" +:+ queue_item_id start_queue_item
      +:+ "." +:+ fmt in
  inr (url, Job.resolve_stream_url child_player_id j).

(** [StreamsController.resolve_stream_url(queue_id, queue_item,
    seek_position, fade_in, flow_mode)] *)
Definition StreamsController_resolve_stream_url (queue_id : string)
    (queue_item : QueueItem) (seek_position : Z) (fade_in flow_mode : bool)
  : exn + string :=
  let* output_codec :=
    content_type_of (get_player_config_value queue_id CONF_OUTPUT_CODEC) in
  let fmt := value output_codec in
  let* fmt :=
    (* handle raw pcm *)
    if is_pcm output_codec then
      match players_get queue_id with
      | None => inl (OtherError "AttributeError")
      | Some player =>
          let player_max_bit_depth : Z :=
            if supports_24bit player then 32 else 16 in
          let* (output_sample_rate, output_bit_depth) :=
            if flow_mode then
              inr (Z.min FLOW_MAX_SAMPLE_RATE (max_sample_rate player),
                   Z.min FLOW_MAX_BIT_DEPTH player_max_bit_depth)
            else
              let* audio_format := stream_audio_format queue_item in
              inr (Z.min (sample_rate audio_format) (max_sample_rate player),
                   Z.min (bit_depth audio_format) player_max_bit_depth) in
          let output_channels :=
            get_player_config_value queue_id CONF_OUTPUT_CHANNELS in
          let channels : Z :=
            if String.eqb output_channels "stereo" then 2 else 1 in
          inr (fmt +:+ ";codec=pcm;rate=" +:+ pretty output_sample_rate
                 +:+ ";bitrate=" +:+ pretty output_bit_depth
                 +:+ ";channels=" +:+ pretty channels)
      end
    else inr fmt in
  let base_path := if flow_mode then "flow" else "single" in
  let url :=
    base_url +:+ "/" +:+ queue_id +:+ "/" +:+ base_path +:+ "/"
      +:+ queue_item_id queue_item +:+ "." +:+ fmt in
  let query_params :=
    (if seek_position =? 0 then []
     else [("seek_position", pretty seek_position)])
      ++ (if fade_in then [("fade_in", "1")] else []) in
  match query_params with
  | [] => inr url
  | _ :: _ => inr (url +:+ "?" +:+ urlencode query_params)
  end.

End Urls.

End Resolve.

(** ** The multi-client endpoint:
    [StreamsController.serve_multi_subscriber_stream] *)

Module Serve.
Import Format Registry.

(** What the handler reads of the request: the method and the parts of
    the path matched by the route
    [/{queue_id}/multi/{job_id}/{player_id}/{queue_item_id}.{fmt}]. *)
Record request := {
  method : string;
  match_queue_id : string;
  match_job_id : string;
  match_player_id : string;
  match_fmt : string;
}.

(** How the handler goes on after its checks: [web.HTTPNotFound] is
    raised; another exception leaves the handler; the prepared response
    is returned for a [HEAD] request; or the audio is streamed, which
    starts [subscribe(player_id)] on the job.  [warned] tells whether the
    warning about multiple requests was logged. *)
Inductive served :=
| HTTPNotFound (reason : string)
| Failed (e : exn)
| HeadersOnly (headers : list (string * string))
| Streaming (headers : list (string * string)) (output_format : AudioFormat)
    (warned : bool) (job : nat) (player_id : string).

Section Endpoint.

Variable to_ascii : string -> string.
Variable unquote : string -> string.
Variable try_parse : string -> ContentType.
Variable is_pcm : ContentType -> bool.
Variable from_bit_depth : Z -> ContentType.
Variable get_player_config_value : string -> string -> string.
Variable players_get : string -> option Player.

(** The handler up to the start of the stream.  The job registered for a
    queue is looked up through its index in [jobs]. *)
Definition serve_multi_subscriber_stream (c : controller) (req : request)
  : served :=
  let queue_id := match_queue_id req in
  match a ← multi_client_jobs c !! queue_id;
        streamjob ← jobs c !! a; Some (a, streamjob) with
  | None => HTTPNotFound ("Unknown StreamJob for queue: " +:+ queue_id)
  | Some (a, streamjob) =>
      let job_id := match_job_id req in
      if negb (String.eqb job_id (Job.job_id streamjob)) then
        HTTPNotFound ("StreamJob ID " +:+ job_id +:+ " mismatch for queue: "
                        +:+ queue_id)
      else
        let child_player_id := match_player_id req in
        match players_get child_player_id with
        | None => HTTPNotFound ("Unknown player: " +:+ child_player_id)
        | Some child_player =>
            (* work out (childplayer specific!) output format/details *)
            match _get_output_format to_ascii unquote try_parse is_pcm
                    from_bit_depth
                    get_player_config_value (match_fmt req) child_player
                    (sample_rate (Job.pcm_format streamjob))
                    (bit_depth (Job.pcm_format streamjob)) with
            | inl e => Failed e
            | inr output_format =>
                let headers :=
                  Icy.DEFAULT_STREAM_HEADERS
                    ++ [("Content-Type",
                         "audio/" +:+ output_format_str output_format)] in
                (* return early if this is only a HEAD request *)
                if String.eqb (method req) "HEAD" then HeadersOnly headers
                else
                  Streaming headers output_format
                    (bool_decide
                       (is_Some
                          (Job.subscribed_players streamjob
                             !! child_player_id)))
                    a child_player_id
            end
        end
  end.

End Endpoint.

End Serve.

(** ** Sample inputs

    Small concrete collaborators and inputs on which the definitions above
    are run. *)

Module Sample.

(** One-hertz 16-bit stereo PCM: four bytes for a second of audio. *)
Definition pcm_1hz : AudioFormat :=
  {| content_type := PCM_S16LE; sample_rate := 1; bit_depth := 16;
     channels := 2; output_format_str := "pcm" |}.

(** Modelled from the spec: [ContentType.is_pcm] holds of the PCM
    variants. *)
Definition is_pcm (c : ContentType) : bool :=
  match c with
  | PCM_S16LE | PCM_S24LE | PCM_S32LE | PCM => true
  | _ => false
  end.

(** A stand-in for the crossfade helper with its size contract: the block
    it returns is as long as the fade-in part (it is the fade-in part). *)
Definition keep_fadein (fadein fadeout : bytes) (bit_depth sample_rate : Z)
  : bytes := fadein.

Definition second_of (b : byte) : bytes := [b; b; b; b].

(** Ten seconds of audio, delivered a second at a time. *)
Definition ten_seconds (b : byte) : list bytes := repeat (second_of b) 10.

Definition item (id : string) : QueueItem :=
  {| queue_item_id := id; name := "Track " ++ id; streamdetails := None |}.

(** Items "1" and "2" can be streamed, item "gone" has no stream details,
    anything else fails in the provider. *)
Definition get_stream_details (queue_item : QueueItem)
  : exn + StreamDetails :=
  if String.eqb (queue_item_id queue_item) "1" then
    inr {| uri := "library://track/1"; stream_title := None |}
  else if String.eqb (queue_item_id queue_item) "2" then
    inr {| uri := "library://track/2"; stream_title := None |}
  else if String.eqb (queue_item_id queue_item) "gone" then
    inl MediaNotFoundError
  else inl (OtherError "provider").

Definition sd1 : StreamDetails :=
  {| uri := "library://track/1"; stream_title := None |}.
Definition sd2 : StreamDetails :=
  {| uri := "library://track/2"; stream_title := None |}.

Definition get_media_stream (sd : StreamDetails) (pcm_format : AudioFormat)
    (seek_position : Z) (fade_in strip_silence_begin : bool) : list bytes :=
  if String.eqb (uri sd) "library://track/1" then ten_seconds x01
  else ten_seconds x02.

(** Two ten-second tracks with crossfade enabled and a crossfade duration
    of two seconds, streamed at [pcm_1hz]. *)
Definition two_tracks : list Flow.event * option exn * (bytes * Z) :=
  Flow.get_flow_stream keep_fadein get_stream_details get_media_stream is_pcm
    pcm_1hz (Some 2) true (item "1") [(item "2", true)] 0 false.

(** Three ten-second tracks with crossfade enabled, the first sample track
    being played again after the second, and the pass of each of them: the
    first starts with nothing carried, the next two with the last two
    seconds of the track before. *)
Definition three_tracks : list Flow.event * option exn * (bytes * Z) :=
  Flow.get_flow_stream keep_fadein get_stream_details get_media_stream is_pcm
    pcm_1hz (Some 2) true (item "1") [(item "2", true); (item "1", true)]
    0 false.

Definition first_pass : list Flow.event * Flow.track_end :=
  Flow.stream_track keep_fadein get_media_stream pcm_1hz (Some 2)
    (item "1") sd1 true 0 false [].

Definition second_pass : list Flow.event * Flow.track_end :=
  Flow.stream_track keep_fadein get_media_stream pcm_1hz (Some 2)
    (item "2") sd2 true 0 false (second_of x01 ++ second_of x01).

Definition third_pass : list Flow.event * Flow.track_end :=
  Flow.stream_track keep_fadein get_media_stream pcm_1hz (Some 2)
    (item "1") sd1 true 0 false (second_of x02 ++ second_of x02).

(** A provider whose first track has ten seconds of audio and whose other
    tracks have four. *)
Definition short_second_track (sd : StreamDetails) (pcm_format : AudioFormat)
    (seek_position : Z) (fade_in strip_silence_begin : bool) : list bytes :=
  if String.eqb (uri sd) "library://track/1" then ten_seconds x01
  else repeat (second_of x02) 4.

(** A provider whose tracks all have four seconds of audio. *)
Definition four_second_stream (sd : StreamDetails) (pcm_format : AudioFormat)
    (seek_position : Z) (fade_in strip_silence_begin : bool) : list bytes :=
  repeat (second_of x03) 4.

(** The first sample track alone in a crossfading queue. *)
Definition one_track : list Flow.event * option exn * (bytes * Z) :=
  Flow.get_flow_stream keep_fadein get_stream_details get_media_stream is_pcm
    pcm_1hz (Some 2) true (item "1") [] 0 false.

(** *** Format negotiation *)

Definition hex_of (c : ascii) : option nat :=
  let n := nat_of_ascii c in
  if ((48 <=? n) && (n <=? 57))%nat then Some (n - 48)%nat
  else if ((97 <=? n) && (n <=? 102))%nat then Some (n - 87)%nat
  else if ((65 <=? n) && (n <=? 70))%nat then Some (n - 55)%nat
  else None.

(** Percent-decoding of the escapes [%00] to [%7F]; other text is kept as
    it is ([urllib.parse.unquote] also decodes UTF-8 sequences). *)
Fixpoint unquote_chars (cs : list ascii) : list ascii :=
  match cs with
  | [] => []
  | c :: rest =>
      match rest with
      | h :: l :: rest' =>
          match hex_of h, hex_of l with
          | Some a, Some b =>
              if Ascii.eqb c "%" && (a <? 8)%nat
              then ascii_of_nat (16 * a + b) :: unquote_chars rest'
              else c :: unquote_chars rest
          | _, _ => c :: unquote_chars rest
          end
      | _ => c :: unquote_chars rest
      end
  end.

Definition unquote (s : string) : string :=
  string_of_list_ascii (unquote_chars (list_ascii_of_string s)).

(** Modelled from the spec: a format string is [codec[;key=value;...]]
    and the codec names the content type. *)
Definition try_parse (s : string) : ContentType :=
  let codec :=
    match Format.split_on ";" s with
    | codec :: _ => codec
    | [] => s
    end in
  if String.eqb codec "pcm" then PCM
  else if String.eqb codec "s16le" then PCM_S16LE
  else if String.eqb codec "s24le" then PCM_S24LE
  else if String.eqb codec "s32le" then PCM_S32LE
  else if String.eqb codec "wav" then WAV
  else if String.eqb codec "flac" then FLAC
  else if String.eqb codec "mp3" then MP3
  else if String.eqb codec "aac" then AAC
  else OtherType codec.

(** Modelled from the spec: a generic PCM type is resolved from the bit
    depth. *)
Definition from_bit_depth (bit_depth : Z) : ContentType :=
  if bit_depth =? 16 then PCM_S16LE
  else if bit_depth =? 24 then PCM_S24LE
  else PCM_S32LE.

(** The player "kitchen" plays the left channel only, every other player
    is configured for stereo. *)
Definition get_player_config_value (player_id key : string) : string :=
  if String.eqb key Format.CONF_OUTPUT_CHANNELS then
    if String.eqb player_id "kitchen" then "left" else "stereo"
  else "".

(** A player limited to 48 kHz that takes 24-bit audio. *)
Definition living_room : Format.Player :=
  {| Format.player_id := "living_room"; Format.max_sample_rate := 48000;
     Format.supports_24bit := true |}.

(** A 16-bit player limited to 44.1 kHz. *)
Definition kitchen : Format.Player :=
  {| Format.player_id := "kitchen"; Format.max_sample_rate := 44100;
     Format.supports_24bit := false |}.

(** A stand-in for the rewriting [int] applies to a [str] that is not
    ASCII, with no white space and no digit beyond ASCII: the text up to
    the first character from U+007F on, then a question mark. *)
Fixpoint to_ascii_chars (cs : list ascii) : list ascii :=
  match cs with
  | [] => []
  | c :: rest =>
      if (nat_of_ascii c <? 127)%nat then c :: to_ascii_chars rest
      else ["?"%char]
  end.

Definition to_ascii (s : string) : string :=
  string_of_list_ascii (to_ascii_chars (list_ascii_of_string s)).

Definition get_output_format : string -> Format.Player -> Z -> Z
                               -> exn + AudioFormat :=
  Format._get_output_format to_ascii unquote try_parse is_pcm from_bit_depth
    get_player_config_value.

(** *** Stream URLs *)

(** Modelled from the spec: the values of the content types, the
    lower-case codec names. *)
Definition value_of (c : ContentType) : string :=
  match c with
  | PCM => "pcm" | PCM_S16LE => "s16le" | PCM_S24LE => "s24le"
  | PCM_S32LE => "s32le" | WAV => "wav" | FLAC => "flac" | MP3 => "mp3"
  | AAC => "aac" | OtherType v => v
  end.

Definition content_type_of (v : string) : exn + ContentType :=
  inr (try_parse v).

(** The kitchen is configured for FLAC, every other player for raw PCM. *)
Definition player_config (player_id key : string) : string :=
  if String.eqb key Resolve.CONF_OUTPUT_CODEC then
    if String.eqb player_id "kitchen" then "flac" else "pcm"
  else get_player_config_value player_id key.

Definition players_get (player_id : string) : option Format.Player :=
  if String.eqb player_id "living_room" then Some living_room
  else if String.eqb player_id "kitchen" then Some kitchen
  else None.

(** Every item is a 44.1 kHz 16-bit stream. *)
Definition stream_audio_format (queue_item : QueueItem) : exn + AudioFormat :=
  inr {| content_type := FLAC; sample_rate := 44100; bit_depth := 16;
         channels := 2; output_format_str := "flac" |}.

(** [urlencode] on names and values that need no quoting. *)
Fixpoint urlencode (params : list (string * string)) : string :=
  match params with
  | [] => EmptyString
  | [(k, v)] => k +:+ "=" +:+ v
  | (k, v) :: more => k +:+ "=" +:+ v +:+ "&" +:+ urlencode more
  end.

(** *** ICY metadata *)

(** A title of 2018 bytes; with the 15 bytes around it the metadata text
    has 2033 bytes and is padded to 2048. *)
Definition long_title : string := string_of_list_ascii (repeat "a"%char 2018).

Definition long_title_item : QueueItem :=
  {| queue_item_id := "3"; name := long_title; streamdetails := None |}.

(** Modelled from the spec: PCM, WAV and FLAC are lossless output types. *)
Definition is_lossless (c : ContentType) : bool :=
  match c with
  | PCM_S16LE | PCM_S24LE | PCM_S32LE | PCM | FLAC | WAV => true
  | _ => false
  end.

(** *** A multi-client job *)

(** The format [create_multi_client_stream_job] fixes: 48 kHz, 24 bits,
    stereo, that is 288000 bytes for a second. *)
Definition pcm_48k : AudioFormat :=
  {| content_type := PCM_S24LE; sample_rate := 48000; bit_depth := 24;
     channels := 2; output_format_str := "" |}.

Definition chunk_a : bytes := [x0a; x0a; x0a; x0a; x0a; x0a].
Definition chunk_b : bytes := [x0b; x0b; x0b; x0b; x0b; x0b].
Definition chunk_c : bytes := [x0c; x0c; x0c; x0c; x0c; x0c].

(** A job for queue "q" whose flow stream has three chunks. *)
Definition job0 : Job.job :=
  Job.new_job "q" "job-1" pcm_48k [chunk_a; chunk_b; chunk_c].

(** Player A is expected and subscribes; the producer broadcasts the first
    two chunks, which A does not read, and starts on the third: A's queue
    is full. *)
Definition full_queue_run : list Job.label :=
  [Job.ResolveStreamUrl "A"; Job.Subscribe "A"; Job.Fetch; Job.AllConnected;
   Job.PutOne 0; Job.PutDone; Job.Fetch; Job.PutOne 0; Job.PutDone;
   Job.Fetch].

(** A job whose flow stream is empty. *)
Definition empty_job : Job.job := Job.new_job "q" "job-2" pcm_48k [].

(** On it the producer puts the EOF chunk to nobody and is done; then
    player B subscribes. *)
Definition late_after_eof_run : list Job.label :=
  [Job.ResolveStreamUrl "B"; Job.Fetch; Job.PutDone; Job.Subscribe "B"].

(** A is expected together with B, but only A subscribes before the first
    chunk is there: the producer waits. *)
Definition waiting_run : list Job.label :=
  [Job.ResolveStreamUrl "A"; Job.ResolveStreamUrl "B"; Job.Subscribe "A";
   Job.Fetch].

(** After the timeout the first chunk is broadcast to A, A reads it, and
    the producer starts on the second chunk. *)
Definition started_run : list Job.label :=
  waiting_run ++ [Job.Timeout; Job.PutOne 0; Job.PutDone; Job.Get 0; Job.Fetch].

(** B joins while the second chunk is on its way to A, and is served from
    the third chunk on. *)
Definition late_join_run : list Job.label :=
  started_run
    ++ [Job.Subscribe "B"; Job.PutOne 0; Job.PutDone; Job.Fetch;
        Job.PutOne 0; Job.PutOne 1; Job.PutDone; Job.Get 1].

(** Then the flow stream is used up: A reads the second chunk, the empty
    chunk is put to both queues and the runner returns. *)
Definition finished_run : list Job.label :=
  late_join_run
    ++ [Job.Fetch; Job.Get 0; Job.PutOne 0; Job.PutOne 1; Job.PutDone].

(** *** The job registry *)

(** A job is created for queue "q", player A subscribes to it, and a
    second job is created for the same queue. *)
Definition registry_run : list Registry.label :=
  [Registry.Create "q" "job-1" true [chunk_a; chunk_b];
   Registry.JobStep 0 (Job.Subscribe "A");
   Registry.Create "q" "job-2" true [chunk_c]].

End Sample.

(** * Facts about the embedding *)

(** ** Bytes and slices *)

Lemma len_nonneg (b : bytes) : 0 <= len b.
Proof. unfold len. lia. Qed.

Lemma len_nil : len [] = 0.
Proof. reflexivity. Qed.

Lemma len_app (a b : bytes) : len (a ++ b) = len a + len b.
Proof. unfold len. rewrite length_app. lia. Qed.

Lemma truthy_len (b : bytes) : truthy b = true <-> 0 < len b.
Proof. destruct b; unfold len; simpl; split; intros; try lia; congruence. Qed.

Lemma truthy_false (b : bytes) : truthy b = false <-> b = [].
Proof. destruct b; simpl; split; congruence. Qed.

Lemma slice_split (b : bytes) (i : Z) : slice_to b i ++ slice_from b i = b.
Proof. apply take_drop. Qed.

Lemma len_slice_split (b : bytes) (i : Z) :
  len (slice_to b i) + len (slice_from b i) = len b.
Proof. rewrite <- len_app, slice_split. reflexivity. Qed.

Lemma len_slice_to (b : bytes) (i : Z) :
  0 <= i <= len b -> len (slice_to b i) = i.
Proof.
  intros Hi. unfold slice_to, slice_bound, len in *.
  rewrite length_take.
  destruct (Z.ltb_spec i 0); lia.
Qed.

Lemma len_slice_from (b : bytes) (i : Z) :
  0 <= i <= len b -> len (slice_from b i) = len b - i.
Proof.
  intros Hi. pose proof (len_slice_split b i) as Hs.
  rewrite len_slice_to in Hs by assumption. lia.
Qed.

(** [b[-c:]] keeps the last [c] bytes when there are that many. *)
Lemma len_slice_from_end (b : bytes) (c : Z) :
  0 < c <= len b -> len (slice_from b (- c)) = c.
Proof.
  intros Hc. unfold slice_from, slice_bound, len in *.
  rewrite length_drop.
  destruct (Z.ltb_spec (- c) 0); lia.
Qed.

(** [b[-c:]] never has more than [c] bytes, for a positive [c]. *)
Lemma len_slice_from_end_le (b : bytes) (c : Z) :
  0 < c -> len (slice_from b (- c)) <= c.
Proof.
  intros Hc. unfold slice_from, slice_bound, len in *.
  rewrite length_drop.
  destruct (Z.ltb_spec (- c) 0); lia.
Qed.

Lemma total_len_app (xs ys : list bytes) :
  total_len (xs ++ ys) = total_len xs + total_len ys.
Proof.
  induction xs as [|x xs IH]; simpl; lia.
Qed.

Lemma total_len_nonneg (xs : list bytes) : 0 <= total_len xs.
Proof.
  induction xs as [|x xs IH]; simpl; [lia|].
  pose proof (len_nonneg x). lia.
Qed.

Lemma total_len_cons (x : bytes) (xs : list bytes) :
  total_len (x :: xs) = len x + total_len xs.
Proof. reflexivity. Qed.

Lemma len_concat (xs : list bytes) : len (concat xs) = total_len xs.
Proof.
  induction xs as [|x xs IH]; simpl; [reflexivity|].
  rewrite len_app, IH. reflexivity.
Qed.

Lemma total_len_removelast (xs : list bytes) :
  total_len (removelast xs) <= total_len xs.
Proof.
  induction xs as [|x xs IH]; simpl; [lia|].
  destruct xs as [|y ys]; simpl in *; pose proof (len_nonneg x); lia.
Qed.

(** [b[:-c]] and [b[-c:]] when [b] has at most [c] bytes: nothing, and
    all of [b]. *)
Lemma slice_to_end_short (b : bytes) (c : Z) :
  0 < c -> len b <= c -> slice_to b (- c) = [].
Proof.
  intros Hc Hb. unfold slice_to, slice_bound.
  destruct (Z.ltb_spec (- c) 0); [|lia].
  replace (Z.to_nat (Z.max 0 (len b + - c))) with 0%nat by lia. reflexivity.
Qed.

Lemma slice_from_end_short (b : bytes) (c : Z) :
  0 < c -> len b <= c -> slice_from b (- c) = b.
Proof.
  intros Hc Hb. pose proof (slice_split b (- c)) as Hs.
  rewrite slice_to_end_short in Hs by assumption. exact Hs.
Qed.

(** The last [c] bytes of [a + b] are those of [b] when [b] has that
    many. *)
Lemma slice_from_end_app (a b : bytes) (c : Z) :
  0 < c <= len b -> slice_from (a ++ b) (- c) = slice_from b (- c).
Proof.
  intros Hc. unfold slice_from, slice_bound. rewrite len_app.
  destruct (Z.ltb_spec (- c) 0); [|lia]. unfold len in *.
  rewrite drop_app_ge by lia. f_equal. lia.
Qed.

Lemma slice_to_end_app (a b : bytes) (c : Z) :
  0 < c <= len b -> slice_to (a ++ b) (- c) = a ++ slice_to b (- c).
Proof.
  intros Hc. unfold slice_to, slice_bound. rewrite len_app.
  destruct (Z.ltb_spec (- c) 0); [|lia]. unfold len in *.
  rewrite take_app_ge by lia. f_equal. f_equal. lia.
Qed.

(** ** The flow stream generator *)

Module FlowProps.
Import Flow.

(** *** Traces *)

Lemma yielded_app (xs ys : list event) :
  yielded (xs ++ ys) = yielded xs ++ yielded ys.
Proof. apply omap_app. Qed.

Lemma yielded_map_Yield (out : list bytes) : yielded (map Yield out) = out.
Proof. induction out as [|c out IH]; simpl; congruence. Qed.

Lemma bytes_yielded_app (xs ys : list event) :
  bytes_yielded (xs ++ ys) = bytes_yielded xs + bytes_yielded ys.
Proof. unfold bytes_yielded. rewrite yielded_app. apply total_len_app. Qed.

Lemma bytes_yielded_map_Yield (out : list bytes) :
  bytes_yielded (map Yield out) = total_len out.
Proof. unfold bytes_yielded. rewrite yielded_map_Yield. reflexivity. Qed.

Lemma seconds_streamed_writes_app (xs ys : list event) :
  seconds_streamed_writes (xs ++ ys)
  = seconds_streamed_writes xs ++ seconds_streamed_writes ys.
Proof. apply omap_app. Qed.

Lemma seconds_streamed_writes_map_Yield (out : list bytes) :
  seconds_streamed_writes (map Yield out) = [].
Proof. induction out as [|c out IH]; simpl; congruence. Qed.

Lemma has_stream_error_app (xs ys : list event) :
  has_stream_error (xs ++ ys) = has_stream_error xs || has_stream_error ys.
Proof. apply existsb_app. Qed.

Lemma has_stream_error_map_Yield (out : list bytes) :
  has_stream_error (map Yield out) = false.
Proof. induction out as [|c out IH]; simpl; congruence. Qed.

Section Generator.

Variable crossfade_pcm_parts : bytes -> bytes -> Z -> Z -> bytes.
Variable get_stream_details : QueueItem -> exn + StreamDetails.
Variable get_media_stream :
  StreamDetails -> AudioFormat -> Z -> bool -> bool -> list bytes.
Variable is_pcm : ContentType -> bool.
Variable pcm_format : AudioFormat.
Variable crossfade_duration_conf : option Z.

Local Abbreviation on_chunk := (on_chunk crossfade_pcm_parts pcm_format crossfade_duration_conf).
Local Abbreviation media_loop := (media_loop crossfade_pcm_parts pcm_format crossfade_duration_conf).
Local Abbreviation end_of_track := (end_of_track pcm_format crossfade_duration_conf).
Local Abbreviation stream_track :=
  (stream_track crossfade_pcm_parts get_media_stream pcm_format crossfade_duration_conf).
Local Abbreviation flow_loop :=
  (flow_loop crossfade_pcm_parts get_stream_details get_media_stream pcm_format
     crossfade_duration_conf).
Local Abbreviation buffer_size := (buffer_size pcm_format crossfade_duration_conf).
Local Abbreviation crossfade_size := (crossfade_size pcm_format crossfade_duration_conf).
Local Abbreviation pcm_sample_size := (pcm_sample_size pcm_format).

(** *** One chunk *)

Ltac from_pair H := inversion H; subst; clear H.

(** [bytes_written] grows by what the chunk's handling yields. *)
Lemma on_chunk_written uc st chunk out st' :
  0 <= buffer_size uc ->
  on_chunk uc st chunk = (out, st') ->
  bytes_written st' = bytes_written st + total_len out.
Proof.
  intros Hbs. unfold Flow.on_chunk. cbv zeta.
  destruct (truthy (last_fadeout_part st) && _) eqn:Hx.
  - destruct (truthy (slice_from _ _)) eqn:Hr; intros H; from_pair H;
      simpl; lia.
  - destruct (_ * 2 <=? len (buffer st)) eqn:Hs; intros H; from_pair H;
      simpl; [|lia].
    apply Z.leb_le in Hs. rewrite len_slice_to by lia. lia.
Qed.

(** Without a carried fade-out every byte is kept: it is yielded or it
    stays in the buffer. *)
Lemma on_chunk_plain uc st chunk out st' :
  0 <= buffer_size uc ->
  last_fadeout_part st = [] ->
  on_chunk uc st chunk = (out, st') ->
  last_fadeout_part st' = []
  /\ total_len out + len (buffer st') = len (buffer st) + len chunk
  /\ (buffer_size uc <= len (buffer st) \/ out <> [] ->
      buffer_size uc <= len (buffer st')).
Proof.
  intros Hbs Hc. unfold Flow.on_chunk. rewrite Hc. simpl.
  destruct (_ * 2 <=? len (buffer st)) eqn:Hs; intros H; from_pair H; simpl.
  - apply Z.leb_le in Hs. split; [reflexivity|].
    rewrite len_app, len_slice_to, len_slice_from by lia.
    pose proof (len_nonneg chunk). split; intros; lia.
  - rewrite len_app. pose proof (len_nonneg chunk).
    split; [reflexivity|]. split; [lia|]. intros [Hb|Hb]; [lia|congruence].
Qed.

(** With a carried fade-out of [crossfade_size] bytes the chunk is either
    buffered, or the crossfade is made: the carried part is used up and
    everything buffered so far leaves, the first [crossfade_size] bytes of
    it inside the crossfaded block. *)
Lemma on_chunk_carry uc st chunk out st' :
  (forall fadein fadeout,
      len fadein = crossfade_size -> len fadeout = crossfade_size ->
      len (crossfade_pcm_parts fadein fadeout (bit_depth pcm_format)
             (sample_rate pcm_format)) = crossfade_size) ->
  0 < crossfade_size <= buffer_size uc ->
  truthy (last_fadeout_part st) = true ->
  len (last_fadeout_part st) = crossfade_size ->
  on_chunk uc st chunk = (out, st') ->
  (out = [] /\ last_fadeout_part st' = last_fadeout_part st
   /\ buffer st' = buffer st ++ chunk
   /\ bytes_written st' = bytes_written st)
  \/ (last_fadeout_part st' = [] /\ buffer st' = []
      /\ total_len out = len (buffer st) + len chunk).
Proof.
  intros Hxf Hcs Ht Hl. unfold Flow.on_chunk. cbv zeta. rewrite Ht. simpl.
  destruct (buffer_size uc <=? len (buffer st)) eqn:Hfull.
  - apply Z.leb_le in Hfull.
    pose proof (len_nonneg chunk) as Hchunk.
    assert (Hin : 0 <= crossfade_size <= len (buffer st ++ chunk))
      by (rewrite len_app; lia).
    pose proof (Hxf _ _ (len_slice_to _ _ Hin) Hl) as Hx.
    pose proof (len_slice_from _ _ Hin) as Hrem. rewrite len_app in Hrem.
    destruct (truthy (slice_from _ _)) eqn:Hr; intros H; from_pair H; simpl;
      right; repeat split; try reflexivity.
    + lia.
    + apply truthy_false in Hr. rewrite Hr, len_nil in Hrem. lia.
  - apply Z.leb_gt in Hfull.
    destruct (_ * 2 <=? len (buffer st)) eqn:Hs;
      [apply Z.leb_le in Hs; lia|].
    intros H; from_pair H; simpl. left. repeat split; reflexivity.
Qed.

(** *** The chunk loop of one track *)

Lemma media_loop_written uc chunks : forall st out st',
  0 <= buffer_size uc ->
  media_loop uc st chunks = (out, st') ->
  bytes_written st' = bytes_written st + total_len out.
Proof.
  induction chunks as [|chunk more IH]; intros st out st' Hbs; simpl.
  - intros H; from_pair H. simpl. lia.
  - destruct (on_chunk uc st chunk) as [out1 st1] eqn:H1.
    destruct (media_loop uc st1 more) as [outs st2] eqn:H2.
    intros H; from_pair H.
    rewrite (IH _ _ _ Hbs H2), (on_chunk_written _ _ _ _ _ Hbs H1).
    rewrite total_len_app. lia.
Qed.

Lemma media_loop_plain uc chunks : forall st out st',
  0 <= buffer_size uc ->
  last_fadeout_part st = [] ->
  media_loop uc st chunks = (out, st') ->
  last_fadeout_part st' = []
  /\ total_len out + len (buffer st') = len (buffer st) + total_len chunks
  /\ (buffer_size uc <= len (buffer st) \/ out <> [] ->
      buffer_size uc <= len (buffer st')).
Proof.
  induction chunks as [|chunk more IH]; intros st out st' Hbs Hc; simpl.
  - intros H; from_pair H. simpl. split; [assumption|]. split; [lia|].
    intros [Hb|Hb]; [assumption|congruence].
  - destruct (on_chunk uc st chunk) as [out1 st1] eqn:H1.
    destruct (media_loop uc st1 more) as [outs st2] eqn:H2.
    intros H; from_pair H.
    destruct (on_chunk_plain _ _ _ _ _ Hbs Hc H1) as (Hc1 & Hsum1 & Hfull1).
    destruct (IH _ _ _ Hbs Hc1 H2) as (Hc2 & Hsum2 & Hfull2).
    split; [assumption|]. rewrite total_len_app. split; [lia|].
    intros [Hb|Hb].
    + apply Hfull2. left. apply Hfull1. left. assumption.
    + apply Hfull2. destruct out1 as [|o os].
      * right. simpl in Hb. assumption.
      * left. apply Hfull1. right. discriminate.
Qed.

Lemma media_loop_carry uc chunks : forall st out st',
  (forall fadein fadeout,
      len fadein = crossfade_size -> len fadeout = crossfade_size ->
      len (crossfade_pcm_parts fadein fadeout (bit_depth pcm_format)
             (sample_rate pcm_format)) = crossfade_size) ->
  0 < crossfade_size <= buffer_size uc ->
  truthy (last_fadeout_part st) = true ->
  len (last_fadeout_part st) = crossfade_size ->
  media_loop uc st chunks = (out, st') ->
  (out = [] /\ last_fadeout_part st' = last_fadeout_part st
   /\ bytes_written st' = bytes_written st)
  \/ (last_fadeout_part st' = []
      /\ total_len out + len (buffer st')
         = len (buffer st) + total_len chunks).
Proof.
  induction chunks as [|chunk more IH]; intros st out st' Hxf Hcs Ht Hl; simpl.
  - intros H; from_pair H. left. repeat split; reflexivity.
  - destruct (on_chunk uc st chunk) as [out1 st1] eqn:H1.
    destruct (media_loop uc st1 more) as [outs st2] eqn:H2.
    intros H; from_pair H.
    destruct (on_chunk_carry _ _ _ _ _ Hxf Hcs Ht Hl H1)
      as [(-> & Hc1 & Hb1 & Hw1)|(Hc1 & Hb1 & Hsum1)].
    + rewrite <- Hc1 in Ht, Hl.
      destruct (IH _ _ _ Hxf Hcs Ht Hl H2) as [(-> & Hc2 & Hw2)|(Hc2 & Hsum2)].
      * left. repeat split; simpl; congruence.
      * right. split; [assumption|]. simpl.
        rewrite Hb1, len_app in Hsum2. lia.
    + right. assert (Hbs : 0 <= buffer_size uc) by lia.
      destruct (media_loop_plain _ _ _ _ _ Hbs Hc1 H2) as (Hc2 & Hsum2 & _).
      split; [assumption|]. rewrite total_len_app, Hb1, len_nil in *.
      simpl. lia.
Qed.

(** *** One track *)

Lemma crossfade_size_pcm_sample_size :
  0 < crossfade_size -> pcm_sample_size <> 0.
Proof. unfold Flow.crossfade_size. intros H E. rewrite E in H. lia. Qed.

Lemma buffer_size_nonneg uc :
  0 < pcm_sample_size -> 0 <= Flow.crossfade_duration crossfade_duration_conf ->
  0 <= buffer_size uc.
Proof. unfold Flow.buffer_size, Flow.crossfade_size. destruct uc; nia. Qed.

(** What a track's pass leaves in the trace and hands to the next pass,
    read off [bytes_written] after the chunk loop. *)
Lemma stream_track_shape item sd uc seek fade_in fadeout evs fin :
  stream_track item sd uc seek fade_in fadeout = (evs, fin) ->
  exists out st fin_evs,
    media_loop uc
      {| last_fadeout_part := fadeout; buffer := []; bytes_written := 0 |}
      (get_media_stream sd pcm_format seek fade_in (truthy fadeout))
    = (out, st)
    /\ end_of_track item sd uc st = (fin_evs, fin)
    /\ evs = SetSecondsSkipped (queue_item_id item) seek
               :: map Yield out ++ fin_evs.
Proof.
  unfold Flow.stream_track.
  destruct (media_loop _ _ _) as [out st] eqn:Hloop.
  destruct (end_of_track item sd uc st) as [fin_evs step] eqn:Hend.
  intros H; from_pair H. exists out, st, fin_evs. auto.
Qed.

(** The only exception a track's pass can raise itself. *)
Lemma stream_track_raise item sd uc seek fade_in fadeout evs e :
  stream_track item sd uc seek fade_in fadeout = (evs, Raise e) ->
  e = ZeroDivisionError.
Proof.
  intros H. apply stream_track_shape in H
    as (out & st & fin_evs & _ & Hend & _).
  revert Hend. unfold Flow.end_of_track.
  destruct (bytes_written st =? 0); [discriminate|].
  destruct (if truthy (buffer st) && uc then _ else _) as [[o f] w].
  unfold true_div. cbv iota beta.
  destruct (_ =? 0); congruence.
Qed.

(** The end of a track whose chunk loop wrote [w] bytes, [pcm_sample_size]
    not being zero. *)
Lemma end_of_track_cases item sd uc st :
  pcm_sample_size <> 0 ->
  (bytes_written st = 0
   /\ end_of_track item sd uc st
      = ([LogWarning "Stream error on %s" (uri sd);
          SetSecondsStreamed (queue_item_id item) (inject_Z 0)],
         Next (last_fadeout_part st) 0))
  \/ (bytes_written st <> 0
      /\ exists tail fadeout,
          end_of_track item sd uc st
          = (map Yield tail
               ++ [SetSecondsStreamed (queue_item_id item)
                     (Qdiv (inject_Z (bytes_written st + total_len tail))
                        (inject_Z pcm_sample_size))],
             Next fadeout (bytes_written st + total_len tail))
          /\ total_len tail + (if truthy (buffer st) && uc
                               then len fadeout else 0) = len (buffer st)
          /\ (truthy (buffer st) && uc = true ->
              fadeout = slice_from (buffer st) (- crossfade_size))
          /\ (truthy (buffer st) && uc = false ->
              fadeout = last_fadeout_part st)).
Proof.
  intros Hpss. unfold Flow.end_of_track, true_div.
  apply Z.eqb_neq in Hpss. rewrite Hpss.
  destruct (bytes_written st =? 0) eqn:Hw.
  - left. apply Z.eqb_eq in Hw. auto.
  - right. apply Z.eqb_neq in Hw. split; [assumption|].
    destruct (truthy (buffer st) && uc) eqn:Hcf.
    + exists [slice_to (buffer st) (- crossfade_size)],
        (slice_from (buffer st) (- crossfade_size)).
      simpl. rewrite Z.add_0_r. repeat split; try reflexivity.
      * apply len_slice_split.
      * discriminate.
    + destruct (truthy (buffer st)) eqn:Hb.
      * exists [buffer st], (last_fadeout_part st).
        simpl. rewrite !Z.add_0_r. repeat split; try reflexivity.
        discriminate.
      * exists [], (last_fadeout_part st). apply truthy_false in Hb.
        simpl. rewrite Hb, !Z.add_0_r. repeat split; try reflexivity.
        discriminate.
Qed.

(** A track's pass never raises when [pcm_sample_size] is not zero, and
    [written] is what it yielded. *)
Lemma stream_track_accounting item sd uc seek fade_in fadeout evs fin :
  pcm_sample_size <> 0 ->
  0 <= buffer_size uc ->
  stream_track item sd uc seek fade_in fadeout = (evs, fin) ->
  exists carry,
    fin = Next carry (bytes_yielded evs)
    /\ seconds_streamed_writes evs
       = [(queue_item_id item,
           if bytes_yielded evs =? 0 then inject_Z 0
           else Qdiv (inject_Z (bytes_yielded evs))
                  (inject_Z pcm_sample_size))]
    /\ has_stream_error evs = (bytes_yielded evs =? 0).
Proof.
  intros Hpss Hbs H.
  apply stream_track_shape in H as (out & st & fin_evs & Hloop & Hend & ->).
  pose proof (media_loop_written _ _ _ _ _ Hbs Hloop) as Hw. simpl in Hw.
  pose proof (total_len_nonneg out) as Hout.
  change (SetSecondsSkipped (queue_item_id item) seek
            :: map Yield out ++ fin_evs)
    with ([SetSecondsSkipped (queue_item_id item) seek]
            ++ map Yield out ++ fin_evs).
  rewrite !bytes_yielded_app, !seconds_streamed_writes_app,
    !has_stream_error_app, bytes_yielded_map_Yield,
    seconds_streamed_writes_map_Yield, has_stream_error_map_Yield.
  destruct (end_of_track_cases item sd uc st Hpss)
    as [(Hz & Hev)|(Hnz & tail & carry & Hev & _)];
    rewrite Hev in Hend; from_pair Hend.
  - exists (last_fadeout_part st). simpl.
    replace (total_len out) with 0 by lia. simpl. auto.
  - exists carry. pose proof (total_len_nonneg tail) as Htail.
    rewrite bytes_yielded_app, seconds_streamed_writes_app,
      has_stream_error_app, bytes_yielded_map_Yield,
      seconds_streamed_writes_map_Yield, has_stream_error_map_Yield.
    cbn [bytes_yielded yielded omap seconds_streamed_writes total_len
         has_stream_error existsb is_stream_error app orb].
    rewrite !Z.add_0_l, !Z.add_0_r.
    replace (total_len out + total_len tail =? 0) with false
      by (symmetry; apply Z.eqb_neq; lia).
    rewrite Hw. auto.
Qed.

(** A track that is not reported as a stream error: what it yields and what
    it holds back add up to what its chunk loop yielded and left in the
    buffer. *)
Lemma stream_track_conservation item sd uc seek fade_in fadeout evs fin :
  pcm_sample_size <> 0 ->
  0 <= buffer_size uc ->
  stream_track item sd uc seek fade_in fadeout = (evs, fin) ->
  has_stream_error evs = false ->
  exists out st carry,
    media_loop uc
      {| last_fadeout_part := fadeout; buffer := []; bytes_written := 0 |}
      (get_media_stream sd pcm_format seek fade_in (truthy fadeout))
    = (out, st)
    /\ fin = Next carry (bytes_yielded evs)
    /\ out <> []
    /\ bytes_written st <> 0
    /\ bytes_yielded evs
       + (if truthy (buffer st) && uc then len carry else 0)
       = total_len out + len (buffer st)
    /\ (truthy (buffer st) && uc = true ->
        carry = slice_from (buffer st) (- crossfade_size))
    /\ (truthy (buffer st) && uc = false -> carry = last_fadeout_part st).
Proof.
  intros Hpss Hbs H Herr.
  apply stream_track_shape in H as (out & st & fin_evs & Hloop & Hend & ->).
  pose proof (media_loop_written _ _ _ _ _ Hbs Hloop) as Hw. simpl in Hw.
  revert Herr.
  change (SetSecondsSkipped (queue_item_id item) seek
            :: map Yield out ++ fin_evs)
    with ([SetSecondsSkipped (queue_item_id item) seek]
            ++ map Yield out ++ fin_evs).
  rewrite !bytes_yielded_app, !has_stream_error_app, bytes_yielded_map_Yield,
    has_stream_error_map_Yield.
  destruct (end_of_track_cases item sd uc st Hpss)
    as [(Hz & Hev)|(Hnz & tail & carry & Hev & Htail & Hcf & Hncf)];
    rewrite Hev in Hend; from_pair Hend.
  - simpl. discriminate.
  - intros _. exists out, st, carry.
    rewrite bytes_yielded_app, bytes_yielded_map_Yield.
    cbn [bytes_yielded yielded omap total_len].
    rewrite !Z.add_0_l, !Z.add_0_r, Hw.
    repeat split; try assumption; try lia.
    intros ->. simpl in Hw. lia.
Qed.

(** The first track of a crossfading run: the last [crossfade_size] bytes
    are held back. *)
Lemma stream_track_holds_back item sd seek fade_in evs fin :
  0 < crossfade_size ->
  stream_track item sd true seek fade_in [] = (evs, fin) ->
  has_stream_error evs = false ->
  exists carry,
    fin = Next carry (bytes_yielded evs)
    /\ len carry = crossfade_size
    /\ bytes_yielded evs
       = total_len (get_media_stream sd pcm_format seek fade_in false)
         - crossfade_size.
Proof.
  intros Hcs H Herr.
  pose proof (crossfade_size_pcm_sample_size Hcs) as Hpss.
  assert (Hbs : 0 <= buffer_size true) by (simpl; lia).
  destruct (stream_track_conservation _ _ _ _ _ _ _ _ Hpss Hbs H Herr)
    as (out & st & carry & Hloop & Hfin & Hne & _ & Hsum & Hcf & _).
  simpl in Hloop.
  destruct (media_loop_plain _ _
              {| last_fadeout_part := []; buffer := []; bytes_written := 0 |}
              _ _ Hbs eq_refl Hloop)
    as (_ & Hkeep & Hfull). simpl in Hkeep, Hfull.
  assert (Hlen : crossfade_size <= len (buffer st))
    by (apply Hfull; right; assumption).
  assert (Hb : truthy (buffer st) && true = true)
    by (rewrite andb_true_r; apply truthy_len; lia).
  rewrite Hb in Hsum. specialize (Hcf Hb).
  exists carry. split; [assumption|].
  assert (Hcarry : len carry = crossfade_size)
    by (rewrite Hcf; apply len_slice_from_end; lia).
  rewrite len_nil in Hkeep. split; [assumption|lia].
Qed.

(** The track after it: the carried part and the first [crossfade_size]
    bytes become one crossfaded block of that size; the track may hold
    back a fade-out of its own. *)
Lemma stream_track_crossfades item sd uc seek fade_in fadeout evs fin :
  (forall fadein fadeout,
      len fadein = crossfade_size -> len fadeout = crossfade_size ->
      len (crossfade_pcm_parts fadein fadeout (bit_depth pcm_format)
             (sample_rate pcm_format)) = crossfade_size) ->
  0 < crossfade_size <= buffer_size uc ->
  len fadeout = crossfade_size ->
  stream_track item sd uc seek fade_in fadeout = (evs, fin) ->
  has_stream_error evs = false ->
  exists carry,
    fin = Next carry (bytes_yielded evs)
    /\ len carry <= crossfade_size
    /\ (uc = false -> carry = [])
    /\ bytes_yielded evs
       = total_len (get_media_stream sd pcm_format seek fade_in true)
         - len carry.
Proof.
  intros Hxf Hcs Hl H Herr.
  pose proof (crossfade_size_pcm_sample_size (proj1 Hcs)) as Hpss.
  assert (Hbs : 0 <= buffer_size uc) by lia.
  assert (Ht : truthy fadeout = true) by (apply truthy_len; lia).
  destruct (stream_track_conservation _ _ _ _ _ _ _ _ Hpss Hbs H Herr)
    as (out & st & carry & Hloop & Hfin & Hne & Hnz & Hsum & Hcf & Hncf).
  rewrite Ht in Hloop.
  destruct (media_loop_carry _ _
              {| last_fadeout_part := fadeout; buffer := [];
                 bytes_written := 0 |} _ _ Hxf Hcs Ht Hl Hloop)
    as [(-> & _)|(Hc & Hkeep)]; [congruence|].
  simpl in Hkeep. rewrite len_nil in Hkeep.
  exists carry. split; [assumption|].
  destruct (truthy (buffer st) && uc) eqn:Hb.
  - rewrite (Hcf eq_refl) in *.
    pose proof (len_slice_from_end_le (buffer st) crossfade_size (proj1 Hcs)).
    split; [assumption|]. split; [|lia].
    intros ->. rewrite andb_false_r in Hb. discriminate.
  - rewrite (Hncf eq_refl), Hc, len_nil in *.
    split; [lia|]. split; [reflexivity|]. lia.
Qed.

(** *** The whole generator *)

(** [MediaNotFoundError] never leaves the loop. *)
Lemma flow_loop_catches items : forall seek fade_in fadeout total,
  (flow_loop items seek fade_in fadeout total).1.2 <> Some MediaNotFoundError.
Proof.
  induction items as [|[item uc] more IH]; intros seek fade_in fadeout total;
    simpl; [discriminate|].
  destruct (get_stream_details item) as [e|sd].
  - destruct e; simpl; try discriminate.
    specialize (IH 0 false fadeout total).
    destruct (flow_loop more 0 false fadeout total) as [[evs res] fin].
    exact IH.
  - destruct (stream_track item sd uc seek fade_in fadeout) as [evs fin] eqn:Ht.
    destruct fin as [carry written|e].
    + specialize (IH 0 false carry (total + written)).
      destruct (flow_loop more 0 false carry (total + written))
        as [[evs' res] fin']. exact IH.
    + apply stream_track_raise in Ht. subst e. simpl. discriminate.
Qed.

(** C5.  When [get_stream_details] raises [MediaNotFoundError] for the item
    at hand, the generator logs the warning and goes on with the items that
    follow: its trace is that warning, without any yielded chunk, followed
    by the run over the rest of the queue (from position 0, without
    fade-in, with the fade-out carried so far), and whatever ends that run
    it is not [MediaNotFoundError]. *)
Theorem missing_streamdetails_skips_track
    item use_crossfade more seek fade_in fadeout total :
  get_stream_details item = inl MediaNotFoundError ->
  exists evs res fin,
    flow_loop more 0 false fadeout total = (evs, res, fin)
    /\ flow_loop ((item, use_crossfade) :: more) seek fade_in fadeout total
       = (LogWarning "Skip track %s due to missing streamdetails" (name item)
            :: evs, res, fin)
    /\ res <> Some MediaNotFoundError.
Proof.
  intros Hmissing. pose proof (flow_loop_catches more 0 false fadeout total) as Hres.
  destruct (flow_loop more 0 false fadeout total) as [[evs res] fin] eqn:Hrest.
  exists evs, res, fin. split; [reflexivity|]. split; [|exact Hres].
  simpl. rewrite Hmissing, Hrest. reflexivity.
Qed.

(** C6.  For a track whose stream details were found, with a positive
    [pcm_sample_size] and a crossfade duration that is not negative: the
    pass stores [seconds_streamed] exactly once; the value is the number of
    bytes yielded during the pass divided by [pcm_sample_size] when that
    number is not zero, and 0 when it is; in both cases the loop goes on
    with the rest of the queue, adding the yielded bytes to
    [total_bytes_written]; and [pcm_sample_size] is
    [sample_rate * (bit_depth / 8) * 2] for a bit depth that is a multiple
    of 8. *)
Theorem seconds_streamed_counts_yielded_bytes
    item sd use_crossfade seek fade_in fadeout more total :
  0 < pcm_sample_size ->
  0 <= Flow.crossfade_duration crossfade_duration_conf ->
  get_stream_details item = inr sd ->
  let pass := stream_track item sd use_crossfade seek fade_in fadeout in
  let written := bytes_yielded pass.1 in
  seconds_streamed_writes pass.1
  = [(queue_item_id item,
      if written =? 0 then inject_Z 0
      else Qdiv (inject_Z written) (inject_Z pcm_sample_size))]
  /\ (exists carry,
        pass.2 = Next carry written
        /\ flow_loop ((item, use_crossfade) :: more) seek fade_in fadeout total
           = (let '(evs, res, fin) :=
                flow_loop more 0 false carry (total + written) in
              (pass.1 ++ evs, res, fin)))
  /\ ((8 | bit_depth pcm_format) ->
      pcm_sample_size
      = sample_rate pcm_format * (bit_depth pcm_format / 8) * 2).
Proof.
  intros Hpss Hdur Hsd pass written.
  assert (Hne : pcm_sample_size <> 0) by lia.
  pose proof (buffer_size_nonneg use_crossfade Hpss Hdur) as Hbs.
  destruct (stream_track item sd use_crossfade seek fade_in fadeout)
    as [evs fin] eqn:Hpass.
  destruct (stream_track_accounting _ _ _ _ _ _ _ _ Hne Hbs Hpass)
    as (carry & Hfin & Hwrites & _).
  subst pass written. simpl. split; [exact Hwrites|]. split.
  - exists carry. split; [exact Hfin|].
    rewrite Hsd, Hpass, Hfin. reflexivity.
  - intros [k Hk]. unfold Flow.pcm_sample_size, flow_pcm_sample_size, int_div.
    rewrite Hk, Z.div_mul by lia.
    replace (sample_rate pcm_format * (k * 8) * 2)
      with (sample_rate pcm_format * k * 2 * 8) by lia.
    apply Z.quot_mul. lia.
Qed.

(** The loop over a queue split after the items [before]: when the loop
    over [before] ends without an exception, the loop over the whole queue
    does what the loop over [before] does and goes on with the rest of the
    queue from the state it is in then.  Only the first pass of [while
    True] uses [seek_position] and [fade_in]. *)
Lemma flow_loop_app before :
  forall items seek fade_in fadeout total evs0 fadeout0 total0,
  flow_loop before seek fade_in fadeout total
  = (evs0, None, (fadeout0, total0)) ->
  flow_loop (before ++ items) seek fade_in fadeout total
  = (let '(evs, res, fin) :=
       flow_loop items
         (match before with [] => seek | _ :: _ => 0 end)
         (match before with [] => fade_in | _ :: _ => false end)
         fadeout0 total0 in
     (evs0 ++ evs, res, fin)).
Proof.
  induction before as [|[item uc] before IH];
    intros items seek fade_in fadeout total evs0 fadeout0 total0 H.
  - simpl in H. injection H as <- <- <-. simpl.
    destruct (flow_loop items seek fade_in fadeout total) as [[evs res] fin].
    reflexivity.
  - assert (Hrest : forall fo t evs,
              flow_loop before 0 false fo t = (evs, None, (fadeout0, total0)) ->
              flow_loop (before ++ items) 0 false fo t
              = (let '(evs', res, fin) :=
                   flow_loop items 0 false fadeout0 total0 in
                 (evs ++ evs', res, fin))).
    { intros fo t evs Hb. rewrite (IH items 0 false fo t evs _ _ Hb).
      destruct before; reflexivity. }
    simpl in H |- *. destruct (get_stream_details item) as [e|sd].
    + destruct e; try discriminate.
      destruct (flow_loop before 0 false fadeout total)
        as [[evs res] fin] eqn:Hb.
      injection H as <- -> ->. rewrite (Hrest _ _ _ Hb).
      destruct (flow_loop items 0 false fadeout0 total0) as [[evs' res'] fin'].
      reflexivity.
    + destruct (stream_track item sd uc seek fade_in fadeout)
        as [evs [carry written|e]]; [|discriminate].
      destruct (flow_loop before 0 false carry (total + written))
        as [[evs' res] fin] eqn:Hb.
      injection H as <- -> ->. rewrite (Hrest _ _ _ Hb).
      destruct (flow_loop items 0 false fadeout0 total0)
        as [[evs'' res'] fin'].
      rewrite app_assoc. reflexivity.
Qed.

(** C1, as the code has it.  Take any transition of a flow stream: the
    queue is the items [before], then track N with [use_crossfade], then
    track N+1, then the items [more], and the loop over [before] ends
    without an exception with [fadeout0] carried and [total0] bytes
    written.  Let neither of the two tracks be reported as a stream error,
    [crossfade_size] be positive and not exceed track N+1's buffer size (it
    never does when that track crossfades too), and the crossfade helper
    return [crossfade_size] bytes for two parts of that size.  Let track N
    start without a carried fade-out, or with one of [crossfade_size] bytes
    and then hold back [crossfade_size] bytes itself.  Then track N holds
    back [crossfade_size] bytes, and the bytes yielded during the two
    tracks' passes are the bytes of the two source streams minus
    [crossfade_size], minus the fade-out track N+1 holds back in its turn;
    that part has at most [crossfade_size] bytes, is empty when track N+1
    does not crossfade, and is what the loop carries into the pass of the
    first item of [more]. *)
Theorem crossfade_collapses_one_window
    crossfade_enabled start_queue_item upcoming seek fade_in
    before itemN itemN1 use_crossfade1 more evs0 fadeout0 total0
    sdN sdN1 evsN carryN writtenN evsN1 finN1 :
  is_pcm (content_type pcm_format) = true ->
  (start_queue_item, crossfade_enabled) :: upcoming
  = before ++ (itemN, true) :: (itemN1, use_crossfade1) :: more ->
  flow_loop before seek fade_in [] 0 = (evs0, None, (fadeout0, total0)) ->
  get_stream_details itemN = inr sdN ->
  get_stream_details itemN1 = inr sdN1 ->
  (forall fadein fadeout,
      len fadein = crossfade_size -> len fadeout = crossfade_size ->
      len (crossfade_pcm_parts fadein fadeout (bit_depth pcm_format)
             (sample_rate pcm_format)) = crossfade_size) ->
  0 < crossfade_size <= buffer_size use_crossfade1 ->
  let seekN := match before with [] => seek | _ :: _ => 0 end in
  let fade_inN := match before with [] => fade_in | _ :: _ => false end in
  stream_track itemN sdN true seekN fade_inN fadeout0
  = (evsN, Next carryN writtenN) ->
  has_stream_error evsN = false ->
  fadeout0 = []
  \/ (len fadeout0 = crossfade_size /\ len carryN = crossfade_size) ->
  stream_track itemN1 sdN1 use_crossfade1 0 false carryN = (evsN1, finN1) ->
  has_stream_error evsN1 = false ->
  exists carryN1,
    finN1 = Next carryN1 (bytes_yielded evsN1)
    /\ len carryN = crossfade_size
    /\ bytes_yielded evsN + bytes_yielded evsN1
       = total_len
           (get_media_stream sdN pcm_format seekN fade_inN (truthy fadeout0))
         + total_len (get_media_stream sdN1 pcm_format 0 false true)
         - crossfade_size - len carryN1
    /\ len carryN1 <= crossfade_size
    /\ (use_crossfade1 = false -> carryN1 = [])
    /\ Flow.get_flow_stream crossfade_pcm_parts get_stream_details
         get_media_stream is_pcm pcm_format crossfade_duration_conf
         crossfade_enabled start_queue_item upcoming seek fade_in
       = (let '(evs, res, fin) :=
            flow_loop more 0 false carryN1
              (total0 + bytes_yielded evsN + bytes_yielded evsN1) in
          (evs0 ++ evsN ++ evsN1 ++ evs, res, fin)).
Proof.
  intros Hpcm Hqueue Hbefore HsdN HsdN1 Hxf Hcs seekN fade_inN
    HN HerrN Hcarry HN1 HerrN1.
  assert (Hheld : writtenN = bytes_yielded evsN
                  /\ len carryN = crossfade_size
                  /\ bytes_yielded evsN
                     = total_len
                         (get_media_stream sdN pcm_format seekN fade_inN
                            (truthy fadeout0))
                       - crossfade_size).
  { destruct Hcarry as [->|[Hl0 HlN]].
    - destruct (stream_track_holds_back _ _ _ _ _ _ (proj1 Hcs) HN HerrN)
        as (c & Hc & Hlen & Hy).
      injection Hc as <- ->. auto.
    - assert (Hbs : 0 < crossfade_size <= buffer_size true)
        by (simpl; lia).
      destruct (stream_track_crossfades _ _ _ _ _ _ _ _ Hxf Hbs Hl0 HN HerrN)
        as (c & Hc & _ & _ & Hy).
      injection Hc as <- ->.
      replace (truthy fadeout0) with true
        by (symmetry; apply truthy_len; lia).
      split; [reflexivity|]. split; [assumption|]. lia. }
  destruct Hheld as (-> & HlenN & HyN).
  destruct (stream_track_crossfades _ _ _ _ _ _ _ _ Hxf Hcs HlenN HN1 HerrN1)
    as (carryN1 & -> & HlenN1 & Hplain & HyN1).
  exists carryN1. split; [reflexivity|]. split; [assumption|].
  split; [lia|]. split; [assumption|]. split; [assumption|].
  unfold Flow.get_flow_stream. rewrite Hpcm, Hqueue.
  rewrite (flow_loop_app _ _ _ _ _ _ _ _ _ Hbefore).
  fold seekN fade_inN. simpl. rewrite HsdN, HN, HsdN1, HN1.
  destruct (flow_loop more 0 false carryN1
              (total0 + bytes_yielded evsN + bytes_yielded evsN1))
    as [[evs res] fin].
  reflexivity.
Qed.

(** *** Short tracks, and what is yielded byte for byte *)

(** Below the threshold a chunk is only buffered. *)
Lemma on_chunk_fill uc st chunk :
  len (buffer st)
    < (if truthy (last_fadeout_part st) then buffer_size uc
       else buffer_size uc * 2) ->
  on_chunk uc st chunk
  = ([], {| last_fadeout_part := last_fadeout_part st;
            buffer := buffer st ++ chunk;
            bytes_written := bytes_written st |}).
Proof.
  intros Hlt. pose proof (len_nonneg (buffer st)) as Hpos.
  unfold Flow.on_chunk. cbv zeta.
  destruct (truthy (last_fadeout_part st)); cbn [andb].
  - destruct (Z.leb_spec (buffer_size uc) (len (buffer st))); [lia|].
    destruct (Z.leb_spec (buffer_size uc * 2) (len (buffer st))); [lia|].
    reflexivity.
  - destruct (Z.leb_spec (buffer_size uc * 2) (len (buffer st))); [lia|].
    reflexivity.
Qed.

(** The chunk loop yields nothing as long as the chunks before the last
    one stay below the threshold. *)
Lemma media_loop_short uc chunks : forall st,
  len (buffer st) + total_len (removelast chunks)
    < (if truthy (last_fadeout_part st) then buffer_size uc
       else buffer_size uc * 2) ->
  media_loop uc st chunks
  = ([], {| last_fadeout_part := last_fadeout_part st;
            buffer := buffer st ++ concat chunks;
            bytes_written := bytes_written st |}).
Proof.
  induction chunks as [|chunk more IH]; intros st Hlt.
  - destruct st. simpl. rewrite app_nil_r. reflexivity.
  - cbn [media_loop].
    assert (Hnow : len (buffer st)
                   < (if truthy (last_fadeout_part st) then buffer_size uc
                      else buffer_size uc * 2)).
    { pose proof (total_len_nonneg (removelast (chunk :: more))). lia. }
    rewrite (on_chunk_fill _ _ _ Hnow).
    destruct more as [|next more'].
    + simpl. rewrite app_nil_r. reflexivity.
    + rewrite IH.
      * cbn [last_fadeout_part buffer bytes_written concat app].
        rewrite <- app_assoc. reflexivity.
      * cbn [last_fadeout_part buffer].
        change (removelast (chunk :: next :: more'))
          with (chunk :: removelast (next :: more')) in Hlt.
        rewrite total_len_cons in Hlt. rewrite len_app. lia.
Qed.

(** Without a carried fade-out the chunk loop passes the bytes through:
    what it yields and what it keeps in the buffer are the bytes it had
    and the chunk, in order; and it yields no empty chunk. *)
Lemma on_chunk_content uc st chunk out st' :
  0 < buffer_size uc ->
  last_fadeout_part st = [] ->
  on_chunk uc st chunk = (out, st') ->
  last_fadeout_part st' = []
  /\ concat out ++ buffer st' = buffer st ++ chunk
  /\ Forall (fun c => c <> []) out.
Proof.
  intros Hbs Hc. unfold Flow.on_chunk. rewrite Hc. simpl.
  destruct (_ * 2 <=? len (buffer st)) eqn:Hs; intros H; from_pair H; simpl.
  - apply Z.leb_le in Hs. split; [reflexivity|].
    rewrite app_nil_r, app_assoc, slice_split. split; [reflexivity|].
    constructor; [|constructor]. intros E.
    assert (Hl : len (slice_to (buffer st) (buffer_size uc)) = buffer_size uc)
      by (apply len_slice_to; lia).
    rewrite E, len_nil in Hl. lia.
  - auto.
Qed.

Lemma media_loop_content uc chunks : forall st out st',
  0 < buffer_size uc ->
  last_fadeout_part st = [] ->
  media_loop uc st chunks = (out, st') ->
  last_fadeout_part st' = []
  /\ concat out ++ buffer st' = buffer st ++ concat chunks
  /\ Forall (fun c => c <> []) out.
Proof.
  induction chunks as [|chunk more IH]; intros st out st' Hbs Hc; simpl.
  - intros H; from_pair H. simpl. rewrite app_nil_r. auto.
  - destruct (on_chunk uc st chunk) as [out1 st1] eqn:H1.
    destruct (media_loop uc st1 more) as [outs st2] eqn:H2.
    intros H; from_pair H.
    destruct (on_chunk_content _ _ _ _ _ Hbs Hc H1) as (Hc1 & Hcat1 & Hne1).
    destruct (IH _ _ _ Hbs Hc1 H2) as (Hc2 & Hcat2 & Hne2).
    split; [assumption|]. split.
    + rewrite concat_app, <- app_assoc, Hcat2, app_assoc, Hcat1, <- app_assoc.
      reflexivity.
    + apply Forall_app. auto.
Qed.

Lemma buffer_size_pcm_sample_size uc : 0 < buffer_size uc -> pcm_sample_size <> 0.
Proof.
  unfold Flow.buffer_size, Flow.crossfade_size. intros H E. rewrite E in H.
  destruct uc; lia.
Qed.

(** A track that is too short is not played at all.  As long as the chunks
    of the track, the last one left aside, hold fewer bytes than two
    buffers (one second buffer when a fade-out is carried, since then the
    crossfade is made as soon as one is filled), nothing is written inside
    the chunk loop, and the end of the track takes that for a stream
    error: no chunk is yielded, [seconds_streamed] is set to 0 and the
    carried fade-out stays as it is. *)
Theorem short_track_is_dropped item sd uc seek fade_in fadeout :
  total_len
    (removelast (get_media_stream sd pcm_format seek fade_in (truthy fadeout)))
    < (if truthy fadeout then buffer_size uc else buffer_size uc * 2) ->
  stream_track item sd uc seek fade_in fadeout
  = ([SetSecondsSkipped (queue_item_id item) seek;
      LogWarning "Stream error on %s" (uri sd);
      SetSecondsStreamed (queue_item_id item) (inject_Z 0)],
     Next fadeout 0).
Proof.
  intros Hshort. unfold Flow.stream_track.
  rewrite media_loop_short by (simpl; rewrite len_nil; lia).
  unfold Flow.end_of_track. simpl. reflexivity.
Qed.

(** A track that starts without a carried fade-out and is not a stream
    error is passed on byte for byte: the chunks yielded, followed by the
    part held back for the crossfade into the next track, are the bytes of
    the source.  Without crossfade nothing is held back; with crossfade it
    is the last [crossfade_size] bytes. *)
Theorem track_without_carry_keeps_every_byte
    item sd uc seek fade_in evs fin :
  0 < buffer_size uc ->
  stream_track item sd uc seek fade_in [] = (evs, fin) ->
  has_stream_error evs = false ->
  let source := concat (get_media_stream sd pcm_format seek fade_in false) in
  exists carry,
    fin = Next carry (bytes_yielded evs)
    /\ concat (yielded evs) ++ carry = source
    /\ carry = (if uc then slice_from source (- crossfade_size) else []).
Proof.
  intros Hbs H Herr source.
  pose proof (buffer_size_pcm_sample_size _ Hbs) as Hpss.
  assert (Hbs0 : 0 <= buffer_size uc) by lia.
  destruct (stream_track_conservation _ _ _ _ _ _ _ _ Hpss Hbs0 H Herr)
    as (out & st & carry & Hloop & Hfin & Hne & Hnz & _ & Hcf & Hncf).
  simpl in Hloop.
  destruct (media_loop_plain _ _
              {| last_fadeout_part := []; buffer := []; bytes_written := 0 |}
              _ _ Hbs0 eq_refl Hloop) as (_ & _ & Hfull).
  destruct (media_loop_content _ _
              {| last_fadeout_part := []; buffer := []; bytes_written := 0 |}
              _ _ Hbs eq_refl Hloop) as (Hc & Hcat & _).
  simpl in Hfull, Hcat. fold source in Hcat.
  assert (Hlen : buffer_size uc <= len (buffer st))
    by (apply Hfull; right; assumption).
  assert (Hb : truthy (buffer st) = true) by (apply truthy_len; lia).
  apply stream_track_shape in H as (out' & st' & fin_evs & Hloop' & Hend & ->).
  simpl in Hloop'. rewrite Hloop in Hloop'.
  injection Hloop' as Eout Est. subst out' st'.
  exists carry. split; [assumption|].
  change (SetSecondsSkipped (queue_item_id item) seek
            :: map Yield out ++ fin_evs)
    with ([SetSecondsSkipped (queue_item_id item) seek]
            ++ map Yield out ++ fin_evs).
  rewrite !yielded_app, yielded_map_Yield. cbn [yielded omap app].
  revert Hend. unfold Flow.end_of_track.
  destruct (bytes_written st =? 0) eqn:Hw;
    [apply Z.eqb_eq in Hw; contradiction|].
  rewrite Hb. cbn [andb]. unfold true_div.
  replace (pcm_sample_size =? 0) with false
    by (symmetry; apply Z.eqb_neq; assumption).
  assert (Hcarry : carry = if uc then slice_from (buffer st) (- crossfade_size)
                           else []).
  { destruct uc.
    - apply Hcf. rewrite Hb. reflexivity.
    - rewrite <- Hc. apply Hncf. rewrite Hb. reflexivity. }
  clear Hfin.
  destruct uc; intros Hend; injection Hend as <- _;
    cbn [yielded omap list_omap app];
    rewrite concat_app; cbn [concat]; rewrite app_nil_r, <- app_assoc;
    rewrite Hcarry.
  - rewrite slice_split. split; [assumption|].
    rewrite <- Hcat. symmetry. apply slice_from_end_app.
    simpl in Hbs, Hlen. lia.
  - rewrite app_nil_r. split; [assumption|reflexivity].
Qed.

(** With crossfade the end of a track can yield an empty chunk.  Take a
    track that starts with a carried fade-out, whose crossfade is made when
    chunk [c] arrives, and whose chunks after [c] hold at most
    [crossfade_size] bytes: all of them are held back for the next
    crossfade, and the chunk yielded before them, [buffer[:-crossfade_size]],
    is empty. *)
Theorem short_tail_yields_empty_chunk
    item sd seek fade_in fadeout pre c post :
  (forall fadein fadeout,
      len fadein = crossfade_size -> len fadeout = crossfade_size ->
      len (crossfade_pcm_parts fadein fadeout (bit_depth pcm_format)
             (sample_rate pcm_format)) = crossfade_size) ->
  0 < crossfade_size ->
  len fadeout = crossfade_size ->
  get_media_stream sd pcm_format seek fade_in true = pre ++ c :: post ->
  total_len (removelast pre) < crossfade_size <= total_len pre ->
  0 < total_len post <= crossfade_size ->
  exists out written,
    stream_track item sd true seek fade_in fadeout
    = (SetSecondsSkipped (queue_item_id item) seek
         :: map Yield (out ++ [[]])
         ++ [SetSecondsStreamed (queue_item_id item)
               (Qdiv (inject_Z written) (inject_Z pcm_sample_size))],
       Next (concat post) written)
    /\ written = total_len out
    /\ 0 < written.
Proof.
  intros Hxf Hcs Hl Hsrc Hpre Hpost.
  assert (Ht : truthy fadeout = true) by (apply truthy_len; lia).
  pose proof (crossfade_size_pcm_sample_size Hcs) as Hpss.
  unfold Flow.stream_track. rewrite Ht, Hsrc.
  set (st0 := {| last_fadeout_part := fadeout; buffer := [];
                 bytes_written := 0 |}).
  assert (Happ : forall xs ys st,
             media_loop true st (xs ++ ys)
             = let '(o1, s1) := media_loop true st xs in
               let '(o2, s2) := media_loop true s1 ys in (o1 ++ o2, s2)).
  { induction xs as [|x xs IH]; intros ys st; simpl.
    - destruct (media_loop true st ys); reflexivity.
    - destruct (on_chunk true st x) as [o s]. rewrite IH.
      destruct (media_loop true s xs) as [o1 s1].
      destruct (media_loop true s1 ys) as [o2 s2].
      rewrite app_assoc. reflexivity. }
  rewrite Happ.
  rewrite (media_loop_short true pre st0)
    by (simpl; rewrite Ht, len_nil; simpl; lia).
  cbn [media_loop last_fadeout_part buffer bytes_written st0 app].
  set (st1 := {| last_fadeout_part := fadeout; buffer := concat pre;
                 bytes_written := 0 |}).
  pose proof (len_nonneg c) as Hc0.
  assert (Hin : 0 <= crossfade_size <= len (concat pre ++ c))
    by (rewrite len_app, len_concat; lia).
  pose proof (Hxf _ _ (len_slice_to _ _ Hin) Hl) as Hx.
  set (cross := crossfade_pcm_parts (slice_to (concat pre ++ c) crossfade_size)
                  fadeout (bit_depth pcm_format) (sample_rate pcm_format))
    in Hx.
  set (rest := slice_from (concat pre ++ c) crossfade_size).
  assert (Hstep : exists out1 w1,
             on_chunk true st1 c
             = (out1, {| last_fadeout_part := []; buffer := [];
                         bytes_written := w1 |})
             /\ w1 = total_len out1 /\ 0 < w1).
  { unfold Flow.on_chunk. cbv zeta. cbn [last_fadeout_part buffer st1].
    rewrite Ht. cbn [andb].
    replace (buffer_size true <=? len (concat pre))
      with true by (symmetry; apply Z.leb_le; simpl; rewrite len_concat; lia).
    fold cross rest. pose proof (len_nonneg rest) as Hrest.
    destruct (truthy rest); eexists _, _; (split; [reflexivity|]);
      simpl; split; lia. }
  destruct Hstep as (out1 & w1 & Hon & Hw1 & Hw1pos). rewrite Hon.
  rewrite (media_loop_short true post)
    by (simpl; pose proof (total_len_removelast post); rewrite len_nil; lia).
  cbn [last_fadeout_part buffer bytes_written app].
  unfold Flow.end_of_track. cbn [bytes_written buffer last_fadeout_part].
  replace (w1 =? 0) with false by (symmetry; apply Z.eqb_neq; lia).
  assert (Hb : truthy (concat post) = true)
    by (apply truthy_len; rewrite len_concat; lia).
  rewrite Hb. cbn [andb].
  rewrite slice_to_end_short, slice_from_end_short
    by (try rewrite len_concat; lia).
  rewrite len_nil, Z.add_0_r. unfold true_div.
  replace (pcm_sample_size =? 0) with false
    by (symmetry; apply Z.eqb_neq; assumption).
  exists out1, w1. split; [|split; assumption].
  rewrite !app_nil_r, map_app, <- app_assoc. reflexivity.
Qed.

(** *** Queues without crossfade *)

(** A track without crossfade and without a carried fade-out yields no
    empty chunk and carries nothing over. *)
Lemma plain_track_nonempty item sd seek fade_in evs fin :
  0 < pcm_sample_size ->
  stream_track item sd false seek fade_in [] = (evs, fin) ->
  Forall (fun c => c <> []) (yielded evs)
  /\ forall carry written, fin = Next carry written -> carry = [].
Proof.
  intros Hpss H.
  assert (Hbs : 0 < buffer_size false) by (simpl; lia).
  apply stream_track_shape in H as (out & st & fin_evs & Hloop & Hend & ->).
  destruct (media_loop_content _ _
              {| last_fadeout_part := []; buffer := []; bytes_written := 0 |}
              _ _ Hbs eq_refl Hloop) as (Hc & _ & Hne).
  change (SetSecondsSkipped (queue_item_id item) seek
            :: map Yield out ++ fin_evs)
    with ([SetSecondsSkipped (queue_item_id item) seek]
            ++ map Yield out ++ fin_evs).
  rewrite !yielded_app, yielded_map_Yield. cbn [yielded omap list_omap app].
  revert Hend. unfold Flow.end_of_track, true_div.
  replace (pcm_sample_size =? 0) with false
    by (symmetry; apply Z.eqb_neq; lia).
  rewrite andb_false_r.
  destruct (bytes_written st =? 0).
  - intros Hend; from_pair Hend. simpl. rewrite app_nil_r.
    split; [assumption|]. intros carry written E. congruence.
  - destruct (truthy (buffer st)) eqn:Hb; intros Hend; from_pair Hend.
    + split; [|intros carry written E; congruence].
      apply Forall_app. split; [assumption|]. simpl.
      constructor; [|constructor]. intros E. rewrite E in Hb. discriminate.
    + simpl. rewrite app_nil_r.
      split; [assumption|]. intros carry written E. congruence.
Qed.

(** A queue played without crossfade never makes the generator yield an
    empty chunk, which a subscriber of a multi-client job would take for
    the end of the stream. *)
Theorem no_empty_chunk_without_crossfade items :
  forall seek fade_in total evs res fin,
  0 < pcm_sample_size ->
  Forall (fun it : QueueItem * bool => it.2 = false) items ->
  flow_loop items seek fade_in [] total = (evs, res, fin) ->
  Forall (fun c => c <> []) (yielded evs).
Proof.
  induction items as [|[item uc] more IH];
    intros seek fade_in total evs res fin Hpss Hall; simpl.
  - intros H; from_pair H. constructor.
  - apply Forall_cons in Hall as [Huc Hmore]. simpl in Huc. subst uc.
    destruct (get_stream_details item) as [e|sd].
    + destruct e; try (intros H; from_pair H; constructor).
      destruct (flow_loop more 0 false [] total) as [[evs' res'] fin'] eqn:Hrest.
      intros H; from_pair H. simpl.
      exact (IH _ _ _ _ _ _ Hpss Hmore Hrest).
    + destruct (stream_track item sd false seek fade_in []) as [evs1 fin1]
        eqn:Htrack.
      destruct (plain_track_nonempty _ _ _ _ _ _ Hpss Htrack) as (Hne & Hcarry).
      destruct fin1 as [carry written|e].
      * rewrite (Hcarry _ _ eq_refl).
        destruct (flow_loop more 0 false [] (total + written))
          as [[evs' res'] fin'] eqn:Hrest.
        intros H; from_pair H. rewrite yielded_app. apply Forall_app.
        split; [assumption|]. exact (IH _ _ _ _ _ _ Hpss Hmore Hrest).
      * intros H; from_pair H. assumption.
Qed.

(** *** The end of the queue *)

(** When the queue ends after a crossfading track, the part held back for
    the next crossfade is never yielded: for a queue of one such track the
    generator ends normally having yielded the source without its last
    [crossfade_size] bytes. *)
Theorem queue_end_drops_held_back_part start_queue_item sd seek fade_in :
  is_pcm (content_type pcm_format) = true ->
  get_stream_details start_queue_item = inr sd ->
  0 < crossfade_size ->
  let source := concat (get_media_stream sd pcm_format seek fade_in false) in
  let run :=
    get_flow_stream crossfade_pcm_parts get_stream_details get_media_stream
      is_pcm pcm_format crossfade_duration_conf true start_queue_item []
      seek fade_in in
  has_stream_error run.1.1 = false ->
  run.1.2 = None
  /\ concat (yielded run.1.1) = slice_to source (- crossfade_size)
  /\ run.2.1 = slice_from source (- crossfade_size)
  /\ len run.2.1 = crossfade_size.
Proof.
  intros Hpcm Hsd Hcs source run. subst run.
  unfold Flow.get_flow_stream. rewrite Hpcm. simpl. rewrite Hsd.
  destruct (stream_track start_queue_item sd true seek fade_in [])
    as [evs fin] eqn:Htrack.
  assert (Herr : has_stream_error evs = false ->
                 exists carry,
                   fin = Next carry (bytes_yielded evs)
                   /\ concat (yielded evs) ++ carry = source
                   /\ carry = slice_from source (- crossfade_size)
                   /\ len carry = crossfade_size).
  { intros Herr.
    destruct (track_without_carry_keeps_every_byte _ _ true _ _ _ _ Hcs
                Htrack Herr) as (carry & Hfin & Hcat & Hcarry).
    destruct (stream_track_holds_back _ _ _ _ _ _ Hcs Htrack Herr)
      as (carry' & Hfin' & Hlen & _).
    rewrite Hfin in Hfin'. injection Hfin' as <-.
    exists carry. auto. }
  destruct fin as [carry written|e]; simpl.
  - rewrite app_nil_r. intros Hno.
    destruct (Herr Hno) as (carry' & Hfin & Hcat & Hcarry & Hlen).
    from_pair Hfin. split; [reflexivity|].
    split; [|split; [reflexivity|assumption]].
    apply (app_inv_tail (slice_from source (- crossfade_size))).
    rewrite slice_split. exact Hcat.
  - intros Hno. destruct (Herr Hno) as (carry' & Hfin & _). discriminate.
Qed.

End Generator.

(** *** The theorems at the sample inputs *)

(** The queue "gone", "2": the first item is skipped with a warning and the
    second one is streamed. *)
Lemma missing_streamdetails_skips_track_witness :
  exists evs res fin,
    Flow.flow_loop Sample.keep_fadein Sample.get_stream_details
      Sample.get_media_stream Sample.pcm_1hz (Some 2)
      [(Sample.item "2", true)] 0 false [] 0 = (evs, res, fin)
    /\ Flow.flow_loop Sample.keep_fadein Sample.get_stream_details
         Sample.get_media_stream Sample.pcm_1hz (Some 2)
         [(Sample.item "gone", true); (Sample.item "2", true)] 30 true [] 0
       = (LogWarning "Skip track %s due to missing streamdetails"
            "Track gone" :: evs, res, fin)
    /\ res <> Some MediaNotFoundError.
Proof.
  apply (missing_streamdetails_skips_track Sample.keep_fadein
           Sample.get_stream_details Sample.get_media_stream Sample.pcm_1hz
           (Some 2) (Sample.item "gone") true [(Sample.item "2", true)]
           30 true [] 0).
  reflexivity.
Defined.

(** The first of the two sample tracks: 32 of its 40 bytes are yielded and
    [seconds_streamed] becomes 32 / 4. *)
Lemma seconds_streamed_counts_yielded_bytes_witness :
  seconds_streamed_writes
    (Flow.stream_track Sample.keep_fadein Sample.get_media_stream
       Sample.pcm_1hz (Some 2) (Sample.item "1") Sample.sd1 true 0 false []).1
  = [("1", Qdiv (inject_Z 32) (inject_Z 4))].
Proof.
  apply (seconds_streamed_counts_yielded_bytes Sample.keep_fadein
           Sample.get_stream_details Sample.get_media_stream Sample.pcm_1hz
           (Some 2) (Sample.item "1") Sample.sd1 true 0 false [] [] 0).
  - vm_compute. reflexivity.
  - vm_compute. discriminate.
  - reflexivity.
Defined.

(** C1 as stated fails on the two sample tracks: the sources produce 80
    bytes and [crossfade_size] is 8, yet 64 bytes are yielded, not 72: the
    second track's last 8 bytes are held back as well. *)
Lemma crossfade_collapses_one_window_counterexample :
  total_len (Sample.ten_seconds x01) + total_len (Sample.ten_seconds x02) = 80
  /\ Flow.crossfade_size Sample.pcm_1hz (Some 2) = 8
  /\ bytes_yielded Sample.two_tracks.1.1 = 64
  /\ bytes_yielded Sample.two_tracks.1.1
     <> total_len (Sample.ten_seconds x01) + total_len (Sample.ten_seconds x02)
        - Flow.crossfade_size Sample.pcm_1hz (Some 2).
Proof. vm_compute. repeat split; discriminate. Qed.

(** The transition from the second into the third of the three sample
    tracks.  The second track starts with the 8 bytes the first one held
    back and holds back 8 bytes itself; the two passes yield
    32 + 32 = 40 + 40 - 8 - 8 bytes, and the run ends with the 8 bytes the
    third track held back. *)
Lemma crossfade_collapses_one_window_witness :
  exists carryN1,
    Sample.third_pass.2 = Next carryN1 (bytes_yielded Sample.third_pass.1)
    /\ len (Sample.second_of x02 ++ Sample.second_of x02)
       = Flow.crossfade_size Sample.pcm_1hz (Some 2)
    /\ bytes_yielded Sample.second_pass.1 + bytes_yielded Sample.third_pass.1
       = total_len (Sample.ten_seconds x02) + total_len (Sample.ten_seconds x01)
         - Flow.crossfade_size Sample.pcm_1hz (Some 2) - len carryN1
    /\ len carryN1 <= Flow.crossfade_size Sample.pcm_1hz (Some 2)
    /\ (true = false -> carryN1 = [])
    /\ Sample.three_tracks
       = (Sample.first_pass.1 ++ Sample.second_pass.1 ++ Sample.third_pass.1
            ++ [],
          None,
          (carryN1,
           32 + bytes_yielded Sample.second_pass.1
             + bytes_yielded Sample.third_pass.1)).
Proof.
  apply (crossfade_collapses_one_window Sample.keep_fadein
           Sample.get_stream_details Sample.get_media_stream Sample.is_pcm
           Sample.pcm_1hz (Some 2)
           true (Sample.item "1")
           [(Sample.item "2", true); (Sample.item "1", true)] 0 false
           [(Sample.item "1", true)] (Sample.item "2") (Sample.item "1") true
           [] Sample.first_pass.1
           (Sample.second_of x01 ++ Sample.second_of x01) 32
           Sample.sd2 Sample.sd1
           Sample.second_pass.1
           (Sample.second_of x02 ++ Sample.second_of x02) 32
           Sample.third_pass.1 Sample.third_pass.2).
  - reflexivity.
  - reflexivity.
  - vm_compute. reflexivity.
  - reflexivity.
  - reflexivity.
  - intros fadein fadeout Hin _. exact Hin.
  - vm_compute. split; [reflexivity|discriminate].
  - vm_compute. reflexivity.
  - vm_compute. reflexivity.
  - right. vm_compute. split; reflexivity.
  - vm_compute. reflexivity.
  - vm_compute. reflexivity.
Defined.

(** A track of four seconds in a queue without crossfade, where the buffer
    holds two seconds: the track is dropped. *)
Lemma short_track_is_dropped_witness :
  Flow.stream_track Sample.keep_fadein Sample.four_second_stream
    Sample.pcm_1hz (Some 2) (Sample.item "1") Sample.sd1 false 0 false []
  = ([SetSecondsSkipped "1" 0;
      LogWarning "Stream error on %s" "library://track/1";
      SetSecondsStreamed "1" (inject_Z 0)],
     Next [] 0).
Proof.
  apply (short_track_is_dropped Sample.keep_fadein Sample.four_second_stream
           Sample.pcm_1hz (Some 2) (Sample.item "1") Sample.sd1 false 0 false
           []).
  vm_compute. reflexivity.
Defined.

(** The first sample track with crossfade: the 32 bytes yielded and the 8
    bytes held back are the 40 bytes of the source. *)
Lemma track_without_carry_keeps_every_byte_witness :
  exists carry,
    (Flow.stream_track Sample.keep_fadein Sample.get_media_stream
       Sample.pcm_1hz (Some 2) (Sample.item "1") Sample.sd1 true 0 false []).2
    = Next carry 32
    /\ concat
         (yielded
            (Flow.stream_track Sample.keep_fadein Sample.get_media_stream
               Sample.pcm_1hz (Some 2) (Sample.item "1") Sample.sd1 true 0
               false []).1)
       ++ carry
       = concat (Sample.ten_seconds x01)
    /\ carry = slice_from (concat (Sample.ten_seconds x01)) (- 8).
Proof.
  apply (track_without_carry_keeps_every_byte Sample.keep_fadein
           Sample.get_media_stream Sample.pcm_1hz (Some 2) (Sample.item "1")
           Sample.sd1 true 0 false
           (Flow.stream_track Sample.keep_fadein Sample.get_media_stream
              Sample.pcm_1hz (Some 2) (Sample.item "1") Sample.sd1 true 0
              false []).1
           (Flow.stream_track Sample.keep_fadein Sample.get_media_stream
              Sample.pcm_1hz (Some 2) (Sample.item "1") Sample.sd1 true 0
              false []).2).
  - vm_compute. reflexivity.
  - vm_compute. reflexivity.
  - vm_compute. reflexivity.
Defined.

(** A four-second track after a track that left a fade-out of two seconds:
    the crossfade is made when the third second arrives, the fourth second
    is held back, and the chunk yielded at the end is empty. *)
Lemma short_tail_yields_empty_chunk_witness :
  exists out written,
    Flow.stream_track Sample.keep_fadein Sample.four_second_stream
      Sample.pcm_1hz (Some 2) (Sample.item "2") Sample.sd2 true 0 false
      (Sample.second_of x01 ++ Sample.second_of x01)
    = (SetSecondsSkipped "2" 0
         :: map Yield (out ++ [[]])
         ++ [SetSecondsStreamed "2" (Qdiv (inject_Z written) (inject_Z 4))],
       Next (Sample.second_of x03) written)
    /\ written = total_len out
    /\ 0 < written.
Proof.
  apply (short_tail_yields_empty_chunk Sample.keep_fadein
           Sample.four_second_stream Sample.pcm_1hz (Some 2) (Sample.item "2")
           Sample.sd2 0 false (Sample.second_of x01 ++ Sample.second_of x01)
           [Sample.second_of x03; Sample.second_of x03] (Sample.second_of x03)
           [Sample.second_of x03]).
  - intros fadein fadeout Hin _. exact Hin.
  - vm_compute. reflexivity.
  - vm_compute. reflexivity.
  - reflexivity.
  - vm_compute. split; [reflexivity|discriminate].
  - vm_compute. split; [reflexivity|discriminate].
Defined.

(** The two sample tracks without crossfade: every chunk yielded has
    bytes. *)
Lemma no_empty_chunk_without_crossfade_witness :
  Flow.pcm_sample_size Sample.pcm_1hz = 4
  /\ Forall (fun c => c <> [])
       (yielded
          (Flow.flow_loop Sample.keep_fadein Sample.get_stream_details
             Sample.get_media_stream Sample.pcm_1hz (Some 2)
             [(Sample.item "1", false); (Sample.item "2", false)]
             0 false [] 0).1.1).
Proof.
  split; [reflexivity|].
  destruct (Flow.flow_loop Sample.keep_fadein Sample.get_stream_details
              Sample.get_media_stream Sample.pcm_1hz (Some 2)
              [(Sample.item "1", false); (Sample.item "2", false)]
              0 false [] 0) as [[evs res] fin] eqn:Hrun.
  apply (no_empty_chunk_without_crossfade Sample.keep_fadein
           Sample.get_stream_details Sample.get_media_stream Sample.pcm_1hz
           (Some 2) [(Sample.item "1", false); (Sample.item "2", false)]
           0 false 0 evs res fin).
  - vm_compute. reflexivity.
  - repeat constructor.
  - exact Hrun.
Defined.

(** The first sample track alone in its queue: 32 of its 40 bytes are
    yielded, the last 8 are not. *)
Lemma queue_end_drops_held_back_part_witness :
  Sample.one_track.1.2 = None
  /\ concat (yielded Sample.one_track.1.1)
     = slice_to (concat (Sample.ten_seconds x01)) (- 8)
  /\ Sample.one_track.2.1 = slice_from (concat (Sample.ten_seconds x01)) (- 8)
  /\ len Sample.one_track.2.1 = 8.
Proof.
  apply (queue_end_drops_held_back_part Sample.keep_fadein
           Sample.get_stream_details Sample.get_media_stream Sample.is_pcm
           Sample.pcm_1hz (Some 2) (Sample.item "1") Sample.sd1 0 false).
  - reflexivity.
  - reflexivity.
  - vm_compute. reflexivity.
  - vm_compute. reflexivity.
Defined.

(** When the second sample track does not crossfade it holds nothing back,
    and the run yields 72 = 80 - 8 bytes. *)
Example last_track_without_crossfade :
  let run :=
    Flow.get_flow_stream Sample.keep_fadein Sample.get_stream_details
      Sample.get_media_stream Sample.is_pcm Sample.pcm_1hz (Some 2)
      true (Sample.item "1") [(Sample.item "2", false)] 0 false in
  bytes_yielded run.1.1 = 72 /\ run.2.1 = [] /\ run.1.2 = None.
Proof. vm_compute. repeat split; reflexivity. Qed.

(** A transition where track N was crossfaded into and is too short to hold
    back [crossfade_size] bytes after that.  A ten-second track, a
    four-second track and a ten-second track, all crossfading: the second
    track holds back 4 bytes only, and the passes of the second and the
    third track yield 12 + 32 = 44 bytes, where their sources have
    16 + 40 bytes and 56 - 8 - 8 is 40. *)
Example short_track_between_crossfades :
  let stream_track :=
    Flow.stream_track Sample.keep_fadein Sample.short_second_track
      Sample.pcm_1hz (Some 2) in
  let pass1 := stream_track (Sample.item "1") Sample.sd1 true 0 false [] in
  let pass2 :=
    stream_track (Sample.item "2") Sample.sd2 true 0 false
      (Sample.second_of x01 ++ Sample.second_of x01) in
  let pass3 :=
    stream_track (Sample.item "1") Sample.sd1 true 0 false
      (Sample.second_of x02) in
  Flow.get_flow_stream Sample.keep_fadein Sample.get_stream_details
    Sample.short_second_track Sample.is_pcm Sample.pcm_1hz (Some 2)
    true (Sample.item "1") [(Sample.item "2", true); (Sample.item "1", true)]
    0 false
  = (pass1.1 ++ pass2.1 ++ pass3.1, None,
     (Sample.second_of x01 ++ Sample.second_of x01, 76))
  /\ pass1.2 = Next (Sample.second_of x01 ++ Sample.second_of x01) 32
  /\ pass2.2 = Next (Sample.second_of x02) 12
  /\ pass3.2 = Next (Sample.second_of x01 ++ Sample.second_of x01) 32
  /\ has_stream_error pass2.1 = false
  /\ has_stream_error pass3.1 = false
  /\ bytes_yielded pass2.1 + bytes_yielded pass3.1 = 44
  /\ total_len (Sample.short_second_track Sample.sd2 Sample.pcm_1hz 0 false
                  true)
     + total_len (Sample.short_second_track Sample.sd1 Sample.pcm_1hz 0 false
                    true)
     - Flow.crossfade_size Sample.pcm_1hz (Some 2)
     - len (Sample.second_of x01 ++ Sample.second_of x01) = 40.
Proof. vm_compute. repeat split; reflexivity. Qed.

(** A provider error other than [MediaNotFoundError] leaves the
    generator. *)
Example provider_error_propagates :
  (Flow.get_flow_stream Sample.keep_fadein Sample.get_stream_details
     Sample.get_media_stream Sample.is_pcm Sample.pcm_1hz (Some 2)
     true (Sample.item "broken") [(Sample.item "2", true)] 0 false).1
  = ([], Some (OtherError "provider")).
Proof. reflexivity. Qed.

End FlowProps.

(** ** Output format negotiation *)

Module FormatProps.
Import Format.

Section Negotiation.

Variable to_ascii : string -> string.
Variable unquote : string -> string.
Variable try_parse : string -> ContentType.
Variable is_pcm : ContentType -> bool.
Variable from_bit_depth : Z -> ContentType.
Variable get_player_config_value : string -> string -> string.

Local Abbreviation pcm_params := (pcm_params unquote).
Local Abbreviation parse_pcm_info := (parse_pcm_info to_ascii unquote).
Local Abbreviation int_param := (int_param to_ascii).
Local Abbreviation _get_output_format :=
  (_get_output_format to_ascii unquote try_parse is_pcm from_bit_depth
     get_player_config_value).

(** What [_get_output_format] returns on its first branch. *)
Lemma get_output_format_pcm s player dsr dbd :
  is_pcm (try_parse s) || ContentType_eqb (try_parse s) WAV = true ->
  _get_output_format s player dsr dbd
  = (let* (rate, bits, chans) := parse_pcm_info s in
     inr {| content_type :=
              if ContentType_eqb (try_parse s) PCM then from_bit_depth bits
              else try_parse s;
            sample_rate := rate; bit_depth := bits; channels := chans;
            output_format_str := s |}).
Proof. intros Hpcm. unfold Format._get_output_format. rewrite Hpcm. reflexivity. Qed.

Lemma int_param_missing (params : gmap string string) key default :
  params !! key = None -> int_param params key default = inr default.
Proof. intros H. unfold int_param. rewrite H. reflexivity. Qed.

Lemma pcm_params_no_semicolon s :
  contains_char ";" s = false -> pcm_params s = ∅.
Proof. intros H. unfold Format.pcm_params. rewrite H. reflexivity. Qed.

Lemma parse_pcm_info_inv s rate bits chans :
  parse_pcm_info s = inr (rate, bits, chans) ->
  int_param (pcm_params s) "rate" 44100 = inr rate
  /\ int_param (pcm_params s) "bitrate" 16 = inr bits
  /\ int_param (pcm_params s) "channels" 2 = inr chans.
Proof.
  unfold Format.parse_pcm_info.
  destruct (int_param _ "rate" _) as [e|r]; [discriminate|].
  destruct (int_param _ "bitrate" _) as [e|b]; [discriminate|].
  destruct (int_param _ "channels" _) as [e|c]; [discriminate|].
  simpl. intros H. inversion H. auto.
Qed.

(** C2.  When the format string does not parse as PCM or WAV,
    [_get_output_format] returns the sample rate
    [min(default_sample_rate, max_sample_rate)], the bit depth
    [min(default_bit_depth, 32 or 16)] by the player's 24-bit support, and
    2 channels for the configuration value "stereo", 1 for "mono", "left"
    and "right".  When it does, the three numbers [parse_pcm_info] reads
    from the string are the result's sample rate, bit depth and channels,
    whatever the player and the defaults are. *)
Theorem output_format_follows_player_or_url s player dsr dbd :
  let content_type := try_parse s in
  let conf :=
    get_player_config_value (player_id player) CONF_OUTPUT_CHANNELS in
  (is_pcm content_type || ContentType_eqb content_type WAV = false ->
   exists fmt,
     _get_output_format s player dsr dbd = inr fmt
     /\ sample_rate fmt = Z.min dsr (max_sample_rate player)
     /\ bit_depth fmt
        = Z.min dbd (if supports_24bit player then 32 else 16)
     /\ (conf = "stereo" -> channels fmt = 2)
     /\ (In conf ["mono"; "left"; "right"] -> channels fmt = 1))
  /\ (is_pcm content_type || ContentType_eqb content_type WAV = true ->
      forall rate bits chans,
        parse_pcm_info s = inr (rate, bits, chans) ->
        exists fmt,
          _get_output_format s player dsr dbd = inr fmt
          /\ sample_rate fmt = rate
          /\ bit_depth fmt = bits
          /\ channels fmt = chans).
Proof.
  intros content_type conf. split.
  - intros Hother. unfold Format._get_output_format.
    fold content_type. rewrite Hother. eexists. split; [reflexivity|].
    simpl. fold conf. repeat split.
    + intros ->. reflexivity.
    + intros [<-|[<-|[<-|[]]]]; reflexivity.
  - intros Hpcm rate bits chans Hinfo.
    rewrite (get_output_format_pcm _ _ _ _ Hpcm), Hinfo. simpl.
    eexists. split; [reflexivity|]. auto.
Qed.

(** C10.  When the format string parses as PCM or WAV: a string without
    any parameter resolves to 44100 Hz, 16 bits and 2 channels; and in
    every format the call returns, a [rate], [bitrate] or [channels] that
    the string's parameters do not have is 44100, 16 or 2.  Neither the
    defaults passed in nor the player changes this. *)
Theorem pcm_defaults_ignore_player_caps s player dsr dbd :
  is_pcm (try_parse s) || ContentType_eqb (try_parse s) WAV = true ->
  (contains_char ";" s = false ->
   exists content_type,
     _get_output_format s player dsr dbd
     = inr {| content_type := content_type; sample_rate := 44100;
              bit_depth := 16; channels := 2; output_format_str := s |})
  /\ (forall fmt,
        _get_output_format s player dsr dbd = inr fmt ->
        (pcm_params s !! "rate" = None -> sample_rate fmt = 44100)
        /\ (pcm_params s !! "bitrate" = None -> bit_depth fmt = 16)
        /\ (pcm_params s !! "channels" = None -> channels fmt = 2)).
Proof.
  intros Hpcm. rewrite (get_output_format_pcm _ _ _ _ Hpcm). split.
  - intros Hplain. unfold Format.parse_pcm_info.
    rewrite (pcm_params_no_semicolon _ Hplain). simpl. eexists. reflexivity.
  - intros fmt.
    destruct (parse_pcm_info s) as [e|[[rate bits] chans]] eqn:Hinfo;
      [discriminate|].
    apply parse_pcm_info_inv in Hinfo as (Hrate & Hbits & Hchans).
    simpl. intros H. inversion H; subst; clear H. simpl.
    repeat split; intros Hmissing.
    + rewrite (int_param_missing _ _ _ Hmissing) in Hrate. congruence.
    + rewrite (int_param_missing _ _ _ Hmissing) in Hbits. congruence.
    + rewrite (int_param_missing _ _ _ Hmissing) in Hchans. congruence.
Qed.

End Negotiation.

(** *** The theorems at the sample inputs *)

(** "flac" on the kitchen player (44.1 kHz, 16 bits, left channel) and the
    spec's scenario 7: explicit PCM parameters on a player limited to
    48 kHz stay as the URL has them. *)
Lemma output_format_follows_player_or_url_witness :
  (exists fmt,
      Sample.get_output_format "flac" Sample.kitchen 96000 24 = inr fmt
      /\ sample_rate fmt = Z.min 96000 44100
      /\ bit_depth fmt = Z.min 24 16
      /\ ("left" = "stereo" -> channels fmt = 2)
      /\ (In "left" ["mono"; "left"; "right"] -> channels fmt = 1))
  /\ (exists fmt,
        Sample.get_output_format "pcm;rate=96000;bitrate=24;channels=2"
          Sample.living_room 96000 24 = inr fmt
        /\ sample_rate fmt = 96000
        /\ bit_depth fmt = 24
        /\ channels fmt = 2).
Proof.
  split.
  - apply (output_format_follows_player_or_url Sample.to_ascii Sample.unquote
             Sample.try_parse Sample.is_pcm Sample.from_bit_depth
             Sample.get_player_config_value "flac" Sample.kitchen 96000 24).
    reflexivity.
  - apply (output_format_follows_player_or_url Sample.to_ascii Sample.unquote
             Sample.try_parse Sample.is_pcm Sample.from_bit_depth
             Sample.get_player_config_value
             "pcm;rate=96000;bitrate=24;channels=2" Sample.living_room
             96000 24).
    + reflexivity.
    + vm_compute. reflexivity.
Defined.

(** "wav" and "pcm;rate=48000" on the kitchen player with the flow
    defaults 96000 and 24. *)
Lemma pcm_defaults_ignore_player_caps_witness :
  (exists content_type,
      Sample.get_output_format "wav" Sample.kitchen 96000 24
      = inr {| content_type := content_type; sample_rate := 44100;
               bit_depth := 16; channels := 2; output_format_str := "wav" |})
  /\ (forall fmt,
        Sample.get_output_format "pcm;rate=48000" Sample.kitchen 96000 24
        = inr fmt ->
        bit_depth fmt = 16 /\ channels fmt = 2).
Proof.
  split.
  - apply (pcm_defaults_ignore_player_caps Sample.to_ascii Sample.unquote
               Sample.try_parse
             Sample.is_pcm Sample.from_bit_depth
             Sample.get_player_config_value "wav" Sample.kitchen 96000 24);
      reflexivity.
  - intros fmt Hfmt.
    destruct (pcm_defaults_ignore_player_caps Sample.to_ascii Sample.unquote
               Sample.try_parse
                Sample.is_pcm Sample.from_bit_depth
                Sample.get_player_config_value "pcm;rate=48000"
                Sample.kitchen 96000 24 eq_refl) as [_ Hmissing].
    destruct (Hmissing fmt Hfmt) as (_ & Hbits & Hchans).
    split; [apply Hbits|apply Hchans]; vm_compute; reflexivity.
Defined.

End FormatProps.

(** ** ICY metadata *)

Module IcyProps.
Import Icy.

Lemma pad_loop_spec rounds : forall metadata,
  (- len metadata) mod 16 <= Z.of_nat rounds ->
  pad_loop rounds metadata
  = metadata ++ repeat x00 (Z.to_nat ((- len metadata) mod 16)).
Proof.
  induction rounds as [|rounds IH]; intros metadata Hfuel; simpl.
  - assert (H0 : (- len metadata) mod 16 = 0)
      by (pose proof (Z.mod_pos_bound (- len metadata) 16); lia).
    rewrite H0. simpl. rewrite app_nil_r. reflexivity.
  - destruct (len metadata mod 16 =? 0) eqn:Hmod.
    + apply Z.eqb_eq in Hmod.
      assert (H0 : (- len metadata) mod 16 = 0)
        by (apply Z.mod_opp_l_z; lia).
      rewrite H0. simpl. rewrite app_nil_r. reflexivity.
    + apply Z.eqb_neq in Hmod.
      assert (Hstep : (- len metadata) mod 16
                      = (- len (metadata ++ [x00])) mod 16 + 1).
      { rewrite len_app. change (len [x00]) with 1.
        pose proof (Z.mod_pos_bound (len metadata) 16).
        rewrite (Z.mod_opp_l_nz (len metadata) 16) by lia.
        replace (- (len metadata + 1)) with (- len metadata - 1) by lia.
        pose proof (Z.mod_pos_bound (- len metadata - 1) 16).
        symmetry.
        assert (Hq : (- len metadata - 1) mod 16
                     = 16 - len metadata mod 16 - 1).
        { symmetry. apply (Z.mod_unique_pos _ _ (- (len metadata / 16) - 1));
            [lia|]. pose proof (Z.div_mod (len metadata) 16). lia. }
        lia. }
      rewrite IH by lia. rewrite Hstep, <- app_assoc. f_equal.
      pose proof (Z.mod_pos_bound (- len (metadata ++ [x00])) 16).
      rewrite Z2Nat.inj_add by lia.
      rewrite Nat.add_comm. reflexivity.
Qed.

(** The padded metadata is the text followed by NUL bytes up to the next
    multiple of 16. *)
Lemma pad16_spec metadata :
  pad16 metadata
  = metadata ++ repeat x00 (Z.to_nat ((- len metadata) mod 16))
  /\ len (pad16 metadata) mod 16 = 0.
Proof.
  assert (Heq : pad16 metadata
                = metadata ++ repeat x00 (Z.to_nat ((- len metadata) mod 16))).
  { apply pad_loop_spec.
    pose proof (Z.mod_pos_bound (- len metadata) 16). lia. }
  split; [exact Heq|]. rewrite Heq, len_app. unfold len at 2.
  rewrite repeat_length, Z2Nat.id
    by (pose proof (Z.mod_pos_bound (- len metadata) 16); lia).
  rewrite Z.add_mod_idemp_r by lia.
  replace (len metadata + - len metadata) with 0 by lia. reflexivity.
Qed.

(** Up to 2047 bytes of padded metadata the block after a chunk is one
    length byte, of value [len(metadata) / 16], and the metadata. *)
Lemma icy_block_short_title current_item :
  let metadata :=
    pad16 (encode ("StreamTitle='" +:+ icy_title current_item +:+ "';")) in
  len metadata < 2048 ->
  icy_block current_item = inr (byte_of (len metadata / 16) :: metadata)
  /\ len metadata mod 16 = 0
  /\ Byte.to_N (byte_of (len metadata / 16)) = Z.to_N (len metadata / 16).
Proof.
  intros metadata Hshort. unfold icy_block. fold metadata.
  pose proof (len_nonneg metadata) as Hpos.
  destruct (pad16_spec (encode ("StreamTitle='" +:+ icy_title current_item
                                  +:+ "';"))) as [_ Hmod].
  fold metadata in Hmod.
  assert (Hq : int_div (len metadata) 16 = len metadata / 16)
    by (unfold int_div; apply Z.quot_div_nonneg; lia).
  rewrite Hq.
  assert (Hrange : 0 <= len metadata / 16 < 128).
  { split; [apply Z.div_pos; lia|apply Z.div_lt_upper_bound; lia]. }
  unfold chr_encode.
  replace (len metadata / 16 <? 0) with false by (symmetry; apply Z.ltb_ge; lia).
  replace (1114111 <? len metadata / 16) with false
    by (symmetry; apply Z.ltb_ge; lia).
  replace (len metadata / 16 <? 128) with true by (symmetry; apply Z.ltb_lt; lia).
  cbv [orb bind]. cbn [app]. repeat split; try assumption.
  unfold byte_of.
  destruct (Byte.of_N (Z.to_N (len metadata / 16))) as [b|] eqn:Hb.
  - apply Byte.to_of_N in Hb. exact Hb.
  - apply Byte.of_N_None_iff in Hb. lia.
Qed.

(** The title falls back from the stream title to the item's name to
    "Music Assistant". *)
Lemma icy_title_fallback :
  (forall item sd title,
      streamdetails item = Some sd -> stream_title sd = Some title ->
      title <> "" -> icy_title (Some item) = title)
  /\ (forall item,
        (forall sd title,
            streamdetails item = Some sd -> stream_title sd = Some title ->
            title = "") ->
        name item <> "" -> icy_title (Some item) = name item)
  /\ icy_title None = "Music Assistant"
  /\ icy_title (Some {| queue_item_id := "1"; name := "";
                        streamdetails := None |}) = "Music Assistant".
Proof.
  unfold icy_title. repeat split.
  - intros item sd title Hsd Ht Hne. simpl. rewrite Hsd. simpl. rewrite Ht.
    simpl. destruct title; [contradiction|reflexivity].
  - intros item Hnone Hname. simpl.
    assert (Hst : (sd ← streamdetails item; title ← stream_title sd;
                   nonempty title) = None).
    { destruct (streamdetails item) as [sd|] eqn:Hsd; simpl; [|reflexivity].
      destruct (stream_title sd) as [title|] eqn:Ht; simpl; [|reflexivity].
      rewrite (Hnone _ _ eq_refl Ht). reflexivity. }
    rewrite Hst. destruct (name item); [contradiction|reflexivity].
Qed.

Section Endpoint.

Variable is_lossless : ContentType -> bool.

(** With [Icy-MetaData: 1] the response has the header [icy-metaint],
    65536 for a lossless output type and 8192 otherwise. *)
Lemma icy_metaint_header output_format :
  In ("icy-metaint",
      if is_lossless (content_type output_format) then "65536" else "8192")
     (response_headers is_lossless output_format (Some "1")).
Proof.
  unfold response_headers, icy_meta_interval. rewrite !in_app_iff.
  right. right. simpl. left. destruct (is_lossless _); reflexivity.
Qed.

End Endpoint.

(** C9 at a current item with a name of 2018 bytes: the metadata is padded
    to 2048 bytes, [len(metadata) / 16] is 128, and what the handler writes
    after the chunk starts with the two bytes 194, 128 (the UTF-8 encoding
    of the character 128) where one length byte of value 128 belongs. *)
Theorem icy_length_prefix_two_bytes :
  let metadata :=
    pad16 (encode ("StreamTitle='" +:+ Sample.long_title +:+ "';")) in
  len metadata = 2048
  /\ len metadata / 16 = 128
  /\ icy_block (Some Sample.long_title_item)
     = inr (byte_of 194 :: byte_of 128 :: metadata)
  /\ relay true
       [{| chunk := [x01]; write_ok := true;
           current_item := Some Sample.long_title_item |}]
     = ([[x01]; byte_of 194 :: byte_of 128 :: metadata], None).
Proof. vm_compute. repeat split; reflexivity. Qed.

(** The item "Track 1" without stream details: the title is the item's
    name, and the block is the length byte 2 and 32 bytes of metadata. *)
Lemma icy_block_short_title_witness :
  exists metadata,
    len metadata = 32
    /\ icy_block (Some (Sample.item "1")) = inr (byte_of 2 :: metadata)
    /\ len metadata mod 16 = 0.
Proof.
  eexists. split; [|split].
  2: { apply (icy_block_short_title (Some (Sample.item "1"))).
       vm_compute. reflexivity. }
  - vm_compute. reflexivity.
  - vm_compute. reflexivity.
Defined.

End IcyProps.

(** ** The multi-client stream job *)

Module JobProps.
Import Job.

(** *** Lists *)

Lemma foldr_alter_lookup {A} (f : A -> A) (ks : list nat) (l : list A) i :
  NoDup ks ->
  foldr (fun k acc => alter f k acc) l ks !! i
  = if bool_decide (i ∈ ks) then f <$> l !! i else l !! i.
Proof.
  induction 1 as [|k ks Hk Hnd IH]; simpl; [reflexivity|].
  destruct (decide (i = k)) as [->|Hne].
  - rewrite list_lookup_alter_eq, IH.
    rewrite (bool_decide_eq_false_2 (k ∈ ks)) by assumption.
    rewrite bool_decide_eq_true_2 by (left). reflexivity.
  - rewrite list_lookup_alter_ne by congruence. rewrite IH.
    destruct (decide (i ∈ ks)) as [Hin|Hnin].
    + rewrite !bool_decide_eq_true_2; [reflexivity|by right|assumption].
    + rewrite !bool_decide_eq_false_2; [reflexivity| |assumption].
      intros Hin. apply elem_of_cons in Hin as [?|?]; contradiction.
Qed.

(** Non-empty chunks in front of a list that ends in empty chunks: they are
    a prefix of what comes before the empty ones. *)
Lemma nonempty_prefix (ys q got tail : list bytes) :
  ys ++ q = got ++ tail ->
  Forall (fun c => c <> []) ys ->
  Forall (fun c => c = []) tail ->
  ys `prefix_of` got.
Proof.
  revert got. induction ys as [|y ys IH]; intros got Heq Hys Htail.
  - apply prefix_nil.
  - apply Forall_cons in Hys as [Hy Hys].
    destruct got as [|g got]; simpl in Heq.
    + exfalso. rewrite <- Heq in Htail.
      apply Forall_cons in Htail as [Hempty _]. contradiction.
    + inversion Heq; subst. apply prefix_cons. eapply IH; eassumption.
Qed.

Lemma prefix_drop_app {A} (n : nat) (l more : list A) :
  drop n l `prefix_of` drop n (l ++ more).
Proof. rewrite drop_app. apply prefix_app_r. reflexivity. Qed.

Lemma prefix_drop_removelast {A} (n : nat) (l : list A) :
  drop n (removelast l) `prefix_of` drop n l.
Proof.
  destruct l as [|a l] using rev_ind; [reflexivity|].
  rewrite removelast_last. apply prefix_drop_app.
Qed.

(** *** [stop] *)

Lemma subscribed_queues_spec j k :
  k ∈ subscribed_queues j <-> registered (subscribed_players j) k.
Proof.
  unfold subscribed_queues, registered. rewrite list_elem_of_fmap. split.
  - intros ([p k'] & -> & Hin). exists p. apply elem_of_map_to_list. exact Hin.
  - intros [p Hp]. exists (p, k). split; [reflexivity|].
    apply elem_of_map_to_list. exact Hp.
Qed.

Lemma subscribed_queues_NoDup j :
  (forall p k, subscribed_players j !! p = Some k ->
     exists s, subscriptions j !! k = Some s /\ sub_player s = p) ->
  NoDup (subscribed_queues j).
Proof.
  intros Hown. unfold subscribed_queues.
  apply NoDup_fmap_2_strong; [|apply NoDup_map_to_list].
  intros [p k] [p' k'] Hin Hin' Heq. simpl in Heq. subst k'.
  apply elem_of_map_to_list in Hin, Hin'.
  destruct (Hown _ _ Hin) as (s & Hs & Hp).
  destruct (Hown _ _ Hin') as (s' & Hs' & Hp'). congruence.
Qed.


(** *** The invariant is kept by every step *)

Lemma prefix_drop {A} (n : nat) (l1 l2 : list A) :
  l1 `prefix_of` l2 -> drop n l1 `prefix_of` drop n l2.
Proof. intros [more ->]. apply prefix_drop_app. Qed.

Lemma fed_prefix broadcast waiting k :
  fed broadcast waiting k `prefix_of` broadcast.
Proof.
  unfold fed. case_bool_decide; [|reflexivity].
  apply (prefix_drop_removelast 0).
Qed.

Lemma fed_not_waiting broadcast waiting k :
  k ∉ waiting -> fed broadcast waiting k = broadcast.
Proof. intros H. unfold fed. rewrite bool_decide_eq_false_2; done. Qed.

Lemma fed_waiting before chunk waiting k :
  k ∈ waiting -> fed (before ++ [chunk]) waiting k = before.
Proof.
  intros H. unfold fed. rewrite bool_decide_eq_true_2 by done.
  apply removelast_last.
Qed.

Lemma fed_filter broadcast waiting k k0 :
  k0 <> k ->
  fed broadcast (filter (fun i => i <> k) waiting) k0
  = fed broadcast waiting k0.
Proof.
  intros Hne. unfold fed.
  rewrite (bool_decide_ext _ (k0 ∈ waiting)); [reflexivity|].
  rewrite list_elem_of_filter. tauto.
Qed.

(** The invariant of a subscription that did not change survives when more
    is broadcast, and when less is asked of it. *)
Lemma sub_inv_mono P w a reg P' w' a' (reg' : nat -> Prop) k s :
  sub_inv P w a reg k s ->
  P `prefix_of` P' ->
  fed P w k `prefix_of` fed P' w' k ->
  (a' = true ->
   a = true
   /\ (reg' k \/ k ∈ w' -> (reg k \/ k ∈ w) /\ fed P' w' k = fed P w k)) ->
  sub_inv P' w' a' reg' k s.
Proof.
  intros [Hj Hp Hr] HP Hfed Hact. split.
  - apply prefix_length in Hfed. lia.
  - etrans; [exact Hp|]. apply prefix_drop. assumption.
  - intros Hread.
    destruct (Hr Hread) as (got & tail & Heq & Hgot & Ht & Hy & Hfull).
    exists got, tail. repeat split; try assumption.
    + etrans; [exact Hgot|]. apply prefix_drop. assumption.
    + destruct (Hact H) as [Ha _]. apply Hfull. assumption.
    + intros Hreg. destruct (Hact H) as [Ha Hsame].
      destruct (Hsame Hreg) as [Hreg0 Hfedeq]. rewrite Hfedeq.
      apply Hfull; assumption.
Qed.

(** A subscription whose loop is over only has to keep what it yielded. *)
Lemma sub_inv_left P w a reg a' (reg' : nat -> Prop) k s phase :
  phase <> Reading ->
  sub_inv P w a reg k s ->
  sub_inv P w a' reg' k (set_sub_phase phase s).
Proof.
  intros Hphase [Hj Hp Hr]. split; simpl; try assumption.
  intros Hread. contradiction.
Qed.

(** The invariant looks at four fields only. *)
Lemma job_inv_ext j j' :
  subscribed_players j' = subscribed_players j ->
  _audio_task j' = _audio_task j ->
  subscriptions j' = subscriptions j ->
  produced j' = produced j ->
  job_inv j -> job_inv j'.
Proof.
  intros Hm Ht Hs Hp [Hown Hnd Hbound Hput Hfirst Hsubs].
  split; rewrite ?Hm, ?Ht, ?Hs, ?Hp; assumption.
Qed.

Lemma new_job_inv queue_id job_id fmt source :
  job_inv (new_job queue_id job_id fmt source).
Proof.
  split; simpl.
  - intros p k H. rewrite lookup_empty in H. discriminate.
  - constructor.
  - intros k H. apply elem_of_nil in H. contradiction.
  - discriminate.
  - split; [reflexivity|discriminate].
  - intros k s H. rewrite lookup_nil in H. discriminate.
Qed.

Lemma resolve_stream_url_inv p j : job_inv j -> job_inv (resolve_stream_url p j).
Proof. apply job_inv_ext; reflexivity. Qed.

Lemma cancel_task_inv j : job_inv j -> job_inv (cancel_task j).
Proof.
  intros Hinv. unfold cancel_task.
  destruct (task_done (_audio_task j)) eqn:Hdone; [assumption|].
  destruct Hinv as [Hown Hnd Hbound Hput Hfirst Hsubs]. split; simpl.
  - assumption.
  - constructor.
  - intros k H. apply elem_of_nil in H. contradiction.
  - discriminate.
  - split; discriminate.
  - intros k s Hs. eapply sub_inv_mono; [apply Hsubs, Hs|reflexivity| |].
    + rewrite (fed_not_waiting _ []) by apply not_elem_of_nil.
      apply fed_prefix.
    + discriminate.
Qed.

(** Replacing subscription [k] by one for the same player of which the
    invariant holds. *)
Lemma replace_sub_inv j subs' k s s' :
  job_inv j ->
  subscriptions j !! k = Some s ->
  subs' !! k = Some s' ->
  (forall k', k' <> k -> subs' !! k' = subscriptions j !! k') ->
  length subs' = length (subscriptions j) ->
  sub_player s' = sub_player s ->
  sub_inv (produced j) (waiting_puts (_audio_task j))
    (negb (task_done (_audio_task j))) (registered (subscribed_players j))
    k s' ->
  job_inv (set_subscriptions subs' j).
Proof.
  intros [Hown Hnd Hbound Hput Hfirst Hsubs] Hk Hk' Hother Hlen Hpl Hinv.
  split; simpl; try assumption.
  - intros p k0 Hp. destruct (Hown _ _ Hp) as (s0 & Hs0 & Hpl0).
    destruct (decide (k0 = k)) as [->|Hne].
    + exists s'. split; [assumption|]. congruence.
    + exists s0. rewrite Hother by assumption. auto.
  - intros k0 Hk0. rewrite Hlen. auto.
  - intros k0 s0 Hs0. destruct (decide (k0 = k)) as [->|Hne].
    + congruence.
    + rewrite Hother in Hs0 by assumption. auto.
Qed.

Lemma sub_inv_left_gen P w a reg a' (reg' : nat -> Prop) k s s' :
  sub_phase_of s' <> Reading ->
  sub_joined s' = sub_joined s ->
  sub_yielded s' = sub_yielded s ->
  sub_inv P w a reg k s ->
  sub_inv P w a' reg' k s'.
Proof.
  intros Hphase Hj Hy [Hjoin Hp Hr]. split.
  - rewrite Hj. assumption.
  - rewrite Hj, Hy. assumption.
  - intros Hread. contradiction.
Qed.

(** The [finally] block of subscription [k], entered from a state in which
    that subscription's queue may just have lost its first chunk. *)
Lemma leave_inv_gen j subs' k :
  job_inv j ->
  (forall k', k' <> k -> subs' !! k' = subscriptions j !! k') ->
  length subs' = length (subscriptions j) ->
  (forall s', subs' !! k = Some s' ->
     exists s, subscriptions j !! k = Some s
       /\ sub_player s' = sub_player s /\ sub_joined s' = sub_joined s
       /\ sub_yielded s' = sub_yielded s) ->
  job_inv (leave k (set_subscriptions subs' j)).
Proof.
  intros Hinv Hother Hlen Hsame. unfold leave. simpl.
  destruct (subs' !! k) as [s'|] eqn:Hk'.
  - destruct (Hsame s' eq_refl) as (s & Hk & Hpl & Hj & Hy).
    destruct Hinv as [Hown Hnd Hbound Hput Hfirst Hsubs]. split; simpl.
    + intros p k0 Hp. apply lookup_delete_Some in Hp as [Hne Hp].
      destruct (Hown _ _ Hp) as (s0 & Hs0 & Hpl0).
      assert (Hk0 : k0 <> k) by (intros ->; congruence).
      exists s0. rewrite list_lookup_alter_ne by congruence.
      rewrite Hother by assumption. auto.
    + assumption.
    + intros k0 Hk0. rewrite length_alter, Hlen. auto.
    + assumption.
    + assumption.
    + intros k0 s0. rewrite list_lookup_alter.
      destruct (decide (k = k0)) as [<-|Hne].
      * rewrite Hk'. simpl. intros H. inversion H; subst.
        apply sub_inv_left_gen
          with (a := negb (task_done (_audio_task j)))
               (reg := registered (subscribed_players j)) (s := s);
          [discriminate|exact Hj|exact Hy|]. apply Hsubs, Hk.
      * rewrite Hother by congruence. intros Hs0.
        eapply sub_inv_mono; [apply Hsubs, Hs0|reflexivity|reflexivity|].
        intros Hact. split; [assumption|]. intros [[p Hp]|Hw].
        -- apply lookup_delete_Some in Hp as [_ Hp].
           split; [left; exists p; exact Hp|reflexivity].
        -- split; [right; exact Hw|reflexivity].
  - eapply job_inv_ext; [..|exact Hinv]; try reflexivity.
    simpl. apply list_eq. intros k0.
    destruct (decide (k0 = k)) as [->|Hne]; [|auto].
    rewrite Hk'. symmetry. apply lookup_ge_None.
    apply lookup_ge_None in Hk'. lia.
Qed.

Lemma set_subscriptions_same j : set_subscriptions (subscriptions j) j = j.
Proof. destruct j. reflexivity. Qed.

Lemma leave_inv k j : job_inv j -> job_inv (leave k j).
Proof.
  intros Hinv. rewrite <- (set_subscriptions_same j) at 1.
  apply leave_inv_gen; [assumption|reflexivity|reflexivity|].
  intros s' Hs'. exists s'. auto.
Qed.

Lemma close_inv k j j' : job_inv j -> close k j = Some j' -> job_inv j'.
Proof.
  intros Hinv. unfold close.
  destruct (subscriptions j !! k) as [s|]; simpl; [|discriminate].
  destruct (sub_phase_of s); intros H; inversion H; subst.
  apply leave_inv. assumption.
Qed.

Lemma grace_inv k j j' : job_inv j -> grace k j = Some j' -> job_inv j'.
Proof.
  intros Hinv. unfold grace.
  destruct (subscriptions j !! k) as [s|] eqn:Hk; simpl; [|discriminate].
  destruct (sub_phase_of s) eqn:Hphase; try discriminate.
  assert (Hinv1 : job_inv (set_subscriptions
                             (alter (set_sub_phase Gone) k (subscriptions j)) j)).
  { eapply replace_sub_inv with (s' := set_sub_phase Gone s);
      [exact Hinv|exact Hk| | | | |].
    - rewrite list_lookup_alter_eq, Hk. reflexivity.
    - intros k' Hne. apply list_lookup_alter_ne. congruence.
    - apply length_alter.
    - reflexivity.
    - eapply sub_inv_left; [discriminate|]. apply (inv_subs _ Hinv), Hk. }
  destruct (_ && _); intros H; inversion H; subst.
  - apply cancel_task_inv. assumption.
  - assumption.
Qed.

(** [subscribe] registers a fresh queue. *)
Lemma register_inv p j :
  job_inv j ->
  job_inv
    (set_subscriptions
       (subscriptions j
          ++ [{| sub_player := p; sub_queue := []; sub_yielded := [];
                 sub_phase_of := Reading;
                 sub_joined := length (produced j) |}])
       (set_subscribed_players
          (<[p := length (subscriptions j)]> (subscribed_players j)) j)).
Proof.
  intros [Hown Hnd Hbound Hput Hfirst Hsubs]. split; simpl; try assumption.
  - intros p' k Hp. apply lookup_insert_Some in Hp as [[<- <-]|[Hne Hp]].
    + eexists. split; [apply list_lookup_middle; reflexivity|reflexivity].
    + destruct (Hown _ _ Hp) as (s & Hs & Hpl). exists s.
      split; [apply lookup_app_l_Some; assumption|assumption].
  - intros k Hk. rewrite length_app. apply Hbound in Hk. lia.
  - intros k s Hs. apply lookup_app_Some in Hs as [Hs|[Hge Hs]].
    + eapply sub_inv_mono; [apply Hsubs, Hs|reflexivity|reflexivity|].
      intros Hact. split; [assumption|]. intros [[p' Hp]|Hw].
      * apply lookup_insert_Some in Hp as [[_ Hk]|[_ Hp]].
        -- apply lookup_lt_Some in Hs. lia.
        -- split; [left; exists p'; exact Hp|reflexivity].
      * split; [right; exact Hw|reflexivity].
    + destruct (k - length (subscriptions j))%nat as [|n] eqn:Hn;
        [|rewrite lookup_cons, lookup_nil in Hs; discriminate].
      simpl in Hs. inversion Hs; subst; clear Hs.
      assert (Hk : k = length (subscriptions j)) by lia. subst k.
      assert (Hnw : length (subscriptions j)
                    ∉ waiting_puts (_audio_task j)).
      { intros Hin. apply Hbound in Hin. lia. }
      split; simpl.
      * rewrite fed_not_waiting by assumption. lia.
      * apply prefix_nil.
      * intros _. exists [], []. rewrite fed_not_waiting by assumption.
        rewrite drop_all.
        repeat split; try reflexivity; constructor.
Qed.

Lemma subscribe_inv p j : job_inv j -> job_inv (subscribe p j).
Proof.
  intros Hinv. apply (register_inv p) in Hinv. unfold subscribe.
  set (j1 := set_subscriptions _ _) in *. cbv zeta.
  destruct (_all_clients_connected j1).
  - destruct (true_div _ _) as [e|seconds]; simpl.
    + apply leave_inv. assumption.
    + case_bool_decide; eapply job_inv_ext; try exact Hinv; reflexivity.
  - case_bool_decide; [|assumption].
    eapply job_inv_ext; try exact Hinv; reflexivity.
Qed.

(** A chunk that is not empty moves from the queue to what was yielded. *)
Lemma get_sub_inv P w a reg k s chunk rest :
  sub_inv P w a reg k s ->
  sub_phase_of s = Reading ->
  sub_queue s = chunk :: rest ->
  chunk <> [] ->
  sub_inv P w a reg k
    (set_sub_yielded (sub_yielded s ++ [chunk]) (set_sub_queue rest s)).
Proof.
  intros [Hj Hp Hr] Hread Hq Hne.
  destruct (Hr Hread) as (got & tail & Heq & Hgot & Ht & Hy & Hfull).
  assert (Hy' : Forall (fun c => c <> []) (sub_yielded s ++ [chunk])).
  { apply Forall_app. split; [assumption|]. constructor; [assumption|constructor]. }
  assert (Heq' : (sub_yielded s ++ [chunk]) ++ rest = got ++ tail).
  { rewrite <- app_assoc. simpl. rewrite <- Hq. exact Heq. }
  split; simpl.
  - assumption.
  - etrans; [eapply nonempty_prefix; eassumption|].
    etrans; [exact Hgot|]. apply prefix_drop, fed_prefix.
  - intros _. exists got, tail. auto.
Qed.

Lemma get_inv k j j' : job_inv j -> get k j = Some j' -> job_inv j'.
Proof.
  intros Hinv. unfold get.
  destruct (subscriptions j !! k) as [s|] eqn:Hk; simpl; [|discriminate].
  destruct (sub_phase_of s) eqn:Hphase; try discriminate.
  destruct (sub_queue s) as [|chunk rest] eqn:Hq; [discriminate|].
  pose proof (lookup_lt_Some _ _ _ Hk) as Hlt.
  destruct (truthy chunk) eqn:Hc; intros H; inversion H; subst; clear H.
  - assert (Hne : chunk <> []) by (intros ->; discriminate).
    eapply job_inv_ext with
      (j := set_subscriptions
              (alter (set_sub_yielded (sub_yielded s ++ [chunk])) k
                 (<[k := set_sub_queue rest s]> (subscriptions j))) j);
      try reflexivity.
    eapply replace_sub_inv
      with (s' := set_sub_yielded (sub_yielded s ++ [chunk])
                    (set_sub_queue rest s));
      [exact Hinv|exact Hk| | | |reflexivity|].
    + rewrite list_lookup_alter_eq, list_lookup_insert_eq by assumption.
      reflexivity.
    + intros k' Hk'. rewrite list_lookup_alter_ne by congruence.
      apply list_lookup_insert_ne. congruence.
    + rewrite length_alter. apply length_insert.
    + apply get_sub_inv; try assumption. apply (inv_subs _ Hinv), Hk.
  - apply leave_inv_gen; [assumption| | |].
    + intros k' Hk'. apply list_lookup_insert_ne. congruence.
    + apply length_insert.
    + intros s'. rewrite list_lookup_insert_eq by assumption.
      intros Hs'. inversion Hs'; subst. exists s. auto.
Qed.

(** [_put_chunk] starts while no other put is under way. *)
Lemma begin_put_inv chunk next j :
  job_inv j ->
  waiting_puts (_audio_task j) = [] ->
  task_done (_audio_task j) = false ->
  job_inv (begin_put chunk next j).
Proof.
  intros [Hown Hnd Hbound Hput Hfirst Hsubs] Hw Hdone.
  unfold begin_put. split; simpl.
  - assumption.
  - apply subscribed_queues_NoDup. assumption.
  - intros k Hk. apply subscribed_queues_spec in Hk as [p Hp].
    destruct (Hown _ _ Hp) as (s & Hs & _). eapply lookup_lt_Some, Hs.
  - intros c w n H. inversion H; subst. eauto.
  - split; discriminate.
  - intros k s Hs. specialize (Hsubs k s Hs). rewrite Hw, Hdone in Hsubs.
    eapply sub_inv_mono; [exact Hsubs|apply prefix_app_r; reflexivity| |].
    + rewrite (fed_not_waiting _ []) by apply not_elem_of_nil.
      destruct (decide (k ∈ subscribed_queues j)).
      * rewrite fed_waiting by assumption. reflexivity.
      * rewrite fed_not_waiting by assumption. apply prefix_app_r. reflexivity.
    + intros _. split; [reflexivity|]. intros Hreg.
      assert (Hin : k ∈ subscribed_queues j).
      { destruct Hreg as [Hreg|Hin]; [|exact Hin].
        apply subscribed_queues_spec. exact Hreg. }
      split.
      * left. apply subscribed_queues_spec. exact Hin.
      * rewrite fed_waiting by assumption.
        rewrite fed_not_waiting by apply not_elem_of_nil. reflexivity.
Qed.

Lemma fetch_inv j j' : job_inv j -> fetch j = Some j' -> job_inv j'.
Proof.
  intros Hinv. unfold fetch.
  destruct (_audio_task j) as [source n| | | |] eqn:Ht; try discriminate.
  destruct source as [|chunk source].
  - intros H; inversion H; subst.
    apply begin_put_inv; [assumption|rewrite Ht..]; reflexivity.
  - destruct n as [|n]; intros H; inversion H; subst.
    + destruct Hinv as [Hown Hnd Hbound Hput Hfirst Hsubs].
      split; simpl; try assumption.
      * constructor.
      * intros k Hk. apply elem_of_nil in Hk. contradiction.
      * discriminate.
      * split; [discriminate|]. intros t c src Hw. inversion Hw; subst.
        split; [reflexivity|]. eapply (proj1 Hfirst). exact Ht.
      * intros k s Hs. specialize (Hsubs k s Hs). rewrite Ht in Hsubs.
        exact Hsubs.
    + apply begin_put_inv; [assumption|rewrite Ht..]; reflexivity.
Qed.

Lemma all_connected_inv j j' :
  job_inv j -> all_connected j = Some j' -> job_inv j'.
Proof.
  intros Hinv. unfold all_connected.
  destruct (_audio_task j) eqn:Ht; try discriminate.
  destruct (_all_clients_connected j); intros H; inversion H; subst.
  apply begin_put_inv; [assumption|rewrite Ht..]; reflexivity.
Qed.

Lemma timeout_inv j j' : job_inv j -> timeout j = Some j' -> job_inv j'.
Proof.
  intros Hinv. unfold timeout.
  destruct (_audio_task j) eqn:Ht; try discriminate.
  case_bool_decide; intros Hj'; inversion Hj'; subst.
  - apply begin_put_inv; [assumption|rewrite Ht..]; reflexivity.
  - apply begin_put_inv; simpl; [|rewrite Ht..]; try reflexivity.
    eapply job_inv_ext; try exact Hinv; reflexivity.
Qed.

Lemma put_one_inv k j j' : job_inv j -> put_one k j = Some j' -> job_inv j'.
Proof.
  intros Hinv. unfold put_one.
  destruct (_audio_task j) as [| |chunk waiting next| |] eqn:Ht;
    try discriminate.
  destruct (subscriptions j !! k) as [s|] eqn:Hk; simpl; [|discriminate].
  destruct (bool_decide (k ∈ waiting)) eqn:Hin; simpl; [|discriminate].
  apply bool_decide_eq_true in Hin.
  destruct (length (sub_queue s) <? 2)%nat; intros H; inversion H; subst.
  pose proof (lookup_lt_Some _ _ _ Hk) as Hlt.
  destruct Hinv as [Hown Hnd Hbound Hput Hfirst Hsubs].
  rewrite Ht in *. simpl in *.
  destruct (Hput _ _ _ eq_refl) as [before Hbefore].
  split; simpl.
  - intros p k0 Hp. destruct (Hown _ _ Hp) as (s0 & Hs0 & Hpl0).
    destruct (decide (k0 = k)) as [->|Hne].
    + rewrite list_lookup_insert_eq by assumption. eexists. split; [reflexivity|].
      simpl. congruence.
    + rewrite list_lookup_insert_ne by congruence. eauto.
  - apply NoDup_filter. assumption.
  - intros k0 Hk0. apply list_elem_of_filter in Hk0 as [_ Hk0].
    rewrite length_insert. auto.
  - intros c w n Hc. inversion Hc; subst. eauto.
  - split; discriminate.
  - intros k0 s0. destruct (decide (k0 = k)) as [->|Hne].
    + rewrite list_lookup_insert_eq by assumption.
      intros Hs0. inversion Hs0; subst; clear Hs0.
      destruct (Hsubs _ _ Hk) as [Hj Hp Hr].
      rewrite Hbefore in *. rewrite fed_waiting in Hj, Hr by assumption.
      assert (Hnotin : k ∉ filter (fun i => i <> k) waiting).
      { intros Hf. apply list_elem_of_filter in Hf as [Hf _]. contradiction. }
      split; simpl.
      * rewrite fed_not_waiting by assumption. rewrite length_app. lia.
      * assumption.
      * intros Hread.
        destruct (Hr Hread) as (got & tail & Heq & Hgot & Htail & Hy & Hfull).
        destruct (Hfull eq_refl) as [-> Hgoteq].
        rewrite (Hgoteq (or_intror Hin)) in *.
        exists (drop (sub_joined s) (before ++ [chunk])), [].
        rewrite fed_not_waiting by assumption.
        rewrite app_nil_r in *. rewrite drop_app_le by assumption.
        repeat split; try assumption; try reflexivity.
        rewrite app_assoc, Heq. reflexivity.
    + rewrite list_lookup_insert_ne by congruence. intros Hs0.
      eapply sub_inv_mono; [apply Hsubs, Hs0|reflexivity| |].
      * rewrite fed_filter by assumption. reflexivity.
      * intros _. split; [reflexivity|]. intros Hreg. split.
        -- destruct Hreg as [Hreg|Hf]; [left; exact Hreg|].
           apply list_elem_of_filter in Hf as [_ Hf]. right. exact Hf.
        -- apply fed_filter. assumption.
Qed.

Lemma put_done_inv j j' : job_inv j -> put_done j = Some j' -> job_inv j'.
Proof.
  intros Hinv. unfold put_done.
  destruct (_audio_task j) as [| |chunk waiting next| |] eqn:Ht;
    try discriminate.
  destruct waiting; [|discriminate].
  destruct Hinv as [Hown Hnd Hbound Hput Hfirst Hsubs].
  rewrite Ht in *. simpl in *.
  assert (Hkeep : forall t',
             waiting_puts t' = [] ->
             (forall source, t' <> Fetching source 0) ->
             (forall c w n, t' <> Putting c w n) ->
             (forall t c source, t' <> WaitingForClients t c source) ->
             job_inv (set_audio_task t'
                        (set_bytes_streamed (bytes_streamed j + len chunk) j))).
  { intros t' Hw Hf Hp Hwait. split; simpl; try assumption.
    - rewrite Hw. constructor.
    - rewrite Hw. intros k Hk. apply elem_of_nil in Hk. contradiction.
    - intros c w n Hc. destruct (Hp _ _ _ Hc).
    - split; [intros source Hs; destruct (Hf _ Hs)|].
      intros t c source Hs. destruct (Hwait _ _ _ Hs).
    - intros k s Hs. rewrite Hw.
      eapply sub_inv_mono; [apply Hsubs, Hs|reflexivity|reflexivity|].
      intros _. split; [reflexivity|]. auto. }
  destruct next as [[source n]|]; intros H; inversion H; subst;
    apply Hkeep; try reflexivity; discriminate.
Qed.

Lemma put_nowait_player chunk s : sub_player (put_nowait chunk s) = sub_player s.
Proof. unfold put_nowait. destruct (_ <? _)%nat; reflexivity. Qed.

(** An empty chunk put by [stop], once the producer is cancelled. *)
Lemma put_nowait_sub_inv P w reg k s :
  sub_inv P w false reg k s -> sub_inv P w false reg k (put_nowait [] s).
Proof.
  intros Hinv. unfold put_nowait. destruct (_ <? _)%nat; [|assumption].
  destruct Hinv as [Hj Hp Hr]. split; simpl; try assumption.
  intros Hread.
  destruct (Hr Hread) as (got & tail & Heq & Hgot & Htail & Hy & _).
  exists got, (tail ++ [[]]). repeat split; try assumption; try discriminate.
  - rewrite !app_assoc, Heq. reflexivity.
  - apply Forall_app. split; [assumption|]. constructor; [reflexivity|constructor].
Qed.

Lemma foldr_alter_length {A} (f : A -> A) (ks : list nat) (l : list A) :
  length (foldr (fun k acc => alter f k acc) l ks) = length l.
Proof.
  induction ks as [|k ks IH]; simpl; [reflexivity|].
  rewrite length_alter. exact IH.
Qed.

Lemma put_eof_inv j :
  job_inv j ->
  task_done (_audio_task j) = true ->
  job_inv
    (set_subscriptions
       (foldr (fun k subs => alter (put_nowait []) k subs)
          (subscriptions j) (subscribed_queues j)) j).
Proof.
  intros Hinv Hdone.
  pose proof (subscribed_queues_NoDup j (inv_own _ Hinv)) as Hvalues.
  destruct Hinv as [Hown Hnd Hbound Hput Hfirst Hsubs].
  split; simpl; try assumption.
  - intros p k Hp. destruct (Hown _ _ Hp) as (s & Hs & Hpl).
    rewrite foldr_alter_lookup by assumption. rewrite Hs.
    case_bool_decide; simpl; eexists; split; try reflexivity; try assumption.
    rewrite put_nowait_player. assumption.
  - intros k Hk. rewrite foldr_alter_length. auto.
  - intros k s'. rewrite foldr_alter_lookup by assumption.
    rewrite Hdone in *. simpl in *.
    case_bool_decide; [|apply Hsubs].
    destruct (subscriptions j !! k) as [s|] eqn:Hs; simpl; [|discriminate].
    intros H'. inversion H'; subst. apply put_nowait_sub_inv. apply Hsubs, Hs.
Qed.

Lemma stop_inv j : job_inv j -> job_inv (stop j).
Proof.
  intros Hinv. unfold stop. cbv zeta.
  assert (Hinv1 : job_inv (set_finished true j))
    by (eapply job_inv_ext; try exact Hinv; reflexivity).
  destruct (task_done (_audio_task (set_finished true j))) eqn:Hdone;
    [assumption|].
  apply put_eof_inv.
  - apply cancel_task_inv. assumption.
  - unfold cancel_task. rewrite Hdone. reflexivity.
Qed.

Lemma step_inv l j j' : job_inv j -> step l j = Some j' -> job_inv j'.
Proof.
  intros Hinv. destruct l; simpl.
  - intros H; inversion H; subst. apply resolve_stream_url_inv, Hinv.
  - intros H; inversion H; subst. apply subscribe_inv, Hinv.
  - apply get_inv, Hinv.
  - apply close_inv, Hinv.
  - apply grace_inv, Hinv.
  - apply fetch_inv, Hinv.
  - apply all_connected_inv, Hinv.
  - apply timeout_inv, Hinv.
  - apply put_one_inv, Hinv.
  - apply put_done_inv, Hinv.
  - intros H; inversion H; subst. apply stop_inv, Hinv.
Qed.

Lemma run_inv ls : forall j j', job_inv j -> run ls j = Some j' -> job_inv j'.
Proof.
  induction ls as [|l ls IH]; intros j j' Hinv; simpl.
  - intros H; inversion H; subst. assumption.
  - destruct (step l j) as [j1|] eqn:Hstep; simpl; [|discriminate].
    apply IH. eapply step_inv; eassumption.
Qed.

(** Every job that was run from [new_job] satisfies the invariant. *)
Lemma reachable_inv queue_id job_id fmt source ls j :
  run ls (new_job queue_id job_id fmt source) = Some j -> job_inv j.
Proof. apply run_inv, new_job_inv. Qed.

(** *** A job keeps its queue, and stays finished *)

Ltac step_cases :=
  unfold subscribe, get, close, grace, fetch, all_connected, timeout, put_one,
    put_done, stop, leave, cancel_task, begin_put, resolve_stream_url, bind
    in *;
  cbv zeta in *;
  repeat (simplify_option_eq; try case_match; simpl in * );
  try done.

Lemma step_queue_id l j j' : step l j = Some j' -> queue_id j' = queue_id j.
Proof. destruct l; simpl; intros H; step_cases. Qed.

Lemma step_finished l j j' :
  step l j = Some j' -> finished j = true -> finished j' = true.
Proof.
  unfold finished. destruct l; simpl; intros H Hfin;
    destruct (_finished j) eqn:Hflag; simpl in *; step_cases.
  all: rewrite ?Hflag, ?orb_true_r; simpl; try done.
  all: rewrite ?Hfin, ?orb_true_r; done.
Qed.

Lemma stop_finished j : finished (stop j) = true.
Proof.
  unfold finished, stop, cancel_task. cbv zeta. simpl.
  destruct (task_done (_audio_task j)) eqn:Hdone; simpl; [reflexivity|].
  rewrite ?Hdone. reflexivity.
Qed.

Lemma stop_queue_id j : queue_id (stop j) = queue_id j.
Proof. apply (step_queue_id Stop). reflexivity. Qed.

(** *** The byte count *)

Ltac same_task :=
  repeat match goal with
         | H1 : _audio_task ?j = _, H2 : _audio_task ?j = _ |- _ =>
             rewrite H1 in H2; simplify_eq
         end.

Lemma step_streamed_inv l j j' :
  streamed_inv j -> step l j = Some j' -> streamed_inv j'.
Proof.
  unfold streamed_inv. destruct l; simpl; intros Hinv H; step_cases.
  all: try congruence.
  all: try (simplify_eq; assumption).
  all: try (simplify_eq; eexists; split; [reflexivity|]; simpl; lia).
  all: same_task.
  all: try assumption.
  all: try (pose proof (total_len_removelast (produced j)); lia).
  all: destruct Hinv as (before & Hp & Hb);
    rewrite ?Hp, ?removelast_last, ?total_len_app; simpl;
    pose proof (len_nonneg chunk); lia.
Qed.

(** *** The end of the stream *)

Lemma step_putting_eof l j j' chunk waiting :
  step l j = Some j' ->
  _audio_task j' = Putting chunk waiting None ->
  chunk = [] \/ exists waiting', _audio_task j = Putting chunk waiting' None.
Proof.
  destruct l; simpl; intros H Ht; step_cases; same_task; eauto.
Qed.

Lemma leave_frame k j :
  _audio_task (leave k j) = _audio_task j
  /\ produced (leave k j) = produced j.
Proof. unfold leave. destruct (subscriptions j !! k); auto. Qed.

(** A queue that is read and registered after [leave k] is another queue
    than [k], and it was read and registered before. *)
Lemma leave_reading k j k' s' :
  subscriptions (leave k j) !! k' = Some s' ->
  sub_phase_of s' = Reading ->
  registered (subscribed_players (leave k j)) k' ->
  k' <> k
  /\ subscriptions j !! k' = Some s'
  /\ registered (subscribed_players j) k'.
Proof.
  unfold leave. destruct (subscriptions j !! k) as [s|] eqn:Hk.
  - simpl. intros Hs' Hread [p Hp].
    apply lookup_delete_Some in Hp as [_ Hp].
    destruct (decide (k = k')) as [<-|Hne].
    + rewrite list_lookup_alter_eq, Hk in Hs'. simpl in Hs'.
      inversion Hs'; subst. discriminate.
    + rewrite list_lookup_alter_ne in Hs' by assumption.
      split; [congruence|]. split; [exact Hs'|exists p; exact Hp].
  - intros Hs' _ Hreg. split; [congruence|auto].
Qed.

(** A queue that is read and registered after [subscribe] is the new one,
    which is empty, or one that was read and registered before. *)
Lemma subscribe_reading p j k' s' :
  subscriptions (subscribe p j) !! k' = Some s' ->
  sub_phase_of s' = Reading ->
  registered (subscribed_players (subscribe p j)) k' ->
  (subscriptions j !! k' = Some s' /\ registered (subscribed_players j) k')
  \/ (sub_yielded s' = [] /\ sub_queue s' = []
      /\ sub_joined s' = length (produced j)).
Proof.
  set (sub := {| sub_player := p; sub_queue := []; sub_yielded := [];
                 sub_phase_of := Reading;
                 sub_joined := length (produced j) |}).
  set (j1 := set_subscriptions (subscriptions j ++ [sub])
               (set_subscribed_players
                  (<[p := length (subscriptions j)]> (subscribed_players j))
                  j)).
  assert (Hj1 : subscriptions j1 !! k' = Some s' ->
                registered (subscribed_players j1) k' ->
                (subscriptions j !! k' = Some s'
                 /\ registered (subscribed_players j) k')
                \/ (sub_yielded s' = [] /\ sub_queue s' = []
                    /\ sub_joined s' = length (produced j))).
  { simpl. intros Hs' [q Hq].
    apply lookup_app_Some in Hs' as [Hold|[Hge Hnew]].
    - left. split; [exact Hold|].
      apply lookup_insert_Some in Hq as [[_ Hk]|[_ Hq]].
      + apply lookup_lt_Some in Hold. lia.
      + exists q. exact Hq.
    - right. destruct (k' - length (subscriptions j))%nat; simpl in Hnew;
        [|destruct n; discriminate].
      inversion Hnew; subst. auto. }
  unfold subscribe. cbv zeta. fold sub j1.
  destruct (_all_clients_connected j1) eqn:Hconn; simpl.
  - destruct (true_div _ _) as [e|seconds]; simpl.
    + intros Hs' Hread Hreg.
      destruct (leave_reading _ _ _ _ Hs' Hread Hreg) as (_ & Hs1 & Hreg1).
      auto.
    + case_bool_decide; simpl; auto.
  - case_bool_decide; simpl; auto.
Qed.

Lemma maybe_cancel_frame (cond : bool) jx j' :
  (if cond then Some (cancel_task jx) else Some jx) = Some j' ->
  produced j' = produced jx
  /\ subscriptions j' = subscriptions jx
  /\ subscribed_players j' = subscribed_players jx.
Proof.
  unfold cancel_task.
  destruct cond; [destruct (task_done _)|]; intros E; inversion E; subst;
    auto.
Qed.

Lemma step_eof_inv l j j' :
  job_inv j -> eof_inv j -> step l j = Some j' -> eof_inv j'.
Proof.
  intros Hinv [Ha Hb] Hstep. split.
  - intros chunk waiting Ht.
    destruct (step_putting_eof _ _ _ _ _ Hstep Ht) as [->|[waiting' Ht']];
      [reflexivity|eauto].
  - intros Hdone.
    destruct (_audio_task j) as [src n|t c src|c w next| |] eqn:Ht.
    1, 2, 5: exfalso; clear Ha Hb Hinv; destruct l; simpl in Hstep;
      step_cases; same_task.
    + (* the last [_put_chunk] returns *)
      destruct l; simpl in Hstep;
        try (exfalso; clear Ha Hb Hinv; step_cases; same_task; fail).
      unfold put_done in Hstep. rewrite Ht in Hstep.
      destruct w as [|k0 w]; [|discriminate].
      destruct next as [[src n]|]; inversion Hstep; subst; clear Hstep;
        [discriminate|].
      rewrite (Ha _ _ eq_refl) in *. simpl.
      destruct (inv_putting _ Hinv _ _ _ Ht) as [before Hbefore].
      split; [eauto|]. intros k s Hs Hread Hreg.
      destruct (inv_reading _ _ _ _ _ _ (inv_subs _ Hinv _ _ Hs) Hread)
        as (got & tail & Hsplit & _ & _ & _ & Hact).
      rewrite Ht in Hact. simpl in Hact.
      destruct (Hact eq_refl) as [-> Hall].
      rewrite Hsplit, app_nil_r, (Hall (or_introl Hreg)).
      rewrite fed_not_waiting by apply not_elem_of_nil. reflexivity.
    + (* the runner had returned before *)
      destruct (Hb eq_refl) as [Hlast Hsubs].
      destruct l; simpl in Hstep; try (unfold fetch, all_connected, timeout,
        put_one, put_done in Hstep; rewrite Ht in Hstep; discriminate).
      * inversion Hstep; subst. simpl. auto.
      * inversion Hstep; subst; clear Hstep.
        assert (Hp : produced (subscribe player_id j) = produced j).
        { clear. unfold subscribe. cbv zeta.
          destruct (_all_clients_connected _); simpl;
            [destruct (true_div _ _); simpl|];
            try case_bool_decide; try reflexivity.
          rewrite (proj2 (leave_frame _ _)). reflexivity. }
        rewrite Hp. split; [assumption|]. intros k s Hs Hread Hreg.
        destruct (subscribe_reading _ _ _ _ Hs Hread Hreg)
          as [[Hs0 Hreg0]|(Hy & Hq & Hj)]; [eauto|].
        rewrite Hy, Hq, Hj, drop_all. reflexivity.
      * unfold get in Hstep.
        destruct (subscriptions j !! k) as [s|] eqn:Hk; simpl in Hstep;
          [|discriminate].
        destruct (sub_phase_of s) eqn:Hphase; try discriminate.
        destruct (sub_queue s) as [|chunk rest] eqn:Hqueue; [discriminate|].
        assert (Hlt : (k < length (subscriptions j))%nat)
          by (eapply lookup_lt_Some; eassumption).
        destruct (truthy chunk); inversion Hstep; subst; clear Hstep.
        -- simpl. split; [assumption|]. intros k' s' Hs' Hread Hreg.
           destruct (decide (k = k')) as [<-|Hne].
           ++ rewrite list_lookup_alter_eq, list_lookup_insert_eq in Hs'
                by assumption.
              simpl in Hs'. inversion Hs'; subst. simpl.
              rewrite <- app_assoc. simpl. rewrite <- Hqueue. eauto.
           ++ rewrite list_lookup_alter_ne, list_lookup_insert_ne in Hs'
                by assumption.
              eauto.
        -- destruct (leave_frame k
                       (set_subscriptions
                          (<[k:=set_sub_queue rest s]> (subscriptions j)) j))
             as [_ Hp].
           rewrite Hp. simpl. split; [assumption|].
           intros k' s' Hs' Hread Hreg.
           destruct (leave_reading _ _ _ _ Hs' Hread Hreg)
             as (Hne & Hs1 & Hreg1).
           simpl in Hs1, Hreg1.
           rewrite list_lookup_insert_ne in Hs1 by congruence. eauto.
      * unfold close in Hstep.
        destruct (subscriptions j !! k) as [s|] eqn:Hk; simpl in Hstep;
          [|discriminate].
        destruct (sub_phase_of s); inversion Hstep; subst; clear Hstep.
        destruct (leave_frame k j) as [_ Hp]. rewrite Hp.
        split; [assumption|]. intros k' s' Hs' Hread Hreg.
        destruct (leave_reading _ _ _ _ Hs' Hread Hreg) as (_ & Hs1 & Hreg1).
        eauto.
      * unfold grace in Hstep.
        destruct (subscriptions j !! k) as [s|] eqn:Hk; simpl in Hstep;
          [|discriminate].
        destruct (sub_phase_of s) eqn:Hphase; try discriminate.
        destruct (maybe_cancel_frame _ _ _ Hstep) as (Hp & Hsubs' & Hmap').
        simpl in *.
        rewrite Hp, Hsubs', Hmap'. split; [assumption|].
        intros k' s' Hs' Hread Hreg.
        destruct (decide (k = k')) as [<-|Hne].
        -- rewrite list_lookup_alter_eq, Hk in Hs'. simpl in Hs'.
           inversion Hs'; subst. discriminate.
        -- rewrite list_lookup_alter_ne in Hs' by assumption. eauto.
      * inversion Hstep; subst; clear Hstep. unfold stop. cbv zeta. simpl.
        rewrite Ht. simpl. auto.
Qed.

Lemma new_job_eof_inv queue_id job_id fmt source :
  eof_inv (new_job queue_id job_id fmt source).
Proof. split; simpl; intros; discriminate. Qed.

Lemma run_eof_inv ls : forall j j',
  job_inv j -> eof_inv j -> run ls j = Some j' -> eof_inv j'.
Proof.
  induction ls as [|l ls IH]; intros j j' Hinv Heof; simpl.
  - intros H; inversion H; subst. assumption.
  - destruct (step l j) as [j1|] eqn:Hstep; simpl; [|discriminate].
    apply IH; [eapply step_inv|eapply step_eof_inv]; eassumption.
Qed.

Lemma run_streamed_inv ls : forall j j',
  streamed_inv j -> run ls j = Some j' -> streamed_inv j'.
Proof.
  induction ls as [|l ls IH]; intros j j' Hinv; simpl.
  - intros H; inversion H; subst. assumption.
  - destruct (step l j) as [j1|] eqn:Hstep; simpl; [|discriminate].
    apply IH. eapply step_streamed_inv; eassumption.
Qed.

(** *** The claims *)

(** C3.  In a job run from its creation: a player that subscribes when
    [_all_clients_connected] is set gets
    [client_seconds_skipped = bytes_streamed / pcm_sample_size] (for a
    [pcm_sample_size] that is not zero), and its queue is registered with
    the number of broadcasts started so far; and at every moment what a
    subscription has yielded is a prefix of the chunks broadcast from its
    registration on, in the order of their broadcast: no earlier chunk, no
    chunk twice, none out of order. *)
Theorem late_subscriber_gets_later_chunks_in_order
    queue_id job_id fmt source ls j player_id :
  run ls (new_job queue_id job_id fmt source) = Some j ->
  (_all_clients_connected j = true ->
   pcm_sample_size (pcm_format j) <> 0 ->
   client_seconds_skipped (subscribe player_id j) !! player_id
   = Some (Qdiv (inject_Z (bytes_streamed j))
             (inject_Z (pcm_sample_size (pcm_format j))))
   /\ subscribed_players (subscribe player_id j) !! player_id
      = Some (length (subscriptions j))
   /\ subscriptions (subscribe player_id j) !! length (subscriptions j)
      = Some {| sub_player := player_id; sub_queue := []; sub_yielded := [];
                sub_phase_of := Reading;
                sub_joined := length (produced j) |})
  /\ (forall k s,
        subscriptions j !! k = Some s ->
        sub_yielded s `prefix_of` drop (sub_joined s) (produced j)).
Proof.
  intros Hrun. split.
  - intros Hconn Hpss. unfold subscribe. cbv zeta. simpl.
    rewrite Hconn. unfold true_div.
    apply Z.eqb_neq in Hpss. rewrite Hpss. simpl.
    case_bool_decide; simpl;
      rewrite !lookup_insert_eq, list_lookup_middle by reflexivity; auto.
  - intros k s Hs. apply reachable_inv in Hrun.
    apply (inv_prefix _ _ _ _ _ _ (inv_subs _ Hrun _ _ Hs)).
Qed.

(** C7.  In a job run from its creation: the producer takes chunk 0 and
    waits for [_all_clients_connected] with a timeout of 10 s, nothing being
    broadcast before; the wait returns only once the event is set; when the
    timeout expires with no subscriber the chunk is dropped, only the empty
    chunk is put, to nobody, and the task is done; when it expires with a
    subscriber the event is set and chunk 0 is put to the queues subscribed
    at that time; and when the flow stream is exhausted the empty chunk is
    put to the queues subscribed then. *)
Theorem producer_waits_then_starts_or_aborts
    queue_id job_id fmt source ls j :
  run ls (new_job queue_id job_id fmt source) = Some j ->
  (forall chunk rest,
      _audio_task j = Fetching (chunk :: rest) 0 ->
      fetch j = Some (set_audio_task (WaitingForClients 10 chunk rest) j)
      /\ produced j = [])
  /\ (forall t chunk rest,
        _audio_task j = WaitingForClients t chunk rest ->
        t = 10 /\ produced j = []
        /\ (_all_clients_connected j = false -> all_connected j = None)
        /\ (_all_clients_connected j = true ->
            all_connected j = Some (begin_put chunk (Some (rest, O)) j))
        /\ (subscribed_players j = ∅ ->
            exists j' j'',
              timeout j = Some j'
              /\ _audio_task j' = Putting [] [] None
              /\ produced j' = [[]]
              /\ subscriptions j' = subscriptions j
              /\ put_done j' = Some j''
              /\ _audio_task j'' = TaskDone
              /\ finished j'' = true)
        /\ (subscribed_players j <> ∅ ->
            exists j',
              timeout j = Some j'
              /\ _all_clients_connected j' = true
              /\ _audio_task j'
                 = Putting chunk (subscribed_queues j) (Some (rest, O))
              /\ produced j' = [chunk]))
  /\ (forall n,
        _audio_task j = Fetching [] n ->
        exists j',
          fetch j = Some j'
          /\ _audio_task j' = Putting [] (subscribed_queues j) None
          /\ produced j' = produced j ++ [[]]).
Proof.
  intros Hrun. apply reachable_inv in Hrun.
  destruct (inv_first _ Hrun) as [Hfetching Hwaiting]. repeat split.
  - unfold fetch. rewrite H. reflexivity.
  - eapply Hfetching. eassumption.
  - eapply Hwaiting. eassumption.
  - eapply Hwaiting. eassumption.
  - intros Hconn. unfold all_connected. rewrite H, Hconn. reflexivity.
  - intros Hconn. unfold all_connected. rewrite H, Hconn. reflexivity.
  - intros Hnone. destruct (Hwaiting _ _ _ H) as [_ Hproduced].
    unfold timeout. rewrite H.
    rewrite bool_decide_eq_true_2 by (apply map_size_empty_iff; assumption).
    eexists _, _. split; [reflexivity|].
    unfold begin_put, subscribed_queues, put_done. simpl.
    rewrite Hnone, map_to_list_empty, Hproduced. simpl.
    repeat split; try reflexivity.
    unfold finished. simpl. apply orb_true_r.
  - intros Hsome. destruct (Hwaiting _ _ _ H) as [_ Hproduced].
    unfold timeout. rewrite H.
    rewrite bool_decide_eq_false_2
      by (rewrite map_size_empty_iff; assumption).
    eexists. split; [reflexivity|]. simpl. rewrite Hproduced. auto.
  - intros n Hn. unfold fetch. rewrite Hn. eexists. split; [reflexivity|].
    simpl. auto.
Qed.

(** C8, as the code has it.  In a job run from its creation, [stop] sets
    [_finished].  When the producer task is already done it does nothing
    else.  Otherwise it cancels the task and, for every registered queue,
    appends an empty chunk when the queue holds fewer than two chunks and
    leaves it as it is when it is full; so a registered queue that was
    empty holds the empty chunk afterwards. *)
Theorem stop_finishes_and_puts_eof_where_room
    queue_id job_id fmt source ls j :
  run ls (new_job queue_id job_id fmt source) = Some j ->
  _finished (stop j) = true
  /\ finished (stop j) = true
  /\ (task_done (_audio_task j) = true -> stop j = set_finished true j)
  /\ (task_done (_audio_task j) = false ->
      _audio_task (stop j) = TaskCancelled
      /\ subscribed_players (stop j) = subscribed_players j
      /\ forall p k s,
          subscribed_players j !! p = Some k ->
          subscriptions j !! k = Some s ->
          subscriptions (stop j) !! k = Some (put_nowait [] s)
          /\ ((length (sub_queue s) < 2)%nat ->
              sub_queue (put_nowait [] s) = sub_queue s ++ [[]])
          /\ (sub_queue s = [] -> sub_queue (put_nowait [] s) = [[]])
          /\ ((2 <= length (sub_queue s))%nat -> put_nowait [] s = s)).
Proof.
  intros Hrun. apply reachable_inv in Hrun.
  assert (Hfin : _finished (stop j) = true).
  { unfold stop. cbv zeta. simpl.
    destruct (task_done (_audio_task j)) eqn:Hdone; [reflexivity|].
    unfold cancel_task. simpl. rewrite Hdone. reflexivity. }
  split; [exact Hfin|]. split; [unfold finished; rewrite Hfin; reflexivity|].
  split.
  - intros Hdone. unfold stop. cbv zeta. simpl. rewrite Hdone. reflexivity.
  - intros Hdone. unfold stop, cancel_task. cbv zeta. simpl.
    rewrite Hdone. simpl.
    split; [reflexivity|]. split; [reflexivity|].
    intros p k s Hp Hs.
    change (subscribed_queues (set_audio_task TaskCancelled (set_finished true j)))
      with (subscribed_queues j).
    rewrite foldr_alter_lookup
      by (apply subscribed_queues_NoDup, (inv_own _ Hrun)).
    rewrite bool_decide_eq_true_2
      by (apply subscribed_queues_spec; exists p; exact Hp).
    rewrite Hs. split; [reflexivity|]. unfold put_nowait. repeat split.
    + intros Hroom. apply Nat.ltb_lt in Hroom. rewrite Hroom. reflexivity.
    + intros Hempty. rewrite Hempty. reflexivity.
    + intros Hfull. apply Nat.ltb_ge in Hfull. rewrite Hfull. reflexivity.
Qed.

(** *** More about runs of a job *)

Lemma step_connected l j j' :
  step l j = Some j' ->
  _all_clients_connected j = true -> _all_clients_connected j' = true.
Proof. destruct l; simpl; intros H Hconn; step_cases. Qed.

Lemma subscribe_registers p j :
  (_all_clients_connected j = true -> pcm_sample_size (pcm_format j) <> 0) ->
  subscribed_players (subscribe p j)
  = <[p := length (subscriptions j)]> (subscribed_players j)
  /\ subscriptions (subscribe p j)
     = subscriptions j
         ++ [{| sub_player := p; sub_queue := []; sub_yielded := [];
                sub_phase_of := Reading;
                sub_joined := length (produced j) |}].
Proof.
  intros Hpss. unfold subscribe. cbv zeta. simpl.
  destruct (_all_clients_connected j) eqn:Hconn; simpl.
  - unfold true_div. specialize (Hpss eq_refl). apply Z.eqb_neq in Hpss.
    rewrite Hpss. simpl. case_bool_decide; simpl; auto.
  - case_bool_decide; simpl; auto.
Qed.

(** As long as the producer task runs, a subscriber that is registered and
    reading has missed nothing: the chunks it has yielded, followed by
    those waiting in its queue, are all the chunks broadcast since it
    subscribed, in order; only the chunk whose [put] to its queue has not
    returned yet is still to come. *)
Theorem connected_subscriber_misses_no_chunk
    queue_id job_id fmt source ls j p k s :
  run ls (new_job queue_id job_id fmt source) = Some j ->
  task_done (_audio_task j) = false ->
  subscribed_players j !! p = Some k ->
  subscriptions j !! k = Some s ->
  sub_phase_of s = Reading ->
  sub_player s = p
  /\ (k ∉ waiting_puts (_audio_task j) ->
      sub_yielded s ++ sub_queue s = drop (sub_joined s) (produced j))
  /\ (k ∈ waiting_puts (_audio_task j) ->
      sub_yielded s ++ sub_queue s
      = drop (sub_joined s) (removelast (produced j))).
Proof.
  intros Hrun Hdone Hp Hs Hread. apply reachable_inv in Hrun.
  destruct (inv_own _ Hrun _ _ Hp) as (s' & Hs' & Hplayer).
  rewrite Hs in Hs'. injection Hs' as <-. split; [exact Hplayer|].
  destruct (inv_reading _ _ _ _ _ _ (inv_subs _ Hrun _ _ Hs) Hread)
    as (got & tail & Hsplit & _ & _ & _ & Hact).
  rewrite Hdone in Hact. destruct (Hact eq_refl) as [-> Hall].
  rewrite Hsplit, app_nil_r, Hall by (left; exists p; exact Hp).
  unfold fed. split; intros Hw.
  - rewrite bool_decide_eq_false_2 by assumption. reflexivity.
  - rewrite bool_decide_eq_true_2 by assumption. reflexivity.
Qed.

(** [bytes_streamed] is the size of the chunks that were broadcast to the
    end: while a chunk is being put it counts the chunks before it, between
    two chunks and after the last one it counts them all; after a
    cancellation it lies between the two. *)
Theorem bytes_streamed_counts_completed_broadcasts
    queue_id job_id fmt source ls j :
  run ls (new_job queue_id job_id fmt source) = Some j ->
  total_len (removelast (produced j)) <= bytes_streamed j
  /\ bytes_streamed j <= total_len (produced j)
  /\ (forall chunk waiting next,
        _audio_task j = Putting chunk waiting next ->
        bytes_streamed j = total_len (removelast (produced j)))
  /\ ((forall chunk waiting next,
         _audio_task j <> Putting chunk waiting next) ->
      _audio_task j <> TaskCancelled ->
      bytes_streamed j = total_len (produced j)).
Proof.
  intros Hrun.
  assert (Hinv : streamed_inv j).
  { eapply run_streamed_inv; [|exact Hrun]. reflexivity. }
  pose proof (total_len_removelast (produced j)) as Hle.
  unfold streamed_inv in Hinv.
  destruct (_audio_task j) as [src n|t c src|c w next| |] eqn:Ht; simpl.
  1, 2, 4: repeat split; try discriminate; try lia; intros; assumption.
  - destruct Hinv as (before & Hp & Hb).
    rewrite Hp, removelast_last, total_len_app in *. simpl in *.
    pose proof (len_nonneg c). repeat split; try lia.
    intros Hnot _. exfalso. apply (Hnot c w next). reflexivity.
  - destruct Hinv as [Hlo Hhi]. repeat split; try assumption;
      try discriminate. intros _ Hnot. contradiction.
Qed.

(** When the runner has returned, every subscriber that is still registered
    and reading, and subscribed before the end of the stream was broadcast,
    holds the end of the stream: its queue ends with the empty chunk, and
    before that chunk come the chunks it has not yielded yet, none
    missing. *)
Theorem eof_reaches_connected_subscribers
    queue_id job_id fmt source ls j p k s :
  run ls (new_job queue_id job_id fmt source) = Some j ->
  _audio_task j = TaskDone ->
  subscribed_players j !! p = Some k ->
  subscriptions j !! k = Some s ->
  sub_phase_of s = Reading ->
  (sub_joined s < length (produced j))%nat ->
  exists chunks,
    sub_queue s = chunks ++ [[]]
    /\ sub_yielded s ++ chunks
       = drop (sub_joined s) (removelast (produced j))
    /\ last (produced j) = Some [].
Proof.
  intros Hrun Hdone Hp Hs Hread Hjoined.
  assert (Heof : eof_inv j).
  { eapply run_eof_inv; [apply new_job_inv|apply new_job_eof_inv|exact Hrun]. }
  apply reachable_inv in Hrun.
  destruct Heof as [_ Hb]. destruct (Hb Hdone) as [[before Hbefore] Hsubs].
  pose proof (Hsubs _ _ Hs Hread (ex_intro _ p Hp)) as Hall.
  destruct (inv_reading _ _ _ _ _ _ (inv_subs _ Hrun _ _ Hs) Hread)
    as (_ & _ & _ & _ & _ & Hne & _).
  rewrite Hbefore in *. rewrite removelast_last, last_snoc.
  rewrite length_app in Hjoined. simpl in Hjoined.
  rewrite drop_app_le in Hall by lia.
  destruct (sub_queue s) as [|c q] eqn:Hq using rev_ind.
  - rewrite app_nil_r in Hall. rewrite Hall in Hne.
    apply Forall_app in Hne as [_ Hne]. inversion Hne; subst. contradiction.
  - clear IHq. rewrite app_assoc in Hall.
    apply app_inj_tail in Hall as [Hall ->].
    exists q. auto.
Qed.

(** A job never goes back: once it is finished it stays finished, and once
    it is not pending (running or finished) it is never pending again. *)
Theorem job_never_goes_back_to_pending ls : forall j j',
  run ls j = Some j' ->
  (finished j = true -> finished j' = true)
  /\ (pending j = false -> pending j' = false).
Proof.
  induction ls as [|l ls IH]; intros j j'; simpl.
  - intros H; inversion H; subst. auto.
  - destruct (step l j) as [j1|] eqn:Hstep; simpl; [|discriminate].
    intros Hrun. destruct (IH _ _ Hrun) as [Hfin Hpend].
    pose proof (step_finished _ _ _ Hstep) as Hfin1.
    pose proof (step_connected _ _ _ Hstep) as Hconn1.
    split; [auto|]. intros Hp. apply Hpend. revert Hp. unfold pending.
    destruct (finished j); [rewrite Hfin1; reflexivity|].
    destruct (_all_clients_connected j); [|discriminate].
    rewrite Hconn1 by reflexivity. intros _. apply andb_false_r.
Qed.

(** A player that requests its stream a second time harms itself: the
    second [subscribe] replaces the queue registered for the player, and
    when the generator of the first request is closed its [finally] block
    removes the player's entry, which by then holds the second queue.
    From then on the second request is read but no longer served: its
    queue is empty and not among the queues chunks are put to. *)
Theorem second_request_unsubscribes_player
    queue_id job_id fmt source ls j p k1 s1 :
  run ls (new_job queue_id job_id fmt source) = Some j ->
  subscribed_players j !! p = Some k1 ->
  subscriptions j !! k1 = Some s1 ->
  sub_phase_of s1 = Reading ->
  (_all_clients_connected j = true -> pcm_sample_size (pcm_format j) <> 0) ->
  exists j2 j3 s2,
    step (Subscribe p) j = Some j2
    /\ subscribed_players j2 !! p = Some (length (subscriptions j))
    /\ step (Close k1) j2 = Some j3
    /\ subscribed_players j3 !! p = None
    /\ subscriptions j3 !! length (subscriptions j) = Some s2
    /\ sub_player s2 = p
    /\ sub_phase_of s2 = Reading
    /\ sub_queue s2 = []
    /\ length (subscriptions j) ∉ subscribed_queues j3.
Proof.
  intros Hrun Hp Hs1 Hread Hpss. apply reachable_inv in Hrun.
  destruct (inv_own _ Hrun _ _ Hp) as (s & Hs & Hplayer).
  rewrite Hs1 in Hs. injection Hs as <-.
  destruct (subscribe_registers p j Hpss) as [Hmap Hsubs].
  assert (Hlt : (k1 < length (subscriptions j))%nat)
    by (eapply lookup_lt_Some; eassumption).
  assert (Hk1 : subscriptions (subscribe p j) !! k1 = Some s1)
    by (rewrite Hsubs, lookup_app_l by assumption; exact Hs1).
  eexists (subscribe p j), (leave k1 (subscribe p j)), _.
  split; [reflexivity|]. split; [rewrite Hmap; apply lookup_insert_eq|].
  split; [simpl; unfold close; rewrite Hk1; simpl; rewrite Hread; reflexivity|].
  unfold leave. rewrite Hk1. simpl. rewrite Hplayer.
  split; [apply lookup_delete_eq|].
  rewrite list_lookup_alter_ne by lia. rewrite Hsubs.
  rewrite list_lookup_middle by reflexivity.
  split; [reflexivity|]. repeat split.
  rewrite subscribed_queues_spec. simpl. intros [q Hq].
  apply lookup_delete_Some in Hq as [Hne Hq].
  rewrite Hmap, lookup_insert_ne in Hq by assumption.
  destruct (inv_own _ Hrun _ _ Hq) as (s' & Hs' & _).
  apply lookup_lt_Some in Hs'. lia.
Qed.

(** *** The start of a job *)

Lemma run_app ls1 : forall ls2 j,
  run (ls1 ++ ls2) j = j1 ← run ls1 j; run ls2 j1.
Proof.
  induction ls1 as [|l ls1 IH]; intros ls2 j; simpl; [reflexivity|].
  destruct (step l j) as [j1|]; simpl; [apply IH|reflexivity].
Qed.

(** Handing out URLs only adds to the expected players. *)
Lemma run_resolve ps : forall j,
  exists j',
    run (map ResolveStreamUrl ps) j = Some j'
    /\ expected_players j' = list_to_set ps ∪ expected_players j
    /\ subscribed_players j' = subscribed_players j
    /\ _all_clients_connected j' = _all_clients_connected j
    /\ finished j' = finished j.
Proof.
  induction ps as [|p ps IH]; intros j; simpl.
  - exists j. repeat split; try reflexivity.
    symmetry. apply (left_id_L ∅ (∪)).
  - destruct (IH (resolve_stream_url p j)) as (j' & Hrun & Hexp & Hsub & Hc & Hf).
    exists j'. rewrite Hrun, Hexp, Hsub, Hc, Hf. simpl.
    repeat split; try reflexivity.
    rewrite (assoc_L (∪)), (comm_L (∪) (list_to_set ps)). reflexivity.
Qed.

(** Players that subscribe one after the other while the job waits: the
    event is set by the one that makes the number of subscribers reach the
    number of expected players. *)
Lemma run_subscribe qs : forall j,
  NoDup qs ->
  (forall q, q ∈ qs -> subscribed_players j !! q = None) ->
  _all_clients_connected j = false ->
  (size (subscribed_players j) + length qs <= size (expected_players j))%nat ->
  exists j',
    run (map Subscribe qs) j = Some j'
    /\ expected_players j' = expected_players j
    /\ size (subscribed_players j')
       = (size (subscribed_players j) + length qs)%nat
    /\ finished j' = finished j
    /\ _all_clients_connected j'
       = bool_decide (qs <> []
                      /\ (size (subscribed_players j) + length qs)%nat
                         = size (expected_players j)).
Proof.
  induction qs as [|q qs IH]; intros j Hnd Hfresh Hconn Hle; simpl.
  - exists j. rewrite Nat.add_0_r, Hconn. repeat split; reflexivity.
  - apply NoDup_cons in Hnd as [Hq Hnd].
    assert (Hnone : subscribed_players j !! q = None)
      by (apply Hfresh; left).
    set (m := <[q := length (subscriptions j)]> (subscribed_players j)).
    assert (Hsize : size m = S (size (subscribed_players j)))
      by (apply map_size_insert_None; exact Hnone).
    assert (Hstep : exists j1,
               j1 = subscribe q j
               /\ expected_players j1 = expected_players j
               /\ subscribed_players j1 = m
               /\ finished j1 = finished j
               /\ _all_clients_connected j1
                  = bool_decide (size m = size (expected_players j))).
    { unfold subscribe. cbv zeta. simpl. rewrite Hconn. fold m.
      case_bool_decide as Hd; simpl in Hd; eexists;
        (split; [reflexivity|]); simpl; repeat split; try reflexivity;
        rewrite ?Hconn; symmetry;
        [apply bool_decide_eq_true_2|apply bool_decide_eq_false_2]; exact Hd. }
    destruct Hstep as (j1 & -> & Hexp1 & Hsub1 & Hfin1 & Hconn1).
    simpl in Hle.
    destruct qs as [|q' qs'].
    + exists (subscribe q j). simpl. rewrite Hexp1, Hsub1, Hfin1, Hconn1, Hsize.
      repeat split; try reflexivity; try lia.
      apply bool_decide_ext. split; [intros E; split; [discriminate|lia]|].
      intros [_ E]. lia.
    + assert (Hwait : _all_clients_connected (subscribe q j) = false).
      { rewrite Hconn1. apply bool_decide_eq_false_2. simpl in Hle. lia. }
      destruct (IH (subscribe q j) Hnd) as (j' & Hrun & Hexp & Hsz & Hfin & Hc).
      * intros p Hp. rewrite Hsub1. unfold m. rewrite lookup_insert_ne.
        -- apply Hfresh. right. exact Hp.
        -- intros ->. contradiction.
      * exact Hwait.
      * rewrite Hexp1, Hsub1, Hsize. simpl in *. lia.
      * exists j'. rewrite Hrun, Hexp, Hsz, Hfin, Hc, Hexp1, Hsub1, Hfin1, Hsize.
        repeat split; try reflexivity; try (simpl; lia).
        apply bool_decide_ext. simpl.
        split; intros [_ E]; (split; [discriminate|lia]).
Qed.

(** A new job hands out URLs to the players [qs ++ rest], all different,
    and the players [qs] request theirs.  If they are all of them the job
    is running from the last request on, without waiting for the timeout;
    as long as one is missing the job is pending. *)
Theorem job_starts_when_expected_players_subscribed
    queue_id job_id fmt source qs rest :
  NoDup (qs ++ rest) ->
  qs <> [] ->
  exists j,
    run (map ResolveStreamUrl (qs ++ rest) ++ map Subscribe qs)
      (new_job queue_id job_id fmt source) = Some j
    /\ size (expected_players j) = length (qs ++ rest)
    /\ size (subscribed_players j) = length qs
    /\ _all_clients_connected j = bool_decide (rest = [])
    /\ running j = bool_decide (rest = [])
    /\ pending j = negb (bool_decide (rest = [])).
Proof.
  intros Hnd Hne.
  destruct (run_resolve (qs ++ rest) (new_job queue_id job_id fmt source))
    as (j0 & Hrun0 & Hexp0 & Hsub0 & Hconn0 & Hfin0).
  simpl in Hexp0, Hsub0, Hconn0, Hfin0.
  assert (Hsize0 : size (expected_players j0) = length (qs ++ rest)).
  { rewrite Hexp0, (right_id_L ∅ (∪)). apply size_list_to_set. exact Hnd. }
  destruct (run_subscribe qs j0) as (j & Hrun & Hexp & Hsz & Hfin & Hconn).
  - apply NoDup_app in Hnd as (Hq & _). exact Hq.
  - intros q _. rewrite Hsub0. apply lookup_empty.
  - exact Hconn0.
  - rewrite Hsub0, Hsize0, map_size_empty, length_app. lia.
  - exists j. rewrite run_app, Hrun0. simpl. rewrite Hrun.
    rewrite Hsub0, map_size_empty in Hsz, Hconn. simpl in Hsz, Hconn.
    rewrite Hsize0, length_app in Hconn.
    assert (Hc : _all_clients_connected j = bool_decide (rest = [])).
    { rewrite Hconn. apply bool_decide_ext. split.
      - intros [_ E]. destruct rest; [reflexivity|simpl in E; lia].
      - intros ->. split; [exact Hne|simpl; lia]. }
    split; [reflexivity|]. split; [congruence|]. split; [exact Hsz|].
    split; [exact Hc|].
    unfold running, pending. rewrite Hfin, Hfin0, Hc. simpl.
    destruct (bool_decide (rest = [])); split; reflexivity.
Qed.

(** *** The theorems at the sample runs *)

(** B subscribes after one chunk of six bytes was broadcast and while the
    second one is on its way. *)
Lemma late_subscriber_gets_later_chunks_in_order_witness :
  exists j,
    run Sample.started_run Sample.job0 = Some j
    /\ _all_clients_connected j = true
    /\ client_seconds_skipped (subscribe "B" j) !! "B"
       = Some (Qdiv (inject_Z 6) (inject_Z 288000))
    /\ (forall k s,
          subscriptions j !! k = Some s ->
          sub_yielded s `prefix_of` drop (sub_joined s) (produced j)).
Proof.
  destruct (run Sample.started_run Sample.job0) as [j|] eqn:Hrun;
    [|vm_compute in Hrun; discriminate].
  exists j. split; [reflexivity|].
  pose proof (late_subscriber_gets_later_chunks_in_order "q" "job-1"
                Sample.pcm_48k
                [Sample.chunk_a; Sample.chunk_b; Sample.chunk_c]
                Sample.started_run j "B" Hrun) as [Hskip Hprefix].
  vm_compute in Hrun. injection Hrun as <-.
  split; [reflexivity|]. split; [|exact Hprefix].
  apply Hskip; [reflexivity|]. vm_compute. discriminate.
Defined.

(** A subscribed in time, B did not: after the timeout the job goes on
    with A. *)
Lemma producer_waits_then_starts_or_aborts_witness :
  exists j j',
    run Sample.waiting_run Sample.job0 = Some j
    /\ _audio_task j
       = WaitingForClients 10 Sample.chunk_a [Sample.chunk_b; Sample.chunk_c]
    /\ timeout j = Some j'
    /\ _all_clients_connected j' = true
    /\ _audio_task j'
       = Putting Sample.chunk_a (subscribed_queues j)
           (Some ([Sample.chunk_b; Sample.chunk_c], O))
    /\ produced j' = [Sample.chunk_a].
Proof.
  destruct (run Sample.waiting_run Sample.job0) as [j|] eqn:Hrun;
    [|vm_compute in Hrun; discriminate].
  pose proof (producer_waits_then_starts_or_aborts "q" "job-1"
                Sample.pcm_48k
                [Sample.chunk_a; Sample.chunk_b; Sample.chunk_c]
                Sample.waiting_run j Hrun) as (_ & Hwait & _).
  vm_compute in Hrun. injection Hrun as <-.
  destruct (Hwait 10 Sample.chunk_a [Sample.chunk_b; Sample.chunk_c] eq_refl)
    as (_ & _ & _ & _ & _ & Hsome).
  destruct Hsome as (j' & Hj').
  - intros Hempty. apply (f_equal (fun m => m !! "A")) in Hempty.
    vm_compute in Hempty. discriminate.
  - eexists _, j'. split; [reflexivity|]. split; [reflexivity|]. exact Hj'.
Defined.

(** A has read the first chunk and waits for the second: [stop] cancels the
    producer and A finds the empty chunk. *)
Lemma stop_finishes_and_puts_eof_where_room_witness :
  exists j,
    run Sample.started_run Sample.job0 = Some j
    /\ _finished (stop j) = true
    /\ _audio_task (stop j) = TaskCancelled
    /\ sub_queue <$> subscriptions (stop j) !! O = Some [[]].
Proof.
  destruct (run Sample.started_run Sample.job0) as [j|] eqn:Hrun;
    [|vm_compute in Hrun; discriminate].
  exists j. split; [reflexivity|].
  pose proof (stop_finishes_and_puts_eof_where_room "q" "job-1"
                Sample.pcm_48k
                [Sample.chunk_a; Sample.chunk_b; Sample.chunk_c]
                Sample.started_run j Hrun) as (Hfin & _ & _ & Hcancel).
  vm_compute in Hrun. injection Hrun as <-.
  split; [exact Hfin|].
  destruct (Hcancel eq_refl) as (Htask & _ & Hqueues).
  split; [exact Htask|].
  destruct (Hqueues "A" O _ eq_refl eq_refl) as (Hk & _ & Hempty & _).
  rewrite Hk. simpl. f_equal.
Defined.

(** C8 as stated fails in two reachable states.  After the producer is
    done, a late subscriber B waits on its empty queue: [stop] returns
    early, the task is not cancelled and B's queue stays empty.  And with
    the producer running and A's queue full, [stop] cancels the producer
    but A's queue keeps its two chunks and gets no empty chunk. *)
Lemma stop_finishes_and_puts_eof_where_room_counterexample :
  (exists j,
      run Sample.late_after_eof_run Sample.empty_job = Some j
      /\ subscribed_players j !! "B" = Some O
      /\ sub_phase_of <$> subscriptions j !! O = Some Reading
      /\ sub_queue <$> subscriptions j !! O = Some []
      /\ _audio_task (stop j) = TaskDone
      /\ sub_queue <$> subscriptions (stop j) !! O = Some [])
  /\ (exists j,
        run Sample.full_queue_run Sample.job0 = Some j
        /\ subscribed_players j !! "A" = Some O
        /\ _audio_task (stop j) = TaskCancelled
        /\ sub_queue <$> subscriptions (stop j) !! O
           = Some [Sample.chunk_a; Sample.chunk_b]).
Proof.
  split; eexists; (split; [vm_compute; reflexivity|]);
    vm_compute; repeat split.
Qed.

(** B, who joined before the third chunk, has yielded that chunk and
    nothing else is due to it. *)
Lemma connected_subscriber_misses_no_chunk_witness :
  exists j s,
    run Sample.late_join_run Sample.job0 = Some j
    /\ subscriptions j !! 1%nat = Some s
    /\ sub_player s = "B"
    /\ sub_yielded s ++ sub_queue s = [Sample.chunk_c].
Proof.
  destruct (run Sample.late_join_run Sample.job0) as [j|] eqn:Hrun;
    [|vm_compute in Hrun; discriminate].
  destruct (subscriptions j !! 1%nat) as [s|] eqn:Hs;
    [|vm_compute in Hrun; injection Hrun as <-; vm_compute in Hs;
      discriminate].
  exists j, s. split; [reflexivity|]. split; [exact Hs|].
  assert (Hgoal : sub_player s = "B"
                  /\ (1%nat ∉ waiting_puts (_audio_task j) ->
                      sub_yielded s ++ sub_queue s
                      = drop (sub_joined s) (produced j))
                  /\ (1%nat ∈ waiting_puts (_audio_task j) ->
                      sub_yielded s ++ sub_queue s
                      = drop (sub_joined s) (removelast (produced j)))).
  { apply (connected_subscriber_misses_no_chunk "q" "job-1" Sample.pcm_48k
             [Sample.chunk_a; Sample.chunk_b; Sample.chunk_c]
             Sample.late_join_run j "B" 1%nat s Hrun);
      vm_compute in Hrun; injection Hrun as <-;
      [reflexivity|reflexivity|exact Hs|].
    vm_compute in Hs. injection Hs as <-. reflexivity. }
  destruct Hgoal as (Hplayer & Hall & _). split; [exact Hplayer|].
  vm_compute in Hrun. injection Hrun as <-.
  vm_compute in Hs. injection Hs as <-.
  apply Hall. simpl. apply not_elem_of_nil.
Defined.

(** While the second chunk is being put, the six bytes of the first one
    have been streamed. *)
Lemma bytes_streamed_counts_completed_broadcasts_witness :
  exists j,
    run Sample.started_run Sample.job0 = Some j
    /\ produced j = [Sample.chunk_a; Sample.chunk_b]
    /\ bytes_streamed j = 6.
Proof.
  destruct (run Sample.started_run Sample.job0) as [j|] eqn:Hrun;
    [|vm_compute in Hrun; discriminate].
  exists j. split; [reflexivity|].
  pose proof (bytes_streamed_counts_completed_broadcasts "q" "job-1"
                Sample.pcm_48k
                [Sample.chunk_a; Sample.chunk_b; Sample.chunk_c]
                Sample.started_run j Hrun) as (_ & _ & Hput & _).
  vm_compute in Hrun. injection Hrun as <-.
  split; [reflexivity|].
  rewrite (Hput Sample.chunk_b [0%nat] (Some ([Sample.chunk_c], 1%nat)))
    by reflexivity.
  reflexivity.
Defined.

(** At the end of the sample stream A, who has read two chunks, holds the
    third chunk and the empty chunk. *)
Lemma eof_reaches_connected_subscribers_witness :
  exists j s chunks,
    run Sample.finished_run Sample.job0 = Some j
    /\ _audio_task j = TaskDone
    /\ subscriptions j !! 0%nat = Some s
    /\ sub_queue s = chunks ++ [[]]
    /\ sub_yielded s ++ chunks
       = drop (sub_joined s) (removelast (produced j))
    /\ last (produced j) = Some [].
Proof.
  destruct (run Sample.finished_run Sample.job0) as [j|] eqn:Hrun;
    [|vm_compute in Hrun; discriminate].
  destruct (subscriptions j !! 0%nat) as [s|] eqn:Hs;
    [|vm_compute in Hrun; injection Hrun as <-; vm_compute in Hs;
      discriminate].
  assert (Hgoal : exists chunks,
             sub_queue s = chunks ++ [[]]
             /\ sub_yielded s ++ chunks
                = drop (sub_joined s) (removelast (produced j))
             /\ last (produced j) = Some []).
  { apply (eof_reaches_connected_subscribers "q" "job-1" Sample.pcm_48k
             [Sample.chunk_a; Sample.chunk_b; Sample.chunk_c]
             Sample.finished_run j "A" 0%nat s Hrun);
      vm_compute in Hrun; injection Hrun as <-;
      [reflexivity|reflexivity|exact Hs| |];
      vm_compute in Hs; injection Hs as <-; [reflexivity|simpl; lia]. }
  destruct Hgoal as (chunks & Hgoal).
  exists j, s, chunks. split; [reflexivity|].
  split; [vm_compute in Hrun; injection Hrun as <-; reflexivity|].
  split; [exact Hs|exact Hgoal].
Defined.

(** The sample job is running after the timeout, and it is not pending
    after the rest of the stream either. *)
Lemma job_never_goes_back_to_pending_witness :
  exists j j',
    run Sample.started_run Sample.job0 = Some j
    /\ run [PutOne 0; PutDone; Fetch; Get 0; PutOne 0; PutDone] j = Some j'
    /\ pending j = false
    /\ pending j' = false.
Proof.
  destruct (run Sample.started_run Sample.job0) as [j|] eqn:Hrun;
    [|vm_compute in Hrun; discriminate].
  destruct (run [PutOne 0; PutDone; Fetch; Get 0; PutOne 0; PutDone] j)
    as [j'|] eqn:Hmore;
    [|vm_compute in Hrun; injection Hrun as <-; vm_compute in Hmore;
      discriminate].
  exists j, j'. split; [reflexivity|]. split; [exact Hmore|].
  assert (Hp : pending j = false)
    by (vm_compute in Hrun; injection Hrun as <-; reflexivity).
  split; [exact Hp|].
  apply (job_never_goes_back_to_pending _ j j' Hmore). exact Hp.
Defined.

(** A, the only subscriber of the waiting sample job, asks a second time
    and the first request is closed: A is not registered any more. *)
Lemma second_request_unsubscribes_player_witness :
  exists j j2 j3 s2,
    run Sample.waiting_run Sample.job0 = Some j
    /\ step (Subscribe "A") j = Some j2
    /\ subscribed_players j2 !! "A" = Some 1%nat
    /\ step (Close 0) j2 = Some j3
    /\ subscribed_players j3 !! "A" = None
    /\ subscriptions j3 !! 1%nat = Some s2
    /\ sub_player s2 = "A"
    /\ sub_phase_of s2 = Reading
    /\ sub_queue s2 = []
    /\ 1%nat ∉ subscribed_queues j3.
Proof.
  destruct (run Sample.waiting_run Sample.job0) as [j|] eqn:Hrun;
    [|vm_compute in Hrun; discriminate].
  destruct (subscriptions j !! 0%nat) as [s1|] eqn:Hs1;
    [|vm_compute in Hrun; injection Hrun as <-; vm_compute in Hs1;
      discriminate].
  assert (Hlen : length (subscriptions j) = 1%nat)
    by (vm_compute in Hrun; injection Hrun as <-; reflexivity).
  assert (Hgoal : exists j2 j3 s2,
             step (Subscribe "A") j = Some j2
             /\ subscribed_players j2 !! "A"
                = Some (length (subscriptions j))
             /\ step (Close 0) j2 = Some j3
             /\ subscribed_players j3 !! "A" = None
             /\ subscriptions j3 !! length (subscriptions j) = Some s2
             /\ sub_player s2 = "A"
             /\ sub_phase_of s2 = Reading
             /\ sub_queue s2 = []
             /\ length (subscriptions j) ∉ subscribed_queues j3).
  { apply (second_request_unsubscribes_player "q" "job-1" Sample.pcm_48k
             [Sample.chunk_a; Sample.chunk_b; Sample.chunk_c]
             Sample.waiting_run j "A" 0%nat s1 Hrun);
      vm_compute in Hrun; injection Hrun as <-.
    - reflexivity.
    - exact Hs1.
    - vm_compute in Hs1. injection Hs1 as <-. reflexivity.
    - intros _. vm_compute. discriminate. }
  rewrite Hlen in Hgoal. destruct Hgoal as (j2 & j3 & s2 & Hgoal).
  exists j, j2, j3, s2. split; [reflexivity|exact Hgoal].
Defined.

(** The sample job hands out URLs to A and B and both request them: the
    job is running. *)
Lemma job_starts_when_expected_players_subscribed_witness :
  exists j,
    run (map ResolveStreamUrl (["A"; "B"] ++ [])
           ++ map Subscribe ["A"; "B"]) Sample.job0 = Some j
    /\ size (expected_players j) = 2%nat
    /\ size (subscribed_players j) = 2%nat
    /\ _all_clients_connected j = true
    /\ running j = true
    /\ pending j = false.
Proof.
  apply (job_starts_when_expected_players_subscribed "q" "job-1"
           Sample.pcm_48k [Sample.chunk_a; Sample.chunk_b; Sample.chunk_c]
           ["A"; "B"] []).
  - apply NoDup_cons_2; [|apply NoDup_singleton].
    intros Hin. apply elem_of_cons in Hin as [Hin|Hin]; [discriminate|].
    inversion Hin.
  - discriminate.
Defined.

End JobProps.

(** ** The job registry *)

Module RegistryProps.
Import Registry.

Section Controller.

Variable from_bit_depth : Z -> ContentType.

Local Abbreviation create_multi_client_stream_job :=
  (create_multi_client_stream_job from_bit_depth).
Local Abbreviation step := (step from_bit_depth).
Local Abbreviation run := (run from_bit_depth).
Local Abbreviation job_pcm_format := (job_pcm_format from_bit_depth).

Lemma init_inv : registry_inv init.
Proof.
  split; simpl.
  - intros q a H. rewrite lookup_empty in H. discriminate.
  - intros a j H. rewrite lookup_nil in H. discriminate.
Qed.

(** What [create_multi_client_stream_job] leaves behind. *)
Lemma create_spec queue_id job_id queue_known source c :
  registry_inv c ->
  let c' :=
    (create_multi_client_stream_job queue_id job_id queue_known source c).1 in
  registry_inv c'
  /\ (forall q, q <> queue_id ->
        multi_client_jobs c' !! q = multi_client_jobs c !! q)
  /\ (forall a j,
        jobs c' !! a = Some j -> a <> length (jobs c) ->
        Job.queue_id j = queue_id -> Job.finished j = true)
  /\ (queue_known = true ->
      multi_client_jobs c' !! queue_id = Some (length (jobs c))
      /\ jobs c' !! length (jobs c)
         = Some (Job.new_job queue_id job_id job_pcm_format source))
  /\ (queue_known = false ->
      multi_client_jobs c' !! queue_id = None
      /\ length (jobs c') = length (jobs c)).
Proof.
  intros Hinv. unfold Registry.create_multi_client_stream_job.
  set (c1 := match multi_client_jobs c !! queue_id with
             | Some existing => _
             | None => c
             end).
  assert (Hclean :
            registry_inv c1
            /\ multi_client_jobs c1 !! queue_id = None
            /\ length (jobs c1) = length (jobs c)
            /\ forall q, q <> queue_id ->
                 multi_client_jobs c1 !! q = multi_client_jobs c !! q).
  { subst c1. destruct Hinv as [Hreg Hunf].
    destruct (multi_client_jobs c !! queue_id) as [a|] eqn:Hq;
      [|repeat split; auto].
    destruct (Hreg _ _ Hq) as (ej & Hej & Hejq). rewrite Hej.
    pose proof (lookup_lt_Some _ _ _ Hej) as Hlt.
    assert (Hothers :
              forall jobs',
                length jobs' = length (jobs c) ->
                (forall a', a' <> a -> jobs' !! a' = jobs c !! a') ->
                (forall j', jobs' !! a = Some j' ->
                   Job.finished j' = true) ->
                registry_inv
                  {| jobs := jobs';
                     multi_client_jobs := delete queue_id (multi_client_jobs c) |}).
    { intros jobs' Hlen Hsame Hfin. split; simpl.
      - intros q a' Hq'. apply lookup_delete_Some in Hq' as [Hne Hq'].
        destruct (Hreg _ _ Hq') as (j' & Hj' & Hj'q).
        assert (a' <> a) by (intros ->; congruence).
        exists j'. rewrite Hsame by assumption. auto.
      - intros a' j' Hj' Hunfinished.
        assert (Hne : a' <> a).
        { intros ->. rewrite (Hfin _ Hj') in Hunfinished. discriminate. }
        rewrite Hsame in Hj' by assumption.
        pose proof (Hunf _ _ Hj' Hunfinished) as Hq'.
        apply lookup_delete_Some. split; [|assumption]. congruence. }
    destruct (Job.finished ej) eqn:Hfin; simpl.
    - split; [|split; [apply lookup_delete_eq
                      |split; [reflexivity|intros; apply lookup_delete_ne; congruence]]].
      apply Hothers; [reflexivity|reflexivity|]. congruence.
    - split; [|split; [apply lookup_delete_eq
                      |split; [apply length_insert
                              |intros; apply lookup_delete_ne; congruence]]].
      apply Hothers; [apply length_insert| |].
      + intros a' Hne. apply list_lookup_insert_ne. congruence.
      + intros j'. rewrite list_lookup_insert_eq by assumption.
        intros H; inversion H; subst. apply JobProps.stop_finished. }
  clearbody c1. destruct Hclean as (Hinv1 & Hnone & Hlen & Hsame).
  assert (Hold : forall a j,
             jobs c1 !! a = Some j -> Job.queue_id j = queue_id ->
             Job.finished j = true).
  { intros a j Hj Hq. destruct (Job.finished j) eqn:Hfin; [reflexivity|].
    pose proof (inv_unfinished _ Hinv1 _ _ Hj Hfin) as Hreg. congruence. }
  destruct queue_known; simpl.
  - destruct Hinv1 as [Hreg Hunf]. rewrite Hlen in *.
    split; [|split; [|split; [|split]]].
    + split; simpl.
      * intros q a Hq. apply lookup_insert_Some in Hq as [[<- <-]|[Hne Hq]].
        -- eexists. split; [apply list_lookup_middle; congruence|reflexivity].
        -- destruct (Hreg _ _ Hq) as (j & Hj & Hjq). exists j.
           split; [apply lookup_app_l_Some; assumption|assumption].
      * intros a j Hj Hfin. apply lookup_app_Some in Hj as [Hj|[Hge Hj]].
        -- pose proof (Hunf _ _ Hj Hfin) as Hq.
           rewrite lookup_insert_ne; [assumption|]. congruence.
        -- destruct (a - length (jobs c1))%nat as [|n] eqn:Hn;
             [|rewrite lookup_cons, lookup_nil in Hj; discriminate].
           simpl in Hj. inversion Hj; subst; clear Hj. simpl.
           rewrite lookup_insert_eq. f_equal. lia.
    + intros q Hne. rewrite lookup_insert_ne by congruence. exact (Hsame _ Hne).
    + intros a j Hj Hne Hq. apply lookup_app_Some in Hj as [Hj|[Hge Hj]];
        [eapply Hold; eassumption|].
      destruct (a - length (jobs c1))%nat as [|n] eqn:Hn;
        [lia|rewrite lookup_cons, lookup_nil in Hj; discriminate].
    + intros _. split; [apply lookup_insert_eq|].
      apply list_lookup_middle. congruence.
    + discriminate.
  - split; [assumption|]. split; [assumption|]. split; [|split].
    + intros a j Hj _ Hq. eapply Hold; eassumption.
    + discriminate.
    + auto.
Qed.

Lemma job_step_inv c a l j j' :
  registry_inv c ->
  jobs c !! a = Some j ->
  Job.step l j = Some j' ->
  registry_inv {| jobs := <[a := j']> (jobs c);
                  multi_client_jobs := multi_client_jobs c |}.
Proof.
  intros [Hreg Hunf] Hj Hstep.
  pose proof (lookup_lt_Some _ _ _ Hj) as Hlt.
  pose proof (JobProps.step_queue_id _ _ _ Hstep) as Hq.
  split; simpl.
  - intros q a0 Hq0. destruct (Hreg _ _ Hq0) as (j0 & Hj0 & Hj0q).
    destruct (decide (a0 = a)) as [->|Hne].
    + exists j'. rewrite list_lookup_insert_eq by assumption.
      split; [reflexivity|]. congruence.
    + exists j0. rewrite list_lookup_insert_ne by congruence. auto.
  - intros a0 j0. destruct (decide (a0 = a)) as [->|Hne].
    + rewrite list_lookup_insert_eq by assumption.
      intros H Hfin; inversion H; subst. rewrite Hq. apply Hunf; [assumption|].
      destruct (Job.finished j) eqn:Hfj; [|reflexivity].
      rewrite (JobProps.step_finished _ _ _ Hstep Hfj) in Hfin. discriminate.
    + rewrite list_lookup_insert_ne by congruence. apply Hunf.
Qed.

Lemma registry_step_inv l c c' : registry_inv c -> step l c = Some c' -> registry_inv c'.
Proof.
  intros Hinv. destruct l as [q id known source|a l]; simpl.
  - intros H; inversion H; subst. apply create_spec. assumption.
  - destruct (jobs c !! a) as [j|] eqn:Hj; simpl; [|discriminate].
    destruct (Job.step l j) as [j'|] eqn:Hstep; simpl; [|discriminate].
    intros H; inversion H; subst. eapply job_step_inv; eassumption.
Qed.

Lemma registry_run_inv ls : forall c c',
  registry_inv c -> run ls c = Some c' -> registry_inv c'.
Proof.
  induction ls as [|l ls IH]; intros c c' Hinv; simpl.
  - intros H; inversion H; subst. assumption.
  - destruct (step l c) as [c1|] eqn:Hstep; simpl; [|discriminate].
    apply IH. eapply registry_step_inv; eassumption.
Qed.

(** C4.  In every state the controller reaches from its start, by creating
    jobs and by steps of the jobs themselves: a queue id is registered for
    at most one job, that job exists and belongs to the queue, and every
    job that is not finished is the one registered for its queue; so a
    queue has at most one unfinished job.  And
    [create_multi_client_stream_job], for a known queue, leaves the new
    job registered for the queue, every other job of that queue finished
    (the one registered before was popped, and stopped unless it was
    finished), and the other queues' entries as they were. *)
Theorem one_job_per_queue ls c :
  run ls init = Some c ->
  (forall queue_id a,
      multi_client_jobs c !! queue_id = Some a ->
      exists j, jobs c !! a = Some j /\ Job.queue_id j = queue_id)
  /\ (forall a a' j j',
        jobs c !! a = Some j -> jobs c !! a' = Some j' ->
        Job.queue_id j = Job.queue_id j' ->
        Job.finished j = false -> Job.finished j' = false ->
        a = a' /\ multi_client_jobs c !! Job.queue_id j = Some a)
  /\ (forall queue_id job_id source,
        let c' :=
          (create_multi_client_stream_job queue_id job_id true source c).1 in
        multi_client_jobs c' !! queue_id = Some (length (jobs c))
        /\ jobs c' !! length (jobs c)
           = Some (Job.new_job queue_id job_id job_pcm_format source)
        /\ (forall a j,
              jobs c' !! a = Some j -> a <> length (jobs c) ->
              Job.queue_id j = queue_id -> Job.finished j = true)
        /\ (forall q, q <> queue_id ->
              multi_client_jobs c' !! q = multi_client_jobs c !! q)).
Proof.
  intros Hrun. apply registry_run_inv in Hrun; [|apply init_inv].
  split; [apply (inv_registered _ Hrun)|]. split.
  - intros a a' j j' Hj Hj' Hq Hfin Hfin'.
    pose proof (inv_unfinished _ Hrun _ _ Hj Hfin) as Ha.
    pose proof (inv_unfinished _ Hrun _ _ Hj' Hfin') as Ha'.
    rewrite <- Hq in Ha'. split; [congruence|assumption].
  - intros queue_id job_id source c'.
    destruct (create_spec queue_id job_id true source c Hrun)
      as (_ & Hsame & Hold & Hnew & _).
    destruct (Hnew eq_refl) as [Hreg Hjob]. auto.
Qed.

End Controller.

(** *** The theorem at the sample run *)

(** After the second creation the second job is the one registered for
    "q", and the first one, which was running, is finished. *)
Lemma one_job_per_queue_witness :
  exists c,
    Registry.run Sample.from_bit_depth Sample.registry_run init = Some c
    /\ multi_client_jobs c !! "q" = Some 1%nat
    /\ Job.finished <$> jobs c !! 0%nat = Some true
    /\ (forall queue_id a,
          multi_client_jobs c !! queue_id = Some a ->
          exists j, jobs c !! a = Some j /\ Job.queue_id j = queue_id).
Proof.
  destruct (Registry.run Sample.from_bit_depth Sample.registry_run init)
    as [c|] eqn:Hrun; [|vm_compute in Hrun; discriminate].
  exists c. split; [reflexivity|].
  pose proof (one_job_per_queue Sample.from_bit_depth Sample.registry_run c
                Hrun) as (Hreg & _ & _).
  vm_compute in Hrun. injection Hrun as <-.
  split; [reflexivity|]. split; [reflexivity|]. exact Hreg.
Defined.

End RegistryProps.

(** ** Stream URLs and the requests they lead to *)

Module ResolveProps.
Import Format Resolve.

(** *** Strings *)

Lemma contains_char_app c a b :
  contains_char c (a +:+ b) = contains_char c a || contains_char c b.
Proof.
  induction a as [|d a IH]; simpl; [reflexivity|].
  rewrite IH, orb_assoc. reflexivity.
Qed.

Lemma replace_char_app old new a b :
  replace_char old new (a +:+ b)
  = replace_char old new a +:+ replace_char old new b.
Proof. induction a as [|d a IH]; simpl; [reflexivity|]. rewrite IH. reflexivity. Qed.

Lemma replace_char_absent old new s :
  contains_char old s = false -> replace_char old new s = s.
Proof.
  induction s as [|d s IH]; simpl; [reflexivity|].
  intros H. apply orb_false_iff in H as [Hd Hs].
  rewrite Hd, IH by assumption. reflexivity.
Qed.

Lemma string_app_assoc (a b c : string) : (a +:+ b) +:+ c = a +:+ b +:+ c.
Proof.
  induction a as [|d a IH]; [reflexivity|].
  change (String d ((a +:+ b) +:+ c) = String d (a +:+ b +:+ c)).
  rewrite IH. reflexivity.
Qed.

Lemma string_app_nil (a : string) : a +:+ "" = a.
Proof.
  induction a as [|d a IH]; [reflexivity|].
  change (String d (a +:+ "") = String d a). rewrite IH. reflexivity.
Qed.

Lemma split_on_nonempty sep s : split_on sep s <> [].
Proof.
  destruct s as [|d s]; simpl; [discriminate|].
  destruct (Ascii.eqb d sep); [discriminate|].
  destruct (split_on sep s); discriminate.
Qed.

Lemma split_on_absent sep s :
  contains_char sep s = false -> split_on sep s = [s].
Proof.
  induction s as [|d s IH]; simpl; [reflexivity|].
  intros H. apply orb_false_iff in H as [Hd Hs].
  rewrite Hd, IH by assumption. reflexivity.
Qed.

(** [(a + sep + b).split(sep) = a.split(sep) + b.split(sep)] *)
Lemma split_on_app sep a b :
  split_on sep (a +:+ String sep b) = split_on sep a ++ split_on sep b.
Proof.
  induction a as [|d a IH]; simpl.
  - rewrite Ascii.eqb_refl. reflexivity.
  - destruct (Ascii.eqb d sep); rewrite IH; [reflexivity|].
    pose proof (split_on_nonempty sep a) as Hne.
    destruct (split_on sep a) as [|w ws]; [contradiction|reflexivity].
Qed.

(** *** Decimal numbers: [int(str(n)) = n] *)

Local Abbreviation digits s :=
  (Forall (fun c => is_Some (digit_of c)) (list_ascii_of_string s)).

Local Abbreviation number cs acc :=
  (fold_left (fun a c => a * 10 + default 0 (digit_of c)) cs acc).

Lemma pretty_N_char_digit x :
  (x < 10)%N -> digit_of (pretty_N_char x) = Some (Z.of_N x).
Proof.
  intros Hx.
  assert (x = 0 \/ x = 1 \/ x = 2 \/ x = 3 \/ x = 4 \/ x = 5 \/ x = 6
          \/ x = 7 \/ x = 8 \/ x = 9)%N as H by lia.
  repeat (destruct H as [->|H]; [reflexivity|]). subst. reflexivity.
Qed.

Lemma pretty_N_go_digits x : forall s, digits s -> digits (pretty_N_go x s).
Proof.
  induction (N.lt_wf_0 x) as [x _ IH]. intros s Hs.
  destruct (N.eq_dec x 0%N) as [->|Hx]; [rewrite pretty_N_go_0; exact Hs|].
  rewrite pretty_N_go_step by lia.
  apply IH; [apply N.div_lt; lia|].
  simpl. constructor; [|exact Hs].
  rewrite pretty_N_char_digit by (apply N.mod_lt; lia). eauto.
Qed.

Lemma pretty_N_go_number x : forall s,
  number (list_ascii_of_string (pretty_N_go x s)) 0
  = number (list_ascii_of_string s) (Z.of_N x).
Proof.
  induction (N.lt_wf_0 x) as [x _ IH]. intros s.
  destruct (N.eq_dec x 0%N) as [->|Hx]; [rewrite pretty_N_go_0; reflexivity|].
  rewrite pretty_N_go_step by lia.
  rewrite IH by (apply N.div_lt; lia). simpl.
  rewrite pretty_N_char_digit by (apply N.mod_lt; lia). simpl.
  f_equal. rewrite (N.div_mod x 10) at 3 by lia. lia.
Qed.

Lemma pretty_N_go_length (k : nat) : forall x s,
  (x < 10 ^ N.of_nat k)%N ->
  (String.length (pretty_N_go x s) <= k + String.length s)%nat.
Proof.
  induction k as [|k IH]; intros x s Hx.
  - assert (x = 0%N) as -> by (simpl in Hx; lia).
    rewrite pretty_N_go_0. lia.
  - destruct (N.eq_dec x 0%N) as [->|Hx0]; [rewrite pretty_N_go_0; lia|].
    rewrite pretty_N_go_step by lia.
    etransitivity; [apply IH|simpl; lia].
    apply N.Div0.div_lt_upper_bound.
    rewrite Nat2N.inj_succ, N.pow_succ_r' in Hx. exact Hx.
Qed.

Lemma pretty_N_go_grows x : forall s,
  (String.length s <= String.length (pretty_N_go x s))%nat.
Proof.
  induction (N.lt_wf_0 x) as [x _ IH]. intros s.
  destruct (N.eq_dec x 0%N) as [->|Hx]; [rewrite pretty_N_go_0; lia|].
  rewrite pretty_N_go_step by lia.
  etransitivity; [|apply IH; apply N.div_lt; lia]. simpl. lia.
Qed.

(** The decimal string of a number from 0 to [10^4300 - 1]: digits, at
    least one and at most 4300, that spell the number. *)
Lemma pretty_digits (z : Z) :
  0 <= z < 10 ^ 4300 ->
  digits (pretty z)
  /\ pretty z <> ""
  /\ (String.length (pretty z) <= 4300)%nat
  /\ number (list_ascii_of_string (pretty z)) 0 = z.
Proof.
  intros Hz. destruct z as [|p|p]; [| |destruct Hz as [Hz _]; lia].
  - clear Hz. split; [|split; [discriminate|split; [simpl; lia|reflexivity]]].
    constructor; [eexists; reflexivity|constructor].
  - change (pretty (Z.pos p)) with (pretty_N_go (N.pos p) "").
    change (pretty (Z.pos p)) with (pretty_N_go (N.pos p) "").
    split; [apply pretty_N_go_digits; constructor|].
    split.
    + rewrite pretty_N_go_step by (clear; lia).
      pose proof (pretty_N_go_grows (N.pos p `div` 10)
                    (String (pretty_N_char (N.pos p `mod` 10)) "")) as Hlen.
      intros E. rewrite E in Hlen. simpl in Hlen. clear - Hlen. lia.
    + split.
      * pose proof (pretty_N_go_length 4300 (N.pos p) "") as Hlen.
        simpl String.length in Hlen. rewrite Nat.add_0_r in Hlen.
        apply Hlen. apply N2Z.inj_lt. rewrite N2Z.inj_pow.
        rewrite nat_N_Z. simpl Z.of_N at 1. change (Z.of_N 10) with 10.
        change (Z.of_nat 4300) with 4300. destruct Hz as [_ Hz]. exact Hz.
      * rewrite pretty_N_go_number. reflexivity.
Qed.

Lemma digits_absent c s :
  digits s -> digit_of c = None -> contains_char c s = false.
Proof.
  intros Hs Hc. induction s as [|d s IH]; simpl; [reflexivity|].
  simpl in Hs. apply Forall_cons in Hs as [[n Hd] Hs].
  rewrite IH by assumption. rewrite orb_false_r.
  apply Ascii.eqb_neq. intros ->. congruence.
Qed.

Lemma parse_digits_number cs : forall acc count after_digit,
  Forall (fun c => is_Some (digit_of c)) cs ->
  parse_digits acc count after_digit cs
  = if (after_digit || negb (bool_decide (cs = [])))
         && (count + length cs <=? 4300)%nat
    then Some (number cs acc) else None.
Proof.
  induction cs as [|c cs IH]; intros acc count after_digit Hcs; simpl.
  - rewrite Nat.add_0_r, orb_false_r. reflexivity.
  - apply Forall_cons in Hcs as [[d Hd] Hcs].
    rewrite Hd, IH by assumption. simpl.
    rewrite orb_true_r, Nat.add_succ_r. reflexivity.
Qed.

Lemma is_space_digit c : is_Some (digit_of c) -> is_space c = false.
Proof.
  intros [d Hd]. unfold digit_of in Hd. unfold is_space.
  destruct (_ && _) eqn:Hrange in Hd; [|discriminate].
  apply andb_true_iff in Hrange as [Hlo Hhi].
  apply Z.leb_le in Hlo, Hhi.
  apply orb_false_iff. split.
  - apply andb_false_iff. right. apply Nat.leb_gt. lia.
  - apply Nat.eqb_neq. lia.
Qed.

Lemma is_ascii_digits s :
  Forall (fun c => is_Some (digit_of c)) (list_ascii_of_string s) ->
  is_ascii s = true.
Proof.
  intros Hs. unfold is_ascii. apply forallb_forall. intros c Hc.
  rewrite Forall_forall in Hs. destruct (Hs c) as [d Hd].
  { apply list_elem_of_In. exact Hc. }
  unfold digit_of in Hd.
  destruct (_ && _) eqn:Hrange in Hd; [|discriminate].
  apply andb_true_iff in Hrange as [_ Hhi]. apply Z.leb_le in Hhi.
  apply Nat.ltb_lt. lia.
Qed.

Lemma strip_digits cs :
  cs <> [] -> Forall (fun c => is_Some (digit_of c)) cs -> strip cs = cs.
Proof.
  intros Hne Hcs. unfold strip.
  assert (Hl : forall l, l <> [] ->
                 Forall (fun c => is_Some (digit_of c)) l -> lstrip l = l).
  { intros [|c l] Hl Hd; [contradiction|]. simpl.
    apply Forall_cons in Hd as [Hc _].
    rewrite (is_space_digit _ Hc). reflexivity. }
  rewrite (Hl cs) by assumption.
  rewrite Hl; [apply rev_involutive| |apply Forall_rev; assumption].
  intros E. apply (f_equal (@rev ascii)) in E.
  rewrite rev_involutive in E. contradiction.
Qed.

Lemma length_chars (s : string) :
  length (list_ascii_of_string s) = String.length s.
Proof. induction s as [|c s IH]; simpl; congruence. Qed.

(** Python's [int(str(n)) = n], for the numbers [str] can print. *)
Lemma py_int_pretty to_ascii (z : Z) :
  0 <= z < 10 ^ 4300 -> py_int to_ascii (pretty z) = inr z.
Proof.
  intros Hz. destruct (pretty_digits z Hz) as (Hd & Hne & Hlen & Hnum).
  unfold py_int. rewrite (is_ascii_digits _ Hd). cbv zeta.
  assert (Hcs : list_ascii_of_string (pretty z) <> []).
  { intros E. apply Hne. rewrite <- (string_of_list_ascii_of_string (pretty z)).
    rewrite E. reflexivity. }
  rewrite strip_digits by assumption.
  rewrite <- length_chars in Hlen.
  destruct (list_ascii_of_string (pretty z)) as [|c cs] eqn:Hlist;
    [contradiction|].
  assert (Hparse : parse_digits 0 0 false (c :: cs) = Some z).
  { rewrite parse_digits_number by assumption.
    rewrite bool_decide_eq_false_2 by discriminate.
    apply Nat.leb_le in Hlen. rewrite Nat.add_0_l, Hlen, Hnum.
    reflexivity. }
  apply Forall_cons in Hd as [[d Hc] _].
  assert (Hminus : c <> "-"%char) by (intros ->; discriminate).
  assert (Hplus : c <> "+"%char) by (intros ->; discriminate).
  clear Hlist Hnum Hlen Hcs Hne.
  destruct c as [[] [] [] [] [] [] [] []];
    try (rewrite Hparse; reflexivity); contradiction.
Qed.

(** *** The format string of a PCM stream URL, parsed back *)

Section RoundTrip.

Variable to_ascii : string -> string.
Variable unquote : string -> string.

(** The percent-decoding leaves a text without [%] as it is. *)
Hypothesis unquote_plain :
  forall s, contains_char "%" s = false -> unquote s = s.

Local Abbreviation parse_qsl := (parse_qsl unquote).
Local Abbreviation pcm_params := (pcm_params unquote).
Local Abbreviation parse_pcm_info := (parse_pcm_info to_ascii unquote).

(** One [name=number] field of the query string. *)
Lemma parse_qsl_field name (z : Z) :
  0 <= z < 10 ^ 4300 ->
  contains_char "&" name = false ->
  contains_char "=" name = false ->
  contains_char "+" name = false ->
  contains_char "%" name = false ->
  name <> "" ->
  parse_qsl (name +:+ String "=" (pretty z)) = [(name, pretty z)].
Proof.
  intros Hz Hamp Heq Hplus Hpct Hne.
  destruct (pretty_digits z Hz) as (Hd & Hnz & _ & _).
  unfold Format.parse_qsl.
  rewrite split_on_absent.
  2:{ rewrite contains_char_app, Hamp. simpl.
      apply (digits_absent "&" _ Hd). reflexivity. }
  simpl.
  assert (Hfirst : forall a b,
             contains_char "=" a = false ->
             split_first "=" (a +:+ String "=" b) = Some (a, b)).
  { induction a as [|d a IH]; intros b Ha; simpl; [reflexivity|].
    simpl in Ha. apply orb_false_iff in Ha as [Hd' Ha].
    rewrite Hd', IH by assumption. reflexivity. }
  rewrite Hfirst by assumption.
  replace (is_empty (name +:+ String "=" (pretty z))) with false
    by (destruct name; reflexivity).
  replace (is_empty (pretty z)) with false
    by (destruct (pretty z); [contradiction|reflexivity]).
  rewrite !replace_char_absent
    by (try assumption; apply (digits_absent "+" _ Hd); reflexivity).
  rewrite !unquote_plain
    by (try assumption; apply (digits_absent "%" _ Hd); reflexivity).
  reflexivity.
Qed.

Lemma py_dict_app xs ys :
  py_dict (xs ++ ys)
  = fold_left (fun d kv => <[kv.1 := kv.2]> d) ys (py_dict xs).
Proof. unfold py_dict. apply fold_left_app. Qed.

Lemma omap_parse_app (qs1 qs2 : string) :
  parse_qsl (qs1 +:+ String "&" qs2) = parse_qsl qs1 ++ parse_qsl qs2.
Proof. unfold Format.parse_qsl. rewrite split_on_app. apply omap_app. Qed.

(** The parameters of the format string that the two [resolve_stream_url]
    write for a PCM codec: whatever the codec's name holds, the three
    numbers come last and are the ones found. *)
Lemma pcm_params_of_url_fmt (codec : string) (rate depth chans : Z) :
  0 <= rate < 10 ^ 4300 ->
  0 <= depth < 10 ^ 4300 ->
  0 <= chans < 10 ^ 4300 ->
  exists before,
    pcm_params
      (codec +:+ ";codec=pcm;rate=" +:+ pretty rate
         +:+ ";bitrate=" +:+ pretty depth +:+ ";channels=" +:+ pretty chans)
    = <["channels" := pretty chans]>
        (<["bitrate" := pretty depth]> (<["rate" := pretty rate]> before)).
Proof.
  intros Hrate Hdepth Hchans.
  destruct (pretty_digits rate Hrate) as (Hdr & _).
  destruct (pretty_digits depth Hdepth) as (Hdd & _).
  destruct (pretty_digits chans Hchans) as (Hdc & _).
  unfold Format.pcm_params.
  rewrite contains_char_app. simpl contains_char at 2.
  rewrite orb_true_r.
  rewrite !replace_char_app.
  rewrite (replace_char_absent _ _ (pretty rate))
    by (apply (digits_absent ";" _ Hdr); reflexivity).
  rewrite (replace_char_absent _ _ (pretty depth))
    by (apply (digits_absent ";" _ Hdd); reflexivity).
  rewrite (replace_char_absent _ _ (pretty chans))
    by (apply (digits_absent ";" _ Hdc); reflexivity).
  change (replace_char ";" "&" ";codec=pcm;rate=") with "&codec=pcm&rate=".
  change (replace_char ";" "&" ";bitrate=") with "&bitrate=".
  change (replace_char ";" "&" ";channels=") with "&channels=".
  set (prefix := replace_char ";" "&" codec).
  change (prefix +:+ "&codec=pcm&rate=" +:+ pretty rate +:+ "&bitrate="
            +:+ pretty depth +:+ "&channels=" +:+ pretty chans)
    with (prefix +:+ String "&"
            ("codec=pcm" +:+ String "&"
               (("rate" +:+ String "=" (pretty rate)) +:+ String "&"
                  (("bitrate" +:+ String "=" (pretty depth)) +:+ String "&"
                     ("channels" +:+ String "=" (pretty chans)))))).
  rewrite !omap_parse_app.
  rewrite !parse_qsl_field by (try assumption; try reflexivity; discriminate).
  rewrite !app_assoc, !py_dict_app. cbn [fold_left fst snd].
  eexists. reflexivity.
Qed.

(** What [parse_pcm_info] finds in that format string: the three numbers
    written. *)
Lemma parse_pcm_info_of_url_fmt (codec : string) (rate depth chans : Z) :
  0 <= rate < 10 ^ 4300 ->
  0 <= depth < 10 ^ 4300 ->
  0 <= chans < 10 ^ 4300 ->
  parse_pcm_info
    (codec +:+ ";codec=pcm;rate=" +:+ pretty rate
       +:+ ";bitrate=" +:+ pretty depth +:+ ";channels=" +:+ pretty chans)
  = inr (rate, depth, chans).
Proof.
  intros Hrate Hdepth Hchans.
  destruct (pcm_params_of_url_fmt codec rate depth chans Hrate Hdepth Hchans)
    as [before Hparams].
  unfold Format.parse_pcm_info. rewrite Hparams. unfold int_param.
  rewrite lookup_insert_ne, lookup_insert_ne, lookup_insert_eq by discriminate.
  rewrite (py_int_pretty to_ascii rate Hrate). cbn [bind].
  rewrite lookup_insert_ne, lookup_insert_eq by discriminate.
  rewrite (py_int_pretty to_ascii depth Hdepth). cbn [bind].
  rewrite lookup_insert_eq.
  rewrite (py_int_pretty to_ascii chans Hchans). reflexivity.
Qed.

(** *** From the URL to the output format *)

Variable try_parse : string -> ContentType.
Variable is_pcm : ContentType -> bool.
Variable from_bit_depth : Z -> ContentType.
Variable get_player_config_value : string -> string -> string.
Variable content_type_of : string -> exn + ContentType.
Variable value : ContentType -> string.
Variable players_get : string -> option Player.
Variable base_url : string.
Variable stream_audio_format : QueueItem -> exn + AudioFormat.
Variable urlencode : list (string * string) -> string.

Local Abbreviation _get_output_format :=
  (_get_output_format to_ascii unquote try_parse is_pcm from_bit_depth
     get_player_config_value).

Lemma small_numbers_print : 96000 < 10 ^ 4300.
Proof. apply Z.ltb_lt. vm_compute. reflexivity. Qed.

Lemma min_in_range (a b bound : Z) :
  0 <= a < bound -> 0 <= b -> 0 <= Z.min a b < bound.
Proof. lia. Qed.

Lemma min_in_range_r (a b bound : Z) :
  0 <= a -> 0 <= b < bound -> 0 <= Z.min a b < bound.
Proof. lia. Qed.

Lemma small_in_range (z : Z) :
  0 <= z <= 96000 -> 0 <= z < 10 ^ 4300.
Proof.
  intros [Hlo Hhi]. split; [exact Hlo|].
  apply Z.le_lt_trans with 96000; [exact Hhi|exact small_numbers_print].
Qed.

(** The format string written for a PCM codec, read by
    [_get_output_format]. *)
Lemma get_output_format_of_url_fmt codec rate depth chans player dsr dbd :
  0 <= rate < 10 ^ 4300 ->
  0 <= depth < 10 ^ 4300 ->
  0 <= chans < 10 ^ 4300 ->
  is_pcm codec = true ->
  let fmt :=
    value codec +:+ ";codec=pcm;rate=" +:+ pretty rate
      +:+ ";bitrate=" +:+ pretty depth +:+ ";channels=" +:+ pretty chans in
  try_parse fmt = codec ->
  _get_output_format fmt player dsr dbd
  = inr {| content_type :=
             if ContentType_eqb codec PCM then from_bit_depth depth
             else codec;
           sample_rate := rate; bit_depth := depth; channels := chans;
           output_format_str := fmt |}.
Proof.
  intros Hrate Hdepth Hchans Hpcm fmt Htry.
  unfold Format._get_output_format. rewrite Htry, Hpcm. cbn [orb].
  unfold fmt at 1.
  rewrite (parse_pcm_info_of_url_fmt _ _ _ _ Hrate Hdepth Hchans).
  reflexivity.
Qed.

(** The URL a multi-client job hands to a child player with a PCM output
    codec carries, behind the dot, a format string from which the
    endpoint's [_get_output_format] reads back the sample rate, bit depth
    and channel count that [resolve_stream_url] worked out from the job's
    format, the player and its configuration; and the player is expected
    from then on. *)
Theorem multi_client_url_is_parsed_back
    start_queue_item child_player_id j codec player :
  content_type_of (get_player_config_value child_player_id CONF_OUTPUT_CODEC)
  = inr codec ->
  is_pcm codec = true ->
  players_get child_player_id = Some player ->
  0 <= sample_rate (Job.pcm_format j) < 10 ^ 4300 ->
  0 <= bit_depth (Job.pcm_format j) ->
  0 <= max_sample_rate player ->
  let rate := Z.min (sample_rate (Job.pcm_format j)) (max_sample_rate player) in
  let depth :=
    Z.min (bit_depth (Job.pcm_format j))
      (if supports_24bit player then 32 else 16) in
  let chans :=
    if String.eqb
         (get_player_config_value child_player_id CONF_OUTPUT_CHANNELS)
         "stereo"
    then 2 else 1 in
  let fmt :=
    value codec +:+ ";codec=pcm;rate=" +:+ pretty rate
      +:+ ";bitrate=" +:+ pretty depth +:+ ";channels=" +:+ pretty chans in
  try_parse fmt = codec ->
  MultiClientStreamJob_resolve_stream_url content_type_of value is_pcm
    get_player_config_value players_get base_url start_queue_item
    child_player_id j
  = inr (base_url +:+ "/" +:+ Job.queue_id j +:+ "/multi/" +:+ Job.job_id j
           +:+ "/" +:+ child_player_id +:+ "/"
           +:+ queue_item_id start_queue_item +:+ "." +:+ fmt,
         Job.resolve_stream_url child_player_id j)
  /\ child_player_id
       ∈ Job.expected_players (Job.resolve_stream_url child_player_id j)
  /\ _get_output_format fmt player (sample_rate (Job.pcm_format j))
       (bit_depth (Job.pcm_format j))
     = inr {| content_type :=
                if ContentType_eqb codec PCM then from_bit_depth depth
                else codec;
              sample_rate := rate; bit_depth := depth; channels := chans;
              output_format_str := fmt |}.
Proof.
  intros Hcodec Hpcm Hplayer Hsr Hbd Hmax rate depth chans fmt Htry.
  split; [|split].
  - unfold MultiClientStreamJob_resolve_stream_url.
    rewrite Hcodec. cbn [bind]. rewrite Hpcm, Hplayer. reflexivity.
  - unfold Job.resolve_stream_url. simpl.
    apply elem_of_union. left. apply elem_of_singleton. reflexivity.
  - apply get_output_format_of_url_fmt; try assumption.
    + apply min_in_range; assumption.
    + apply min_in_range_r; [assumption|]. apply small_in_range.
      clear. destruct (supports_24bit player); lia.
    + apply small_in_range. unfold chans. clear.
      destruct (String.eqb _ _); lia.
Qed.

(** The same for the URL of a single player, in flow mode and for a single
    item: the format string behind the dot is read back by
    [serve_queue_flow_stream] and [serve_queue_item_stream], which call
    [_get_output_format] with the defaults the URL was made from, as the
    numbers [resolve_stream_url] wrote; the seek position and the fade-in
    only add a query string. *)
Theorem player_url_is_parsed_back
    queue_id queue_item seek_position fade_in flow_mode codec player
    audio_format :
  content_type_of (get_player_config_value queue_id CONF_OUTPUT_CODEC)
  = inr codec ->
  is_pcm codec = true ->
  players_get queue_id = Some player ->
  (flow_mode = false -> stream_audio_format queue_item = inr audio_format) ->
  0 <= sample_rate audio_format < 10 ^ 4300 ->
  0 <= bit_depth audio_format ->
  0 <= max_sample_rate player ->
  let default_sample_rate :=
    if flow_mode then FLOW_MAX_SAMPLE_RATE else sample_rate audio_format in
  let default_bit_depth :=
    if flow_mode then FLOW_MAX_BIT_DEPTH else bit_depth audio_format in
  let rate := Z.min default_sample_rate (max_sample_rate player) in
  let depth :=
    Z.min default_bit_depth (if supports_24bit player then 32 else 16) in
  let chans :=
    if String.eqb (get_player_config_value queue_id CONF_OUTPUT_CHANNELS)
         "stereo"
    then 2 else 1 in
  let fmt :=
    value codec +:+ ";codec=pcm;rate=" +:+ pretty rate
      +:+ ";bitrate=" +:+ pretty depth +:+ ";channels=" +:+ pretty chans in
  try_parse fmt = codec ->
  (exists query,
      StreamsController_resolve_stream_url content_type_of value is_pcm
        get_player_config_value players_get base_url stream_audio_format
        urlencode queue_id queue_item seek_position fade_in flow_mode
      = inr (base_url +:+ "/" +:+ queue_id +:+ "/"
               +:+ (if flow_mode then "flow" else "single") +:+ "/"
               +:+ queue_item_id queue_item +:+ "." +:+ fmt +:+ query)
      /\ (seek_position = 0 -> fade_in = false -> query = ""))
  /\ _get_output_format fmt player default_sample_rate default_bit_depth
     = inr {| content_type :=
                if ContentType_eqb codec PCM then from_bit_depth depth
                else codec;
              sample_rate := rate; bit_depth := depth; channels := chans;
              output_format_str := fmt |}.
Proof.
  intros Hcodec Hpcm Hplayer Haf Hsr Hbd Hmax dsr dbd rate depth chans fmt
    Htry.
  pose proof string_app_assoc as Happ. pose proof string_app_nil as Hnil.
  split.
  - unfold StreamsController_resolve_stream_url.
    rewrite Hcodec. cbn [bind]. rewrite Hpcm, Hplayer.
    assert (Hpair :
              (if flow_mode
               then inr (Z.min FLOW_MAX_SAMPLE_RATE (max_sample_rate player),
                         Z.min FLOW_MAX_BIT_DEPTH
                           (if supports_24bit player then 32 else 16))
               else
                 let* audio_format0 := stream_audio_format queue_item in
                 inr (Z.min (sample_rate audio_format0)
                        (max_sample_rate player),
                      Z.min (bit_depth audio_format0)
                        (if supports_24bit player then 32 else 16)))
              = (inr (rate, depth) : exn + Z * Z)).
    { unfold rate, depth, dsr, dbd. destruct flow_mode; [reflexivity|].
      rewrite (Haf eq_refl). reflexivity. }
    rewrite Hpair. cbn [bind]. fold chans. fold fmt.
    destruct (_ ++ _) as [|param params] eqn:Hquery.
    + exists "". rewrite !Hnil. split; [reflexivity|]. reflexivity.
    + exists ("?" +:+ urlencode (param :: params)).
      split; [rewrite !Happ; reflexivity|].
      intros -> ->. simpl in Hquery. discriminate.
  - apply get_output_format_of_url_fmt; try assumption.
    + apply min_in_range; [|assumption]. unfold dsr, FLOW_MAX_SAMPLE_RATE.
      destruct flow_mode; [apply small_in_range; clear; lia|assumption].
    + apply min_in_range_r.
      * unfold dbd, FLOW_MAX_BIT_DEPTH.
        destruct flow_mode; [clear; lia|assumption].
      * apply small_in_range. clear. destruct (supports_24bit player); lia.
    + apply small_in_range. unfold chans. clear.
      destruct (String.eqb _ _); lia.
Qed.

End RoundTrip.

(** *** The theorems at the sample players *)

Lemma sample_unquote_plain s :
  contains_char "%" s = false -> Sample.unquote s = s.
Proof.
  intros Hs. unfold Sample.unquote.
  rewrite <- (string_of_list_ascii_of_string s) at 2. f_equal.
  assert (Hcs : Forall (fun c => Ascii.eqb c "%" = false)
                  (list_ascii_of_string s)).
  { induction s as [|c s IH]; simpl; [constructor|].
    simpl in Hs. apply orb_false_iff in Hs as [Hc Hs]. auto. }
  clear Hs. induction Hcs as [|c cs Hc Hcs IH]; [reflexivity|].
  cbn [Sample.unquote_chars]. rewrite IH, Hc.
  destruct cs as [|h [|l rest]]; try reflexivity.
  destruct (Sample.hex_of h); [|reflexivity].
  destruct (Sample.hex_of l); reflexivity.
Qed.

Lemma sample_numbers_print (z : Z) :
  0 <= z -> (z <=? 100000) = true -> 0 <= z < 10 ^ 4300.
Proof.
  intros Hz Hle. apply Z.leb_le in Hle. split; [assumption|].
  apply Z.le_lt_trans with 100000; [assumption|].
  apply Z.ltb_lt. vm_compute. reflexivity.
Qed.

(** The living room, a child player of the sample job: the URL carries
    48 kHz, 24 bits and two channels, and the endpoint reads them back. *)
Lemma multi_client_url_is_parsed_back_witness :
  MultiClientStreamJob_resolve_stream_url Sample.content_type_of
    Sample.value_of Sample.is_pcm Sample.player_config Sample.players_get
    "http://192.168.1.2:8096" (Sample.item "1") "living_room" Sample.job0
  = inr ("http://192.168.1.2:8096/q/multi/job-1/living_room/1."
           +:+ "pcm;codec=pcm;rate=48000;bitrate=24;channels=2",
         Job.resolve_stream_url "living_room" Sample.job0)
  /\ "living_room"
       ∈ Job.expected_players (Job.resolve_stream_url "living_room" Sample.job0)
  /\ Format._get_output_format Sample.to_ascii Sample.unquote
       Sample.try_parse Sample.is_pcm Sample.from_bit_depth
       Sample.player_config
       "pcm;codec=pcm;rate=48000;bitrate=24;channels=2" Sample.living_room
       48000 24
     = inr {| content_type := PCM_S24LE; sample_rate := 48000;
              bit_depth := 24; channels := 2;
              output_format_str :=
                "pcm;codec=pcm;rate=48000;bitrate=24;channels=2" |}.
Proof.
  apply (multi_client_url_is_parsed_back Sample.to_ascii Sample.unquote
           sample_unquote_plain
           Sample.try_parse Sample.is_pcm Sample.from_bit_depth
           Sample.player_config Sample.content_type_of Sample.value_of
           Sample.players_get "http://192.168.1.2:8096" (Sample.item "1")
           "living_room" Sample.job0 PCM Sample.living_room).
  - reflexivity.
  - reflexivity.
  - reflexivity.
  - apply sample_numbers_print; [simpl; lia|reflexivity].
  - simpl. lia.
  - simpl. lia.
  - reflexivity.
Defined.

(** The living room as a single player in flow mode: 96 kHz is cut down
    to the player's 48 kHz, and a seek position of 30 s goes into the query
    string. *)
Lemma player_url_is_parsed_back_witness :
  (exists query,
      StreamsController_resolve_stream_url Sample.content_type_of
        Sample.value_of Sample.is_pcm Sample.player_config Sample.players_get
        "http://192.168.1.2:8096" Sample.stream_audio_format Sample.urlencode
        "living_room" (Sample.item "1") 30 false true
      = inr ("http://192.168.1.2:8096/living_room/flow/1."
               +:+ "pcm;codec=pcm;rate=48000;bitrate=24;channels=2"
               +:+ query)
      /\ (30 = 0 -> false = false -> query = ""))
  /\ Format._get_output_format Sample.to_ascii Sample.unquote
       Sample.try_parse Sample.is_pcm Sample.from_bit_depth
       Sample.player_config
       "pcm;codec=pcm;rate=48000;bitrate=24;channels=2" Sample.living_room
       96000 24
     = inr {| content_type := PCM_S24LE; sample_rate := 48000;
              bit_depth := 24; channels := 2;
              output_format_str :=
                "pcm;codec=pcm;rate=48000;bitrate=24;channels=2" |}.
Proof.
  apply (player_url_is_parsed_back Sample.to_ascii Sample.unquote
           sample_unquote_plain
           Sample.try_parse Sample.is_pcm Sample.from_bit_depth
           Sample.player_config Sample.content_type_of Sample.value_of
           Sample.players_get "http://192.168.1.2:8096"
           Sample.stream_audio_format Sample.urlencode
           "living_room" (Sample.item "1") 30 false true PCM
           Sample.living_room Sample.pcm_48k).
  - reflexivity.
  - reflexivity.
  - reflexivity.
  - discriminate.
  - apply sample_numbers_print; [simpl; lia|reflexivity].
  - simpl. lia.
  - simpl. lia.
  - reflexivity.
Defined.

End ResolveProps.

(** ** The multi-client endpoint *)

Module ServeProps.
Import Format Registry Serve.

Section Endpoint.

Variable to_ascii : string -> string.
Variable unquote : string -> string.
Variable try_parse : string -> ContentType.
Variable is_pcm : ContentType -> bool.
Variable from_bit_depth : Z -> ContentType.
Variable get_player_config_value : string -> string -> string.
Variable players_get : string -> option Player.

Local Abbreviation serve_multi_subscriber_stream :=
  (serve_multi_subscriber_stream to_ascii unquote try_parse is_pcm
     from_bit_depth
     get_player_config_value players_get).

Lemma get_output_format_str s player dsr dbd fmt :
  _get_output_format to_ascii unquote try_parse is_pcm from_bit_depth
    get_player_config_value s player dsr dbd = inr fmt ->
  output_format_str fmt = s.
Proof.
  unfold _get_output_format.
  destruct (_ || _).
  - destruct (parse_pcm_info to_ascii unquote s) as [e|[[rate depth] chans]]; simpl;
      [discriminate|].
    intros H. inversion H. reflexivity.
  - intros H. inversion H. reflexivity.
Qed.

(** Once a new job was created for a queue, the URLs of the job it
    replaced are dead: a request for that queue that carries another job
    id than the new job's is answered with 404, whatever its method, its
    player and its format are. *)
Theorem request_for_replaced_job_is_not_found
    ls c queue_id job_id source req :
  Registry.run from_bit_depth ls init = Some c ->
  match_queue_id req = queue_id ->
  match_job_id req <> job_id ->
  serve_multi_subscriber_stream
    (create_multi_client_stream_job from_bit_depth queue_id job_id true
       source c).1 req
  = HTTPNotFound ("StreamJob ID " +:+ match_job_id req
                    +:+ " mismatch for queue: " +:+ queue_id).
Proof.
  intros Hrun Hq Hid.
  apply RegistryProps.registry_run_inv in Hrun; [|apply RegistryProps.init_inv].
  destruct (RegistryProps.create_spec from_bit_depth queue_id job_id true
              source c Hrun) as (_ & _ & _ & Hnew & _).
  destruct (Hnew eq_refl) as [Hreg Hjob]. clear Hnew.
  set (c' := (create_multi_client_stream_job from_bit_depth queue_id job_id
                true source c).1) in *.
  unfold Serve.serve_multi_subscriber_stream. cbv zeta.
  rewrite Hq, Hreg. cbn [mbind option_bind]. rewrite Hjob.
  cbn [mbind option_bind Job.job_id Job.new_job].
  apply String.eqb_neq in Hid. rewrite Hid. reflexivity.
Qed.

(** The handler starts a stream only after all of its checks: on the job
    registered for the queue of the path, which belongs to that queue and
    has the job id of the path, for a player that is known, for a method
    other than [HEAD]; the content type announced is the format string of
    the path as it stands, and the warning is logged exactly when the
    player is subscribed to the job already. *)
Theorem stream_starts_only_on_registered_job
    ls c req headers output_format warned a player_id :
  Registry.run from_bit_depth ls init = Some c ->
  serve_multi_subscriber_stream c req
  = Streaming headers output_format warned a player_id ->
  exists j,
    multi_client_jobs c !! match_queue_id req = Some a
    /\ jobs c !! a = Some j
    /\ Job.queue_id j = match_queue_id req
    /\ Job.job_id j = match_job_id req
    /\ player_id = match_player_id req
    /\ is_Some (players_get player_id)
    /\ method req <> "HEAD"
    /\ headers
       = Icy.DEFAULT_STREAM_HEADERS
           ++ [("Content-Type", "audio/" +:+ match_fmt req)]
    /\ (warned = true <-> is_Some (Job.subscribed_players j !! player_id)).
Proof.
  intros Hrun. apply RegistryProps.registry_run_inv in Hrun;
    [|apply RegistryProps.init_inv].
  unfold Serve.serve_multi_subscriber_stream. cbv zeta.
  destruct (multi_client_jobs c !! match_queue_id req) as [a'|] eqn:Hreg;
    simpl; [|discriminate].
  destruct (inv_registered _ Hrun _ _ Hreg) as (j & Hj & Hjq).
  rewrite Hj. simpl.
  destruct (String.eqb_spec (match_job_id req) (Job.job_id j)) as [Hid|Hid];
    simpl; [|discriminate].
  destruct (players_get (match_player_id req)) as [player|] eqn:Hplayer;
    [|discriminate].
  destruct (_get_output_format _ _ _ _ _ _ _ _ _) as [e|fmt] eqn:Hfmt;
    [discriminate|].
  apply get_output_format_str in Hfmt.
  destruct (String.eqb_spec (method req) "HEAD") as [Hm|Hm]; [discriminate|].
  intros H. inversion H; subst. exists j. rewrite Hfmt, Hplayer.
  repeat split; eauto.
  - apply bool_decide_eq_true_1.
  - apply bool_decide_eq_true_2.
Qed.

End Endpoint.

(** *** The theorems at the sample registry *)

(** Job "job-1" of queue "q" is replaced by "job-2": a request with the
    first job's id is answered with 404. *)
Lemma request_for_replaced_job_is_not_found_witness :
  exists c,
    Registry.run Sample.from_bit_depth
      [Create "q" "job-1" true [Sample.chunk_a; Sample.chunk_b];
       JobStep 0 (Job.Subscribe "A")] init = Some c
    /\ Serve.serve_multi_subscriber_stream Sample.to_ascii Sample.unquote Sample.try_parse
         Sample.is_pcm Sample.from_bit_depth Sample.player_config
         Sample.players_get
         (create_multi_client_stream_job Sample.from_bit_depth "q" "job-2"
            true [Sample.chunk_c] c).1
         {| method := "GET"; match_queue_id := "q"; match_job_id := "job-1";
            match_player_id := "living_room"; match_fmt := "flac" |}
       = HTTPNotFound "StreamJob ID job-1 mismatch for queue: q".
Proof.
  destruct (Registry.run Sample.from_bit_depth
              [Create "q" "job-1" true [Sample.chunk_a; Sample.chunk_b];
               JobStep 0 (Job.Subscribe "A")] init) as [c|] eqn:Hrun;
    [|vm_compute in Hrun; discriminate].
  exists c. split; [reflexivity|].
  apply (request_for_replaced_job_is_not_found Sample.to_ascii Sample.unquote Sample.try_parse
           Sample.is_pcm Sample.from_bit_depth Sample.player_config
           Sample.players_get _ c "q" "job-2" [Sample.chunk_c]
           {| method := "GET"; match_queue_id := "q";
              match_job_id := "job-1"; match_player_id := "living_room";
              match_fmt := "flac" |} Hrun).
  - reflexivity.
  - discriminate.
Defined.

(** After the sample run the kitchen asks for the stream of "job-2" as
    FLAC: the stream is started on the second job. *)
Lemma stream_starts_only_on_registered_job_witness :
  exists c headers output_format warned j,
    Registry.run Sample.from_bit_depth Sample.registry_run init = Some c
    /\ Serve.serve_multi_subscriber_stream Sample.to_ascii Sample.unquote Sample.try_parse
         Sample.is_pcm Sample.from_bit_depth Sample.player_config
         Sample.players_get c
         {| method := "GET"; match_queue_id := "q"; match_job_id := "job-2";
            match_player_id := "kitchen"; match_fmt := "flac" |}
       = Streaming headers output_format warned 1%nat "kitchen"
    /\ multi_client_jobs c !! "q" = Some 1%nat
    /\ jobs c !! 1%nat = Some j
    /\ Job.queue_id j = "q"
    /\ Job.job_id j = "job-2"
    /\ headers
       = Icy.DEFAULT_STREAM_HEADERS ++ [("Content-Type", "audio/flac")]
    /\ (warned = true <-> is_Some (Job.subscribed_players j !! "kitchen")).
Proof.
  destruct (Registry.run Sample.from_bit_depth Sample.registry_run init)
    as [c|] eqn:Hrun; [|vm_compute in Hrun; discriminate].
  destruct (Serve.serve_multi_subscriber_stream Sample.to_ascii Sample.unquote
              Sample.try_parse Sample.is_pcm Sample.from_bit_depth
              Sample.player_config Sample.players_get c
              {| method := "GET"; match_queue_id := "q";
                 match_job_id := "job-2"; match_player_id := "kitchen";
                 match_fmt := "flac" |})
    as [reason|e|headers|headers output_format warned a p] eqn:Hserve;
    try (exfalso; vm_compute in Hrun; injection Hrun as <-;
         vm_compute in Hserve; discriminate).
  destruct (stream_starts_only_on_registered_job Sample.to_ascii Sample.unquote
              Sample.try_parse Sample.is_pcm Sample.from_bit_depth
              Sample.player_config Sample.players_get _ c _ _ _ _ _ _
              Hrun Hserve)
    as (j & Hreg & Hj & Hq & Hid & Hp & _ & _ & Hheaders & Hwarned).
  simpl in Hreg, Hq, Hid, Hp, Hheaders. subst p.
  assert (Ha : a = 1%nat).
  { vm_compute in Hrun. injection Hrun as <-. vm_compute in Hreg.
    congruence. }
  subst a.
  exists c, headers, output_format, warned, j. auto 10.
Defined.

End ServeProps.
